(** * The sliding-tile engine of [js/game_manager.js]

    A shallow embedding of the [Game] class: the session record, the move
    algorithm with its traversal order, farthest-position search and merge
    rule, the termination check, serialization, and the callouts to the
    render and storage collaborators.

    JavaScript numbers that hold coordinates, sizes, values and scores are
    integers ([Z]).  Their sums are exact here; those of the source are
    exact on safe integers, so a statement that gives the exact result of
    [this.score += merged.value] bounds the score by [safeInteger].  A
    method that throws completes with [TypeError]. *)

From stdpp Require Import base list sorting strings pretty.
From Stdlib Require Import ZArith Lia.

Open Scope Z_scope.
Set Warnings "-register-all".

(** ** Completions *)

(** A call either returns, throws a [TypeError], or exhausts the fuel of a
    loop of the model; the last case never occurs ([move_fuel],
    [setup_fuel]). *)
Inductive Completion (A : Type) : Type :=
| Normal (a : A)
| TypeError
| OutOfFuel.

Arguments Normal {A} a.
Arguments TypeError {A}.
Arguments OutOfFuel {A}.

Definition bind {A B} (c : Completion A) (k : A → Completion B) : Completion B :=
  match c with
  | Normal a => k a
  | TypeError => TypeError
  | OutOfFuel => OutOfFuel
  end.

Notation "x ←! c ; k" := (bind c (λ x, k))
  (at level 20, c at level 100, k at level 200, right associativity,
   format "x  ←!  c ;  '/' k").
Notation "' p ←! c ; k" := (bind c (λ x, match x with p => k end))
  (at level 20, p pattern, c at level 100, k at level 200, right associativity,
   format "' p  ←!  c ;  '/' k").

(** [list.forEach(body)] with a body that updates a state and may throw. *)
Fixpoint forEach {A S} (l : list A) (body : A → S → Completion S) (s : S)
  : Completion S :=
  match l with
  | [] => Normal s
  | a :: rest => s' ←! body a s; forEach rest body s'
  end.

(** The successive values of [i] in [for (let i = 0; i < n; i += 1)]. *)
Definition range (n : Z) : list Z := Z.of_nat <$> seq 0 (Z.to_nat n).

(** Plain [{x, y}] objects: cells, positions and direction vectors. *)
Record Position := mkPos { px : Z; py : Z }.

(** ** Tiles *)

Module Tile.

(** Modelled from the spec: the class [Tile] of [js/tile.js], which is not
    among the sources.  A tile has a value, a current position, a previous
    position and an ephemeral merge provenance naming the two tiles it was
    made from. *)
Inductive t : Type := mk {
  x : Z;
  y : Z;
  value : Z;
  previousPosition : option Position;
  mergedFrom : option (t * t)
}.

(** Modelled from the spec: [new Tile(position, value)], a tile at
    [position] with no previous position and no provenance. *)
Definition new (position : Position) (v : Z) : t :=
  mk (px position) (py position) v None None.

(** Modelled from the spec: [tile.savePosition()], which snapshots the
    current position as the previous one. *)
Definition savePosition (tile : t) : t :=
  mk (x tile) (y tile) (value tile) (Some (mkPos (x tile) (y tile)))
     (mergedFrom tile).

(** Modelled from the spec: [tile.updatePosition(position)]. *)
Definition updatePosition (tile : t) (position : Position) : t :=
  mk (px position) (py position) (value tile) (previousPosition tile)
     (mergedFrom tile).

(** The assignment [tile.mergedFrom = v] made by [Game]. *)
Definition setMergedFrom (tile : t) (v : option (t * t)) : t :=
  mk (x tile) (y tile) (value tile) (previousPosition tile) v.

(** Modelled from the spec: the wire shape [{value, position}] of a stored
    tile. *)
Record State := mkState { position : Position; svalue : Z }.

(** Modelled from the spec: [tile.serialize()]. *)
Definition serialize (tile : t) : State :=
  mkState (mkPos (x tile) (y tile)) (value tile).

End Tile.

(** ** The grid *)

Module Grid.

(** Modelled from the spec: the class [Grid] of [js/grid.js], which is not
    among the sources.  The grid owns [size] and the matrix [cells], indexed
    [cells[x][y]] as [Game.moveTile] does. *)
Record t := mk { size : Z; cells : list (list (option Tile.t)) }.

(** Modelled from the spec: the wire shape [{size, cells}] of a stored
    grid. *)
Record State := mkState {
  ssize : Z;
  scells : list (list (option Tile.State))
}.

(** Modelled from the spec: [new Grid(size)], every cell empty. *)
Definition empty (n : Z) : t :=
  mk n (replicate (Z.to_nat n) (replicate (Z.to_nat n) None)).

(** Modelled from the spec: [new Grid(size, previousState)], every stored
    tile rebuilt from its value and position.  The stored cells are taken
    to be [size] columns of [size] cells, as [serialize] yields them; what
    the constructor does with cells of another shape is not modelled. *)
Definition fromState (n : Z) (state : list (list (option Tile.State))) : t :=
  mk n ((λ col : list (option Tile.State),
           (λ c : option Tile.State,
              (λ s, Tile.new (Tile.position s) (Tile.svalue s)) <$> c) <$> col)
        <$> state).

(** Modelled from the spec: [grid.serialize()]. *)
Definition serialize (g : t) : State :=
  mkState (size g)
    ((λ col : list (option Tile.t),
        (λ c : option Tile.t, Tile.serialize <$> c) <$> col) <$> cells g).

(** Modelled from the spec: [withinBounds(pos)], 0 ≤ x, y < size. *)
Definition withinBounds (g : t) (p : Position) : bool :=
  (0 <=? px p) && (px p <? size g) && (0 <=? py p) && (py p <? size g).

(** The read [cells[x][y]] as tile-or-nothing: an element that is [null],
    or that the arrays do not have, is no tile. *)
Definition at_ (cs : list (list (option Tile.t))) (x y : Z) : option Tile.t :=
  if (0 <=? x) && (0 <=? y) then
    col ← cs !! Z.to_nat x; mjoin (col !! Z.to_nat y)
  else None.

(** Modelled from the spec: [cellContent(pos)], the tile at [pos], and
    nothing outside the bounds. *)
Definition cellContent (g : t) (p : Position) : option Tile.t :=
  if withinBounds g p then at_ (cells g) (px p) (py p) else None.

(** Modelled from the spec: [cellOccupied(pos)]. *)
Definition cellOccupied (g : t) (p : Position) : bool :=
  bool_decide (is_Some (cellContent g p)).

(** Modelled from the spec: [cellAvailable(pos)]. *)
Definition cellAvailable (g : t) (p : Position) : bool :=
  negb (cellOccupied g p).

(** The cells of the board, column by column. *)
Definition positions (g : t) : list Position :=
  x ← range (size g); y ← range (size g); [mkPos x y].

(** Modelled from the spec: [availableCells()], the empty cells. *)
Definition availableCells (g : t) : list Position :=
  filter (λ p, cellContent g p = None) (positions g).

(** Modelled from the spec: [cellsAvailable()], at least one cell holds no
    tile. *)
Definition cellsAvailable (g : t) : bool :=
  bool_decide (availableCells g ≠ []).

(** Modelled from the spec: [randomAvailableCell()], one of the empty cells,
    chosen by the draw [pick]; nothing when no cell is empty. *)
Definition randomAvailableCell (pick : nat) (g : t) : option Position :=
  let free := availableCells g in
  free !! (pick `mod` length free)%nat.

(** Modelled from the spec: [eachCell(callback)], which visits every cell
    once; the callback updates the visited tile in place. *)
Definition eachCell (callback : Z → Z → option Tile.t → option Tile.t)
    (g : t) : t :=
  mk (size g)
     (imap (λ x, imap (λ y, callback (Z.of_nat x) (Z.of_nat y))) (cells g)).

(** [array[i] = v] on a JavaScript array: in range the element is replaced;
    past the end the array grows, the gap reading as nothing; a negative
    [i] names a property that is not an element. *)
Definition store {A} (hole : A) (l : list A) (i : Z) (v : A) : list A :=
  if i <? 0 then l
  else if i <? Z.of_nat (length l) then <[Z.to_nat i := v]> l
  else l ++ replicate (Z.to_nat i - length l)%nat hole ++ [v].

(** [cells[x][y] = v]: a missing column [cells[x]] is [undefined], and
    assigning to an element of it throws. *)
Definition setCell (cs : list (list (option Tile.t))) (x y : Z)
    (v : option Tile.t) : Completion (list (list (option Tile.t))) :=
  if x <? 0 then TypeError
  else match cs !! Z.to_nat x with
       | Some col => Normal (<[Z.to_nat x := store None col y v]> cs)
       | None => TypeError
       end.

(** Modelled from the spec: [insertTile(tile)], which places the tile at its
    stored position, [cells[tile.x][tile.y] = tile]. *)
Definition insertTile (tile : Tile.t) (g : t) : Completion t :=
  cs ←! setCell (cells g) (Tile.x tile) (Tile.y tile) (Some tile);
  Normal (mk (size g) cs).

(** Modelled from the spec: [removeTile(tile)], which empties the cell at
    the tile's stored position, [cells[tile.x][tile.y] = null]. *)
Definition removeTile (tile : Tile.t) (g : t) : Completion t :=
  cs ←! setCell (cells g) (Tile.x tile) (Tile.y tile) None;
  Normal (mk (size g) cs).

End Grid.

(** ** The game session *)

Module Game.

(** What the name [keepPlaying] resolves to on an instance: the method
    declared by the class, until an assignment [this.keepPlaying = b]
    creates an own property that holds a boolean and shadows it. *)
Inductive Slot := Method | Flag (b : bool).

(** The truth value of the slot in a condition; a function is truthy. *)
Definition truthy (s : Slot) : bool :=
  match s with Method => true | Flag b => b end.

(** The serialized session, as handed to and returned by the storage.  The
    field [keepPlaying] is whatever value [this.keepPlaying] was; the wire
    shape makes it a boolean. *)
Module Stored.
Record t := mk {
  grid : Grid.State;
  score : Z;
  over : bool;
  won : bool;
  keepPlaying : Slot
}.
End Stored.

(** Modelled from the spec: the storage collaborator, by what it holds and
    the calls it received, oldest first.  [setGameState] replaces the held
    state, [clearGameState] removes it, [getGameState] returns it. *)
Inductive StorageCall :=
| GetGameState
| SetGameState (state : Stored.t)
| ClearGameState
| GetBestScore
| SetBestScore (best : Z).

(** Modelled from the spec: the state of the storage collaborator. *)
Record Storage := mkStorage {
  gameState : option Stored.t;
  bestScore : Z;
  requests : list StorageCall
}.

(** The second argument of [render.draw]. *)
Record Metadata := mkMetadata {
  m_score : Z;
  m_over : bool;
  m_won : bool;
  m_bestScore : Z;
  m_terminated : bool
}.

(** Modelled from the spec: the render collaborator, by the board dimension
    it declares and the calls it received, oldest first. *)
Inductive RenderCall :=
| ContinueGame
| Draw (grid : Grid.t) (metadata : Metadata).

(** Modelled from the spec: the state of the render collaborator. *)
Record Render := mkRender { size : Z; calls : list RenderCall }.

(** A [Game] instance.  [keepPlaying] is what the name resolves to; the
    other session fields are those [setup] assigns. *)
Record t := mk {
  render : Render;
  storage : Storage;
  startTiles : Z;
  grid : Grid.t;
  score : Z;
  over : bool;
  won : bool;
  keepPlaying : Slot
}.

(** The outcome of the two draws of [Math.random] behind one spawned tile:
    whether the first fell below 0.9, and the cell index derived from the
    second. *)
Record Spawn := mkSpawn { small : bool; pick : nat }.

(** *** Field updates on [this] *)

Definition setRender (r : Render) (this : t) : t :=
  mk r (storage this) (startTiles this) (grid this) (score this) (over this)
     (won this) (keepPlaying this).
Definition setStorage (s : Storage) (this : t) : t :=
  mk (render this) s (startTiles this) (grid this) (score this) (over this)
     (won this) (keepPlaying this).
Definition setGrid (g : Grid.t) (this : t) : t :=
  mk (render this) (storage this) (startTiles this) g (score this) (over this)
     (won this) (keepPlaying this).
Definition setScore (n : Z) (this : t) : t :=
  mk (render this) (storage this) (startTiles this) (grid this) n (over this)
     (won this) (keepPlaying this).
Definition setOver (b : bool) (this : t) : t :=
  mk (render this) (storage this) (startTiles this) (grid this) (score this) b
     (won this) (keepPlaying this).
Definition setWon (b : bool) (this : t) : t :=
  mk (render this) (storage this) (startTiles this) (grid this) (score this)
     (over this) b (keepPlaying this).
Definition setKeepPlaying (s : Slot) (this : t) : t :=
  mk (render this) (storage this) (startTiles this) (grid this) (score this)
     (over this) (won this) s.

(** *** Calls on the collaborators *)

(** Modelled from the spec: a call that leaves the storage as it is. *)
Definition storage_call (c : StorageCall) (this : t) : t :=
  let s := storage this in
  setStorage (mkStorage (gameState s) (bestScore s) (requests s ++ [c])) this.

(** Modelled from the spec: [storage.getGameState()]. *)
Definition storage_getGameState (this : t) : option Stored.t * t :=
  (gameState (storage this), storage_call GetGameState this).

(** Modelled from the spec: [storage.setGameState(state)]. *)
Definition storage_setGameState (state : Stored.t) (this : t) : t :=
  let s := storage this in
  setStorage
    (mkStorage (Some state) (bestScore s) (requests s ++ [SetGameState state]))
    this.

(** Modelled from the spec: [storage.clearGameState()]. *)
Definition storage_clearGameState (this : t) : t :=
  let s := storage this in
  setStorage (mkStorage None (bestScore s) (requests s ++ [ClearGameState])) this.

(** Modelled from the spec: [storage.getBestScore()]. *)
Definition storage_getBestScore (this : t) : Z * t :=
  (bestScore (storage this), storage_call GetBestScore this).

(** Modelled from the spec: [storage.setBestScore(best)]. *)
Definition storage_setBestScore (best : Z) (this : t) : t :=
  let s := storage this in
  setStorage
    (mkStorage (gameState s) best (requests s ++ [SetBestScore best])) this.

(** Modelled from the spec: a call on the render; it is recorded. *)
Definition render_call (c : RenderCall) (this : t) : t :=
  let r := render this in
  setRender (mkRender (size r) (calls r ++ [c])) this.

(** *** The methods of [Game] *)

(** [isGameTerminated()] *)
Definition isGameTerminated (this : t) : bool :=
  over this || (won this && negb (truthy (keepPlaying this))).

(** The body of the method [keepPlaying() { ... }]. *)
Definition keepPlaying_body (this : t) : t :=
  render_call ContinueGame (setKeepPlaying (Flag true) this).

(** The call [game.keepPlaying()]: the name is looked up on the instance
    and the value found is applied; applying a boolean throws. *)
Definition call_keepPlaying (this : t) : Completion t :=
  match keepPlaying this with
  | Method => Normal (keepPlaying_body this)
  | Flag _ => TypeError
  end.

(** [serialize()] *)
Definition serialize (this : t) : Stored.t :=
  Stored.mk (Grid.serialize (grid this)) (score this) (over this) (won this)
    (keepPlaying this).

(** [draw()] *)
Definition draw (this : t) : t :=
  let '(best, this) := storage_getBestScore this in
  let this :=
    if best <? score this then storage_setBestScore (score this) this
    else this in
  let this :=
    if over this then storage_clearGameState this
    else storage_setGameState (serialize this) this in
  let '(best, this) := storage_getBestScore this in
  render_call
    (Draw (grid this)
       (mkMetadata (score this) (over this) (won this) best
          (isGameTerminated this)))
    this.

(** [addRandomTile()] *)
Definition addRandomTile (rnd : Spawn) (this : t) : Completion t :=
  if Grid.cellsAvailable (grid this) then
    let value := if small rnd then 2 else 4 in
    match Grid.randomAvailableCell (pick rnd) (grid this) with
    | Some cell =>
        g ←! Grid.insertTile (Tile.new cell value) (grid this);
        Normal (setGrid g this)
    | None => TypeError
    end
  else Normal this.

(** [addStartTiles()]; [rnd i] is the spawn drawn in iteration [i]. *)
Definition addStartTiles (rnd : Z → Spawn) (this : t) : Completion t :=
  forEach (range (startTiles this)) (λ i, addRandomTile (rnd i)) this.

(** The five assignments of the branch of [setup] that finds no previous
    state. *)
Definition freshFields (this : t) : t :=
  setKeepPlaying (Flag false)
    (setWon false
       (setOver false
          (setScore 0 (setGrid (Grid.empty (size (render this))) this)))).

(** The five assignments of the branch that reloads a previous state. *)
Definition reloadFields (previousState : Stored.t) (this : t) : t :=
  let g := Stored.grid previousState in
  setKeepPlaying (Stored.keepPlaying previousState)
    (setWon (Stored.won previousState)
       (setOver (Stored.over previousState)
          (setScore (Stored.score previousState)
             (setGrid (Grid.fromState (Grid.ssize g) (Grid.scells g)) this)))).

(** [setup()] *)
Definition setup (rnd : Z → Spawn) (this : t) : Completion t :=
  let '(previousState, this) := storage_getGameState this in
  this ←!
    match previousState with
    | Some previousState => Normal (reloadFields previousState this)
    | None => addStartTiles rnd (freshFields this)
    end;
  Normal (draw this).

(** [new Game(render, storage, startTiles)]: the three assignments of the
    constructor leave the session fields unassigned and the name
    [keepPlaying] resolving to the method; [setup] then assigns all of
    them before anything reads them. *)
Definition new (rnd : Z → Spawn) (r : Render) (s : Storage) (n : Z)
  : Completion t :=
  setup rnd (mk r s n (Grid.empty 0) 0 false false Method).

(** [restart()] *)
Definition restart (rnd : Z → Spawn) (this : t) : Completion t :=
  setup rnd (render_call ContinueGame (storage_clearGameState this)).

(** [prepareTiles()] *)
Definition prepareTiles (this : t) : t :=
  setGrid
    (Grid.eachCell
       (λ x y tile,
          (λ tile, Tile.savePosition (Tile.setMergedFrom tile None)) <$> tile)
       (grid this))
    this.

(** [moveTile(tile, cell)]; returns the tile as [updatePosition] leaves it,
    which is the object the grid now holds at [cell]. *)
Definition moveTile (tile : Tile.t) (cell : Position) (this : t)
  : Completion (Tile.t * t) :=
  let g := grid this in
  cs ←! Grid.setCell (Grid.cells g) (Tile.x tile) (Tile.y tile) None;
  let tile' := Tile.updatePosition tile cell in
  cs ←! Grid.setCell cs (px cell) (py cell) (Some tile');
  Normal (tile', setGrid (Grid.mk (Grid.size g) cs) this).

(** [Game.getVector(direction)]; [undefined] for any other key. *)
Definition getVector (direction : Z) : option Position :=
  if direction =? 0 then Some (mkPos 0 (-1))
  else if direction =? 1 then Some (mkPos 1 0)
  else if direction =? 2 then Some (mkPos 0 1)
  else if direction =? 3 then Some (mkPos (-1) 0)
  else None.

(** The object [{x: [...], y: [...]}] that [buildTraversals] returns. *)
Record Traversals := mkTraversals { xs : list Z; ys : list Z }.

(** [Game.buildTraversals(vector, size)] *)
Definition buildTraversals (vector : Position) (n : Z) : Traversals :=
  let xs := range n in
  let ys := range n in
  let xs := if px vector =? 1 then reverse xs else xs in
  let ys := if py vector =? 1 then reverse ys else ys in
  mkTraversals xs ys.

(** The object [{farthest, next}] that [findFarthestPosition] returns. *)
Record Positions := mkPositions { farthest : Position; next : Position }.

(** The [do ... while] loop of [findFarthestPosition], run for at most
    [fuel] iterations. *)
Fixpoint findFarthestPosition_loop (fuel : nat) (g : Grid.t)
    (cell vector : Position) : Completion Positions :=
  match fuel with
  | O => OutOfFuel
  | S fuel =>
      let previous := cell in
      let cell := mkPos (px previous + px vector) (py previous + py vector) in
      if Grid.withinBounds g cell && Grid.cellAvailable g cell
      then findFarthestPosition_loop fuel g cell vector
      else Normal (mkPositions previous cell)
  end.

(** [findFarthestPosition(cell, vector)]; one iteration more than the board
    is wide always reaches an obstacle (see [findFarthestPosition_returns]). *)
Definition findFarthestPosition (this : t) (cell vector : Position)
  : Completion Positions :=
  findFarthestPosition_loop (S (Z.to_nat (Grid.size (grid this)))) (grid this)
    cell vector.

(** [Game.positionsEqual(first, second)]; the second argument of the one
    call is a tile, read through its [x] and [y]. *)
Definition positionsEqual (first : Position) (second : Tile.t) : bool :=
  (px first =? Tile.x second) && (py first =? Tile.y second).

(** The merge branch of the traversal body. *)
Definition merge (tile next : Tile.t) (positions : Positions) (this : t)
  : Completion (Tile.t * t) :=
  let tile' := Tile.updatePosition tile (Game.next positions) in
  let merged :=
    Tile.setMergedFrom (Tile.new (Game.next positions) (Tile.value tile * 2))
      (Some (tile', next)) in
  g ←! Grid.insertTile merged (grid this);
  g ←! Grid.removeTile tile g;
  let this := setGrid g this in
  let this := setScore (score this + Tile.value merged) this in
  let this := if Tile.value merged =? 2048 then setWon true this else this in
  Normal (tile', this).

(** The body of the inner [forEach] of [move] at the cell [{x, y}]; the
    state is [this] together with the local [moved]. *)
Definition visit (vector : Position) (x y : Z) (st : t * bool)
  : Completion (t * bool) :=
  let '(this, moved) := st in
  let cell := mkPos x y in
  match Grid.cellContent (grid this) cell with
  | Some tile =>
      positions ←! findFarthestPosition this cell vector;
      let next := Grid.cellContent (grid this) (Game.next positions) in
      '(tile, this) ←!
        match next with
        | Some next =>
            if (Tile.value next =? Tile.value tile)
               && negb (bool_decide (is_Some (Tile.mergedFrom next)))
            then merge tile next positions this
            else moveTile tile (farthest positions) this
        | None => moveTile tile (farthest positions) this
        end;
      Normal (this, if negb (positionsEqual cell tile) then true else moved)
  | None => Normal (this, moved)
  end.

(** The two nested [forEach] loops of [move]. *)
Definition traverse (vector : Position) (traversals : Traversals)
    (st : t * bool) : Completion (t * bool) :=
  forEach (xs traversals)
    (λ x, forEach (ys traversals) (λ y, visit vector x y)) st.

(** [this.size]: neither the constructor nor any method assigns a property
    of that name on a [Game], and the class declares none (the board
    dimension is [this.render.size] and [this.grid.size]), so the lookup
    yields [undefined]. *)
Definition this_size (this : t) : option Z := None.

(** The successive values of [i] in [for (let i = 0; i < bound; i += 1)]
    when [bound] may be [undefined]: [0 < undefined] is false. *)
Definition upto (bound : option Z) : list Z :=
  match bound with Some n => range n | None => [] end.

(** The scan of [tileMatchesAvailable] with the loop bound made explicit. *)
Definition tileMatchesAvailable_upto (bound : option Z) (this : t) : bool :=
  existsb (λ x,
    existsb (λ y,
      match Grid.cellContent (grid this) (mkPos x y) with
      | Some tile =>
          existsb (λ direction,
            match getVector direction with
            | Some vector =>
                let cell := mkPos (x + px vector) (y + py vector) in
                match Grid.cellContent (grid this) cell with
                | Some other => Tile.value other =? Tile.value tile
                | None => false
                end
            | None => false
            end) (range 4)
      | None => false
      end) (upto bound)) (upto bound).

(** [tileMatchesAvailable()] *)
Definition tileMatchesAvailable (this : t) : bool :=
  tileMatchesAvailable_upto (this_size this) this.

(** [movesAvailable()] *)
Definition movesAvailable (this : t) : bool :=
  Grid.cellsAvailable (grid this) || tileMatchesAvailable this.

(** [move(direction)] *)
Definition move (rnd : Spawn) (direction : Z) (this : t) : Completion t :=
  if isGameTerminated this then Normal this
  else
    match getVector direction with
    | None => TypeError
    | Some vector =>
        let traversals := buildTraversals vector (size (render this)) in
        let this := prepareTiles this in
        '(this, moved) ←! traverse vector traversals (this, false);
        if moved : bool then
          this ←! addRandomTile rnd this;
          let this :=
            if negb (movesAvailable this) then setOver true this else this in
          Normal (draw this)
        else Normal this
    end.

End Game.

(** ** The manager *)

Module GameManager.

(** A [GameManager] instance; the bindings to the input source are left
    out. *)
Record t := mk { games : list Game.t; controlIndex : Z }.

(** [games.forEach(callback)] with a callback that updates the game in
    place; [i] is the index of the first game of the list. *)
Fixpoint eachGame (i : nat) (callback : nat → Game.t → Completion Game.t)
    (games : list Game.t) : Completion (list Game.t) :=
  match games with
  | [] => Normal []
  | g :: rest =>
      g' ←! callback i g;
      rest' ←! eachGame (S i) callback rest;
      Normal (g' :: rest')
  end.

(** [move(direction)]: [this.games[this.controlIndex].move(direction)]; an
    index without a game yields [undefined], whose [move] cannot be read. *)
Definition move (rnd : Game.Spawn) (direction : Z) (this : t) : Completion t :=
  if controlIndex this <? 0 then TypeError
  else
    let i := Z.to_nat (controlIndex this) in
    match games this !! i with
    | Some g =>
        g' ←! Game.move rnd direction g;
        Normal (mk (<[i := g']> (games this)) (controlIndex this))
    | None => TypeError
    end.

(** [restart()]; [rnd i] holds the draws of game [i]. *)
Definition restart (rnd : nat → Z → Game.Spawn) (this : t) : Completion t :=
  games ←! eachGame 0 (λ i, Game.restart (rnd i)) (games this);
  Normal (mk games (controlIndex this)).

(** [keepPlaying()] *)
Definition keepPlaying (this : t) : Completion t :=
  games ←! eachGame 0 (λ _, Game.call_keepPlaying) (games this);
  Normal (mk games (controlIndex this)).

End GameManager.

(** A sequence of [move] events delivered to one session, each with the
    draws its spawn would consume. *)
Definition play (inputs : list (Game.Spawn * Z)) (this : Game.t)
  : Completion Game.t :=
  forEach inputs (λ input, Game.move (fst input) (snd input)) this.

(** ** Notions used to state the properties *)

(** Two boards are equivalent when they have the same size and every cell
    holds a tile of the same value at the same stored position, or none. *)
Definition sameBoard (g1 g2 : Grid.t) : Prop :=
  Grid.size g1 = Grid.size g2 ∧
  ∀ p, Tile.serialize <$> Grid.cellContent g1 p
       = Tile.serialize <$> Grid.cellContent g2 p.

(** A board of [n] columns of [n] cells whose declared size is [n]. *)
Definition Square (n : Z) (g : Grid.t) : Prop :=
  Grid.size g = n ∧
  length (Grid.cells g) = Z.to_nat n ∧
  Forall (λ col, length col = Z.to_nat n) (Grid.cells g).

(** What a tile keeps across storage: its value and position. *)
Definition reloaded (tile : Tile.t) : Tile.t :=
  Tile.new (mkPos (Tile.x tile) (Tile.y tile)) (Tile.value tile).

(** [q] is an orthogonal neighbour of [p]. *)
Definition Adjacent (p q : Position) : Prop :=
  (px q = px p ∧ (py q = py p - 1 ∨ py q = py p + 1)) ∨
  (py q = py p ∧ (px q = px p - 1 ∨ px q = px p + 1)).

(** Some tile has an orthogonal neighbour, within the bounds, that holds a
    tile of equal value. *)
Definition MatchOnBoard (g : Grid.t) : Prop :=
  ∃ p q tile other,
    Adjacent p q ∧
    Grid.cellContent g p = Some tile ∧
    Grid.cellContent g q = Some other ∧
    Tile.value other = Tile.value tile.

(** Some cell of the board holds no tile. *)
Definition EmptyCell (g : Grid.t) : Prop :=
  ∃ p, Grid.withinBounds g p = true ∧ Grid.cellContent g p = None.

(** Every tile stored in the matrix satisfies [P]. *)
Definition AllTiles (P : Tile.t → Prop) (g : Grid.t) : Prop :=
  ∀ x y tile, Grid.at_ (Grid.cells g) x y = Some tile → P tile.

(** [cells[x][y] = v] writes the element read back as [cells[x'][y']]. *)
Definition hit (x y x' y' : Z) : bool :=
  (x' =? x) && (y' =? y) && (0 <=? y).

(** The cell [k] steps from [cell] along [vector]. *)
Definition along (cell vector : Position) (k : Z) : Position :=
  mkPos (px cell + k * px vector) (py cell + k * py vector).

(** The parts of the session that the traversal of [move] does not touch. *)
Definition sameOutside (a b : Game.t) : Prop :=
  Game.render a = Game.render b ∧
  Game.storage a = Game.storage b ∧
  Game.startTiles a = Game.startTiles b ∧
  Game.over a = Game.over b ∧
  Game.keepPlaying a = Game.keepPlaying b ∧
  Grid.size (Game.grid a) = Grid.size (Game.grid b).

(** The cells still inside the board beyond [cell] along a unit vector. *)
Definition room (g : Grid.t) (cell vector : Position) : Z :=
  if px vector =? 1 then Grid.size g - 1 - px cell
  else if px vector =? -1 then px cell
  else if py vector =? 1 then Grid.size g - 1 - py cell
  else py cell.

(** The visit of the cell [{x, y}] takes the merge branch: the cell holds
    [tile], the search ends in front of [next], which has the same value and
    no merge provenance. *)
Definition Merges (vector : Position) (x y : Z) (this : Game.t)
    (tile next : Tile.t) (positions : Game.Positions) : Prop :=
  Grid.cellContent (Game.grid this) (mkPos x y) = Some tile ∧
  Game.findFarthestPosition this (mkPos x y) vector = Normal positions ∧
  Grid.cellContent (Game.grid this) (Game.next positions) = Some next ∧
  Tile.value next = Tile.value tile ∧
  Tile.mergedFrom next = None.

(** The tile a merge of [tile] into [next] creates. *)
Definition mergedTile (tile next : Tile.t) (positions : Game.Positions)
  : Tile.t :=
  Tile.mk (px (Game.next positions)) (py (Game.next positions))
    (Tile.value tile * 2) None
    (Some (Tile.updatePosition tile (Game.next positions), next)).

(** Somewhere during [forEach l body] started in [s], an element is visited
    in a state where [P] holds. *)
Inductive During {A S} (body : A → S → Completion S) (P : A → S → Prop)
  : list A → S → Prop :=
| During_here a rest s : P a s → During body P (a :: rest) s
| During_later a rest s s' :
    body a s = Normal s' → During body P rest s' → During body P (a :: rest) s.

(** Some visit of the traversal takes the merge branch. *)
Definition MergeDuring (vector : Position) (traversals : Game.Traversals)
    (st : Game.t * bool) : Prop :=
  During
    (λ x, forEach (Game.ys traversals) (λ y, Game.visit vector x y))
    (λ x, During (λ y, Game.visit vector x y)
            (λ y st, ∃ tile next positions,
                       Merges vector x y (fst st) tile next positions)
            (Game.ys traversals))
    (Game.xs traversals) st.



(** A tile without merge provenance. *)
Definition Fresh (tile : Tile.t) : Prop := Tile.mergedFrom tile = None.

(** A tile whose provenance, if any, names two tiles without provenance. *)
Definition Flat (tile : Tile.t) : Prop :=
  ∀ a b, Tile.mergedFrom tile = Some (a, b) → Fresh a ∧ Fresh b.

(** Along an axis on which the direction vector has component [s], the
    coordinate [a] is visited before [b]: they differ, and [b] does not lie
    beyond [a] in the direction of travel. *)
Definition before (s a b : Z) : Prop :=
  b ≠ a ∧ (s = 1 → b < a) ∧ (s = -1 → a < b).

(** The invariant of the traversal while the column [x] is visited, with the
    columns [xs] and the rows [ys] of this column still to come: tiles have
    flat provenance, and those of the cells still to be visited have none. *)
Definition ProvenanceInv (vector : Position) (x : Z) (xs ys : list Z)
    (g : Grid.t) : Prop :=
  AllTiles Flat g ∧
  (∀ x' y tile,
     x' ∈ xs → Grid.at_ (Grid.cells g) x' y = Some tile → Fresh tile) ∧
  (∀ y tile, y ∈ ys → Grid.at_ (Grid.cells g) x y = Some tile → Fresh tile) ∧
  Forall (before (px vector) x) xs ∧
  StronglySorted (before (py vector)) ys.

(** Some visit of the traversal merges a tile that carries provenance, as
    the moving tile or as the target. *)
Definition RemergeDuring (vector : Position) (traversals : Game.Traversals)
    (st : Game.t * bool) : Prop :=
  During
    (λ x, forEach (Game.ys traversals) (λ y, Game.visit vector x y))
    (λ x, During (λ y, Game.visit vector x y)
            (λ y st, ∃ tile next positions,
                       Merges vector x y (fst st) tile next positions ∧
                       ¬ (Fresh tile ∧ Fresh next))
            (Game.ys traversals))
    (Game.xs traversals) st.

(** The invariant of the traversal between two columns, with the columns
    [xs] still to come. *)
Definition TraversalInv (vector : Position) (xs : list Z) (g : Grid.t) : Prop :=
  AllTiles Flat g ∧
  (∀ x y tile,
     x ∈ xs → Grid.at_ (Grid.cells g) x y = Some tile → Fresh tile) ∧
  StronglySorted (before (px vector)) xs.


(** The visit of the cell [{x, y}] relocates its tile without merging: the
    search ends in a cell other than the one visited. *)
Definition Slides (vector : Position) (x y : Z) (this : Game.t) : Prop :=
  ∃ tile positions,
    Grid.cellContent (Game.grid this) (mkPos x y) = Some tile ∧
    Game.findFarthestPosition this (mkPos x y) vector = Normal positions ∧
    (∀ next, ¬ Merges vector x y this tile next positions) ∧
    Game.farthest positions ≠ mkPos x y.

(** Some visit of the traversal merges or relocates a tile. *)
Definition ChangeDuring (vector : Position) (traversals : Game.Traversals)
    (st : Game.t * bool) : Prop :=
  During
    (λ x, forEach (Game.ys traversals) (λ y, Game.visit vector x y))
    (λ x, During (λ y, Game.visit vector x y)
            (λ y st,
               (∃ tile next positions,
                  Merges vector x y (fst st) tile next positions)
               ∨ Slides vector x y (fst st))
            (Game.ys traversals))
    (Game.xs traversals) st.

(** A well-formed board of size [n]: square, and every tile stored at the
    cell its own position names. *)
Definition WellFormed (n : Z) (g : Grid.t) : Prop :=
  Square n g ∧
  ∀ x y tile,
    Grid.at_ (Grid.cells g) x y = Some tile →
    Tile.x tile = x ∧ Tile.y tile = y.

(** No tile of the board can slide or merge along [vector]: the cell next to
    each tile is outside the board, or holds a tile of another value. *)
Definition Blocked (vector : Position) (g : Grid.t) : Prop :=
  ∀ p tile,
    Grid.cellContent g p = Some tile →
    match Grid.cellContent g (along p vector 1) with
    | Some other => Tile.value other ≠ Tile.value tile
    | None => Grid.withinBounds g (along p vector 1) = false
    end.

(** ** Sample sessions *)

(** A cell holding a new tile of value [v] at [{x, y}]. *)
Definition tile (x y v : Z) : option Tile.t := Some (Tile.new (mkPos x y) v).

(** A full 4×4 board, shown row by row:
<<
      2   4   8  16
      2   8  16  32
      8  16  32  64
      4  64 128 256
>>
    The two 2s of the first column are neighbours. *)
Definition fullBoard : Grid.t :=
  Grid.mk 4
    [ [tile 0 0 2; tile 0 1 2;  tile 0 2 8;  tile 0 3 4];
      [tile 1 0 4; tile 1 1 8;  tile 1 2 16; tile 1 3 64];
      [tile 2 0 8; tile 2 1 16; tile 2 2 32; tile 2 3 128];
      [tile 3 0 16; tile 3 1 32; tile 3 2 64; tile 3 3 256] ].

(** The same board with the last row shifted right by one cell:
<<
      2   4   8  16
      2   8  16  32
      8  16  32  64
      .   4  64 128
>> *)
Definition shiftedBoard : Grid.t :=
  Grid.mk 4
    [ [tile 0 0 2; tile 0 1 2;  tile 0 2 8;  None];
      [tile 1 0 4; tile 1 1 8;  tile 1 2 16; tile 1 3 4];
      [tile 2 0 8; tile 2 1 16; tile 2 2 32; tile 2 3 64];
      [tile 3 0 16; tile 3 1 32; tile 3 2 64; tile 3 3 128] ].

(** A running session on the board [g], with a render of size 4, an empty
    storage and nothing scored. *)
Definition session (g : Grid.t) : Game.t :=
  Game.mk (Game.mkRender 4 []) (Game.mkStorage None 0 []) 2 g 0 false false
    (Game.Flag false).

(** A board with one row of four 2s. *)
Definition rowBoard : Grid.t :=
  Grid.mk 4
    [ [tile 0 0 2; None; None; None];
      [tile 1 0 2; None; None; None];
      [tile 2 0 2; None; None; None];
      [tile 3 0 2; None; None; None] ].

(** A session on the full board that is over. *)
Definition overSession : Game.t :=
  Game.mk (Game.mkRender 4 []) (Game.mkStorage None 0 []) 2 fullBoard 0 true
    false (Game.Flag false).

(** ** Further notions *)

(** A boolean check that every tile is stored at the cell its own position
    names. *)
Definition placedb (g : Grid.t) : bool :=
  forallb id
    (imap (λ x col,
       forallb id
         (imap (λ y (c : option Tile.t),
            match c with
            | Some tile =>
                (Tile.x tile =? Z.of_nat x) && (Tile.y tile =? Z.of_nat y)
            | None => true
            end) col))
       (Grid.cells g)).

(** A boolean check of [WellFormed]. *)
Definition wellFormedb (n : Z) (g : Grid.t) : bool :=
  (Grid.size g =? n)
  && (length (Grid.cells g) =? Z.to_nat n)%nat
  && forallb (λ col, (length col =? Z.to_nat n)%nat) (Grid.cells g)
  && placedb g.

(** What a later state of a session keeps of an earlier one: flags that are
    set stay set, the configuration stays, and the best score does not
    drop. *)
Definition Advances (a b : Game.t) : Prop :=
  (Game.won a = true → Game.won b = true) ∧
  (Game.over a = true → Game.over b = true) ∧
  Game.keepPlaying b = Game.keepPlaying a ∧
  Game.startTiles b = Game.startTiles a ∧
  Game.size (Game.render b) = Game.size (Game.render a) ∧
  Grid.size (Game.grid b) = Grid.size (Game.grid a) ∧
  Game.bestScore (Game.storage a) ≤ Game.bestScore (Game.storage b).

(** A tile as [addRandomTile] creates it: a 2 or a 4 with no history. *)
Definition Spawned (tile : Tile.t) : Prop :=
  (Tile.value tile = 2 ∨ Tile.value tile = 4) ∧
  Tile.previousPosition tile = None ∧
  Tile.mergedFrom tile = None.

(** The sum of [f] over a list of cells. *)
Definition sumOver (f : Position → Z) (l : list Position) : Z :=
  foldr (λ p acc, f p + acc) 0 l.

(** Equality of positions is decidable. *)
#[global] Instance Position_eq_dec : EqDecision Position.
Proof. solve_decision. Defined.

(** The value held by a cell of the board, 0 when it is empty. *)
Definition valueAt (g : Grid.t) (p : Position) : Z :=
  from_option Tile.value 0 (Grid.cellContent g p).

(** The sum of the values of the tiles on the board. *)
Definition boardSum (g : Grid.t) : Z := sumOver (valueAt g) (Grid.positions g).

(** A boolean check that every stored tile passes [p]. *)
Definition allTilesb (p : Tile.t → bool) (g : Grid.t) : bool :=
  forallb (forallb (λ c : option Tile.t, from_option p true c)) (Grid.cells g).

(** Some visit of the traversal merges two tiles into a 2048. *)
Definition WinDuring (vector : Position) (traversals : Game.Traversals)
    (st : Game.t * bool) : Prop :=
  During
    (λ x, forEach (Game.ys traversals) (λ y, Game.visit vector x y))
    (λ x, During (λ y, Game.visit vector x y)
            (λ y st, ∃ tile next positions,
                       Merges vector x y (fst st) tile next positions ∧
                       Tile.value tile * 2 = 2048)
            (Game.ys traversals))
    (Game.xs traversals) st.

(** A board whose first row holds two 1024s. *)
Definition winBoard : Grid.t :=
  Grid.mk 4
    [ [tile 0 0 1024; None; None; None];
      [tile 1 0 1024; None; None; None];
      [None; None; None; None];
      [None; None; None; None] ].

(** A boolean check of [Blocked]. *)
Definition blockedb (vector : Position) (g : Grid.t) : bool :=
  forallb
    (λ p,
       match Grid.cellContent g p with
       | Some tile =>
           match Grid.cellContent g (along p vector 1) with
           | Some other => negb (Tile.value other =? Tile.value tile)
           | None => negb (Grid.withinBounds g (along p vector 1))
           end
       | None => true
       end)
    (Grid.positions g).

(** What [prepareTiles] makes of a tile. *)
Definition prepared (tile : Tile.t) : Tile.t :=
  Tile.savePosition (Tile.setMergedFrom tile None).

(** The storage key of the game made in iteration [i]: the template literal
    [`game${i + 1}`]. *)
Definition storageKey (i : Z) : string := "game"%string +:+ pretty (i + 1).

(** [GameManager.createGames(Render, Storage, count, size, startTiles)].
    The classes [Render] and [Storage] are arguments of the method:
    [Render size] and [Storage key] stand for the collaborators that
    [new Render(size)] and [new Storage(key)] yield; [rnd i] holds the draws
    of the game made in iteration [i]. *)
Definition createGames (Render : Z → Game.Render)
    (Storage : string → Game.Storage) (rnd : Z → Z → Game.Spawn)
    (count size startTiles : Z) : Completion (list Game.t) :=
  forEach (range count)
    (λ i games,
       g ←! Game.new (rnd i) (Render size) (Storage (storageKey i)) startTiles;
       Normal (games ++ [g]))
    [].

(** * Properties *)

(** ** Completions and loops *)

Lemma bind_Normal {A B} (c : Completion A) (k : A → Completion B) b :
  bind c k = Normal b → ∃ a, c = Normal a ∧ k a = Normal b.
Proof. destruct c; simpl; intros H; try discriminate. eauto. Qed.

Ltac inv_bind H :=
  let a := fresh "r" in
  let Ha := fresh "Hr" in
  apply bind_Normal in H; destruct H as (a & Ha & H).

(** An invariant indexed by the elements still to be visited. *)
Lemma forEach_invariant_rest {A S} (I : list A → S → Prop)
    (body : A → S → Completion S) :
  (∀ a rest s s', I (a :: rest) s → body a s = Normal s' → I rest s') →
  ∀ l s s', I l s → forEach l body s = Normal s' → I [] s'.
Proof.
  intros Hstep l. induction l as [|a l IH]; simpl; intros s s' HI H.
  - congruence.
  - inv_bind H. eauto.
Qed.

Lemma forEach_invariant {A S} (I : S → Prop) (body : A → S → Completion S) :
  (∀ a s s', I s → body a s = Normal s' → I s') →
  ∀ l s s', I s → forEach l body s = Normal s' → I s'.
Proof.
  intros Hstep l s s'.
  apply (forEach_invariant_rest (λ _, I)). eauto.
Qed.

(** A loop whose body always returns and keeps [I] returns and keeps [I]. *)
Lemma forEach_returns {A S} (I : S → Prop) (body : A → S → Completion S) l :
  (∀ a s, a ∈ l → I s → ∃ s', body a s = Normal s' ∧ I s') →
  ∀ s, I s → ∃ s', forEach l body s = Normal s' ∧ I s'.
Proof.
  induction l as [|a l IH]; simpl; intros Hstep s HI; [eauto|].
  destruct (Hstep a s) as (s1 & -> & HI1); [left | assumption |].
  simpl. apply IH; [|assumption].
  intros b s2 Hb. apply Hstep. now right.
Qed.

Lemma elem_of_range (n i : Z) : i ∈ range n ↔ 0 ≤ i < n.
Proof.
  unfold range. rewrite list_elem_of_fmap. split.
  - intros (k & -> & Hk). apply elem_of_seq in Hk. lia.
  - intros Hi. exists (Z.to_nat i). split; [lia|]. apply elem_of_seq. lia.
Qed.

(** ** Terminated sessions *)

Lemma isGameTerminated_spec this :
  Game.isGameTerminated this = true ↔
  Game.over this = true ∨
  (Game.won this = true ∧ Game.truthy (Game.keepPlaying this) = false).
Proof.
  unfold Game.isGameTerminated.
  rewrite orb_true_iff, andb_true_iff, negb_true_iff. tauto.
Qed.

(** C4.  In a terminated session ([over], or [won] with [keepPlaying] not
    elected) a move in any direction returns the session as it was: the
    grid, the score, the three flags and both collaborators, with the lists
    of calls they received, are unchanged; and so is the session after any
    further sequence of moves. *)
Theorem move_terminated_is_noop (this : Game.t) :
  Game.over this = true ∨
  (Game.won this = true ∧ Game.truthy (Game.keepPlaying this) = false) →
  (∀ rnd direction, Game.move rnd direction this = Normal this) ∧
  (∀ inputs, play inputs this = Normal this).
Proof.
  intros Hterm. apply isGameTerminated_spec in Hterm.
  assert (Hone : ∀ rnd direction, Game.move rnd direction this = Normal this).
  { intros rnd direction. unfold Game.move. now rewrite Hterm. }
  split; [exact Hone|].
  intros inputs. unfold play.
  induction inputs as [|[rnd direction] inputs IH]; simpl; [reflexivity|].
  rewrite Hone. exact IH.
Qed.

(** ** Reading cells *)

Lemma at_imap (f : Tile.t → Tile.t) (cs : list (list (option Tile.t))) x y :
  Grid.at_ (imap (λ _ : nat, imap (λ (_ : nat) (c : option Tile.t), f <$> c)) cs)
    x y = f <$> Grid.at_ cs x y.
Proof.
  unfold Grid.at_. destruct ((0 <=? x) && (0 <=? y)); [|reflexivity].
  rewrite list_lookup_imap. destruct (cs !! Z.to_nat x) as [col|]; simpl; [|reflexivity].
  rewrite list_lookup_imap. now destruct (col !! Z.to_nat y) as [[c|]|].
Qed.

(** ** Serialization and [setup] *)

Lemma at_reloaded (g : Grid.t) x y :
  Grid.at_
    (Grid.cells
       (Grid.fromState (Grid.ssize (Grid.serialize g))
          (Grid.scells (Grid.serialize g)))) x y
  = reloaded <$> Grid.at_ (Grid.cells g) x y.
Proof.
  unfold Grid.at_; simpl.
  destruct ((0 <=? x) && (0 <=? y)); [|reflexivity].
  rewrite !list_lookup_fmap.
  destruct (Grid.cells g !! Z.to_nat x) as [col|]; simpl; [|reflexivity].
  rewrite !list_lookup_fmap.
  now destruct (col !! Z.to_nat y) as [[c|]|].
Qed.

Lemma draw_frame this :
  Game.grid (Game.draw this) = Game.grid this ∧
  Game.score (Game.draw this) = Game.score this ∧
  Game.over (Game.draw this) = Game.over this ∧
  Game.won (Game.draw this) = Game.won this ∧
  Game.keepPlaying (Game.draw this) = Game.keepPlaying this ∧
  Game.startTiles (Game.draw this) = Game.startTiles this ∧
  Game.size (Game.render (Game.draw this)) = Game.size (Game.render this).
Proof.
  destruct this as [r s n g sc ov w k]. unfold Game.draw; simpl.
  destruct (_ <? _), ov; simpl; repeat split; reflexivity.
Qed.

(** C8.  Round trip: a session set up from a storage that holds
    [serialize()] of a session has an equivalent board (same size, and in
    every cell a tile of the same value and position, or none) and the same
    score, [over], [won] and [keepPlaying]. *)
Theorem serialize_setup_roundtrip (this other : Game.t) (rnd : Z → Game.Spawn) :
  Game.gameState (Game.storage other) = Some (Game.serialize this) →
  ∃ this',
    Game.setup rnd other = Normal this' ∧
    sameBoard (Game.grid this') (Game.grid this) ∧
    Game.score this' = Game.score this ∧
    Game.over this' = Game.over this ∧
    Game.won this' = Game.won this ∧
    Game.keepPlaying this' = Game.keepPlaying this.
Proof.
  intros Hstored. unfold Game.setup, Game.storage_getGameState.
  rewrite Hstored. simpl. eexists. split; [reflexivity|].
  destruct (draw_frame
    (Game.reloadFields (Game.serialize this)
       (Game.storage_call Game.GetGameState other)))
    as (-> & -> & -> & -> & -> & _).
  repeat split; try reflexivity.
  intros p. unfold Grid.cellContent, Grid.withinBounds.
  change (Grid.size (Game.grid (Game.reloadFields (Game.serialize this)
            (Game.storage_call Game.GetGameState other))))
    with (Grid.size (Game.grid this)).
  destruct (_ && _); [|reflexivity].
  change (Game.grid (Game.reloadFields (Game.serialize this)
            (Game.storage_call Game.GetGameState other)))
    with (Grid.fromState (Grid.ssize (Grid.serialize (Game.grid this)))
            (Grid.scells (Grid.serialize (Game.grid this)))).
  rewrite at_reloaded. now destruct (Grid.at_ _ _ _).
Qed.

(** ** Fresh boards *)

Lemma elem_of_positions g p :
  p ∈ Grid.positions g ↔
  0 ≤ px p < Grid.size g ∧ 0 ≤ py p < Grid.size g.
Proof.
  unfold Grid.positions. rewrite list_elem_of_bind. split.
  - intros (x & Hp & Hx). apply list_elem_of_bind in Hp as (y & Hp & Hy).
    apply list_elem_of_singleton in Hp as ->. simpl.
    now rewrite <- !elem_of_range.
  - intros [Hx Hy]. exists (px p). rewrite elem_of_range. split; [|assumption].
    apply list_elem_of_bind. exists (py p). rewrite elem_of_range.
    split; [|assumption]. destruct p. now apply list_elem_of_singleton.
Qed.

Lemma randomAvailableCell_Some pick g :
  Grid.cellsAvailable g = true →
  ∃ cell, Grid.randomAvailableCell pick g = Some cell ∧
          0 ≤ px cell < Grid.size g ∧ 0 ≤ py cell < Grid.size g ∧
          Grid.cellContent g cell = None.
Proof.
  unfold Grid.cellsAvailable, Grid.randomAvailableCell. intros Hfree.
  apply bool_decide_eq_true in Hfree.
  destruct (lookup_lt_is_Some_2 (Grid.availableCells g)
              (pick `mod` length (Grid.availableCells g))%nat) as [cell Hcell].
  { apply Nat.mod_upper_bound. destruct (Grid.availableCells g); simpl; congruence. }
  exists cell. split; [assumption|].
  apply list_elem_of_lookup_2 in Hcell.
  apply list_elem_of_filter in Hcell as [Hnone Hpos].
  apply elem_of_positions in Hpos. tauto.
Qed.

Lemma store_length {A} (hole : A) l i v :
  0 ≤ i < Z.of_nat (length l) → length (Grid.store hole l i v) = length l.
Proof.
  intros Hi. unfold Grid.store.
  destruct (Z.ltb_spec i 0); [lia|].
  destruct (Z.ltb_spec i (Z.of_nat (length l))); [|lia].
  apply length_insert.
Qed.

Lemma setCell_Square n g x y v :
  Square n g → 0 ≤ x < n → 0 ≤ y < n →
  ∃ cs, Grid.setCell (Grid.cells g) x y v = Normal cs ∧
        Square n (Grid.mk (Grid.size g) cs).
Proof.
  intros (Hn & Hlen & Hcols) Hx Hy. unfold Grid.setCell.
  destruct (Z.ltb_spec x 0); [lia|].
  destruct (lookup_lt_is_Some_2 (Grid.cells g) (Z.to_nat x)) as [col Hcol]; [lia|].
  rewrite Hcol. eexists. split; [reflexivity|].
  repeat split; simpl; [assumption | now rewrite length_insert |].
  apply Forall_insert; [assumption|].
  rewrite store_length; [|].
  - eapply Forall_lookup_1 in Hcols; eauto.
  - eapply Forall_lookup_1 in Hcols; eauto. simpl in Hcols. lia.
Qed.

Lemma empty_Square n : Square n (Grid.empty n).
Proof.
  unfold Grid.empty. repeat split; simpl.
  - apply length_replicate.
  - apply Forall_replicate. apply length_replicate.
Qed.

Lemma addRandomTile_Square n rnd this :
  Square n (Game.grid this) →
  ∃ this', Game.addRandomTile rnd this = Normal this' ∧
           Square n (Game.grid this').
Proof.
  intros Hsq. unfold Game.addRandomTile.
  destruct (Grid.cellsAvailable (Game.grid this)) eqn:Hfree; [|eauto].
  destruct (randomAvailableCell_Some (Game.pick rnd) _ Hfree)
    as (cell & -> & Hx & Hy & _).
  assert (Hn : Grid.size (Game.grid this) = n) by apply Hsq.
  unfold Grid.insertTile. simpl.
  destruct (setCell_Square n (Game.grid this) (px cell) (py cell)
              (Some (Tile.new cell (if Game.small rnd then 2 else 4))))
    as (cs & -> & Hsq'); [assumption | lia | lia |].
  simpl. eauto.
Qed.


Lemma addRandomTile_frame rnd this this' :
  Game.addRandomTile rnd this = Normal this' →
  this' = Game.setGrid (Game.grid this') this.
Proof.
  unfold Game.addRandomTile. intros H.
  destruct (Grid.cellsAvailable _).
  - destruct (Grid.randomAvailableCell _ _); [|discriminate].
    inv_bind H. now inversion H.
  - inversion H. now destruct this'.
Qed.

Lemma addStartTiles_frame rnd this this' :
  Game.addStartTiles rnd this = Normal this' →
  this' = Game.setGrid (Game.grid this') this.
Proof.
  unfold Game.addStartTiles.
  apply (forEach_invariant (λ s, s = Game.setGrid (Game.grid s) this)).
  - intros i s s' Hs H. apply addRandomTile_frame in H.
    rewrite H, Hs. reflexivity.
  - now destruct this.
Qed.

(** ** Persistence on [draw] *)


(** ** The termination check *)

Lemma cellsAvailable_spec g : Grid.cellsAvailable g = true ↔ EmptyCell g.
Proof.
  unfold Grid.cellsAvailable, EmptyCell, Grid.availableCells.
  rewrite bool_decide_eq_true. split.
  - intros Hne.
    destruct (filter _ (Grid.positions g)) as [|p l] eqn:Hf; [congruence|].
    assert (Hp : p ∈ filter (λ p, Grid.cellContent g p = None) (Grid.positions g))
      by (rewrite Hf; left).
    apply list_elem_of_filter in Hp as [Hnone Hp].
    apply elem_of_positions in Hp. exists p. split; [|assumption].
    unfold Grid.withinBounds.
    repeat (apply andb_true_intro; split); lia.
  - intros (p & Hin & Hnone) Hnil.
    assert (Hp : p ∈ filter (λ p, Grid.cellContent g p = None) (Grid.positions g)).
    { apply list_elem_of_filter. split; [assumption|].
      apply elem_of_positions. unfold Grid.withinBounds in Hin.
      rewrite !andb_true_iff in Hin. lia. }
    rewrite Hnil in Hp. now apply elem_of_nil in Hp.
Qed.

(** With the loop bound undefined the scan visits no cell. *)
Lemma tileMatchesAvailable_false this : Game.tileMatchesAvailable this = false.
Proof. reflexivity. Qed.

(** What [movesAvailable()] computes: whether a cell is empty. *)
Lemma movesAvailable_is_cellsAvailable this :
  Game.movesAvailable this = Grid.cellsAvailable (Game.grid this).
Proof.
  unfold Game.movesAvailable. rewrite tileMatchesAvailable_false.
  apply orb_false_r.
Qed.

Lemma getVector_Some direction vector :
  Game.getVector direction = Some vector ↔
  (direction = 0 ∧ vector = mkPos 0 (-1)) ∨
  (direction = 1 ∧ vector = mkPos 1 0) ∨
  (direction = 2 ∧ vector = mkPos 0 1) ∨
  (direction = 3 ∧ vector = mkPos (-1) 0).
Proof.
  unfold Game.getVector. split.
  - destruct (Z.eqb_spec direction 0), (Z.eqb_spec direction 1),
      (Z.eqb_spec direction 2), (Z.eqb_spec direction 3);
      intros H; inversion H; subst; auto 10.
  - intros [[-> ->]|[[-> ->]|[[-> ->]|[-> ->]]]]; reflexivity.
Qed.

(** The scan itself is right: bounded by the board's size, it finds exactly
    the boards with two equal neighbours. *)
Lemma tileMatchesAvailable_upto_size this :
  Game.tileMatchesAvailable_upto (Some (Grid.size (Game.grid this))) this = true
  ↔ MatchOnBoard (Game.grid this).
Proof.
  unfold Game.tileMatchesAvailable_upto, MatchOnBoard, Game.upto.
  rewrite existsb_exists. split.
  - intros (x & _ & H). apply existsb_exists in H as (y & _ & H).
    destruct (Grid.cellContent _ (mkPos x y)) as [tile|] eqn:Htile; [|discriminate].
    apply existsb_exists in H as (direction & _ & H).
    destruct (Game.getVector direction) as [vector|] eqn:Hv; [|discriminate].
    destruct (Grid.cellContent _ (mkPos (x + _) (y + _))) as [other|] eqn:Hother;
      [|discriminate].
    apply Z.eqb_eq in H.
    exists (mkPos x y), (mkPos (x + px vector) (y + py vector)), tile, other.
    split; [|tauto].
    apply getVector_Some in Hv.
    unfold Adjacent; simpl.
    destruct Hv as [[_ ->]|[[_ ->]|[[_ ->]|[_ ->]]]]; simpl; lia.
  - intros (p & q & tile & other & Hadj & Htile & Hother & Hval).
    assert (Hin : 0 ≤ px p < Grid.size (Game.grid this)
                  ∧ 0 ≤ py p < Grid.size (Game.grid this)).
    { unfold Grid.cellContent, Grid.withinBounds in Htile.
      destruct (_ && _) eqn:Hb in Htile; [|discriminate].
      rewrite !andb_true_iff in Hb. lia. }
    exists (px p). split; [apply list_elem_of_In, elem_of_range; tauto|].
    apply existsb_exists. exists (py p).
    split; [apply list_elem_of_In, elem_of_range; tauto|].
    destruct p as [x y], q as [x' y']; cbn [px py] in *. rewrite Htile.
    apply existsb_exists.
    assert (Hd : ∃ direction vector,
               0 ≤ direction < 4 ∧ Game.getVector direction = Some vector ∧
               x' = x + px vector ∧ y' = y + py vector).
    { unfold Adjacent in Hadj; cbn [px py] in Hadj.
      destruct Hadj as [[-> [->| ->]]|[-> [->| ->]]].
      - exists 0, (mkPos 0 (-1)). simpl. repeat split; lia.
      - exists 2, (mkPos 0 1). simpl. repeat split; lia.
      - exists 3, (mkPos (-1) 0). simpl. repeat split; lia.
      - exists 1, (mkPos 1 0). simpl. repeat split; lia. }
    destruct Hd as (direction & vector & Hd & Hv & -> & ->).
    exists direction. split; [apply list_elem_of_In, elem_of_range; lia|].
    rewrite Hv, Hother. now apply Z.eqb_eq.
Qed.

(** C1, at the failing input.  On a full board whose first column holds two
    neighbouring 2s a tile has an equal orthogonal neighbour, the scan
    bounded by the board's size reports it, and [movesAvailable()] returns
    false. *)
Theorem movesAvailable_misses_equal_neighbours :
  MatchOnBoard (Game.grid (session fullBoard)) ∧
  Game.tileMatchesAvailable_upto (Some 4) (session fullBoard) = true ∧
  Game.movesAvailable (session fullBoard) = false.
Proof.
  split; [|split; vm_compute; reflexivity].
  exists (mkPos 0 0), (mkPos 0 1), (Tile.new (mkPos 0 0) 2), (Tile.new (mkPos 0 1) 2).
  unfold Adjacent. simpl. repeat split; try reflexivity. left. lia.
Qed.

(** What a board-changing move does to [over]: it sets the flag exactly when
    the board is full after the spawn. *)
Lemma move_changed_board rnd direction vector this moved1 spawned :
  Game.isGameTerminated this = false →
  Game.getVector direction = Some vector →
  Game.traverse vector
    (Game.buildTraversals vector (Game.size (Game.render this)))
    (Game.prepareTiles this, false) = Normal (moved1, true) →
  Game.addRandomTile rnd moved1 = Normal spawned →
  Game.move rnd direction this
  = Normal
      (Game.draw
         (if Grid.cellsAvailable (Game.grid spawned) then spawned
          else Game.setOver true spawned)).
Proof.
  intros Hterm Hv Htr Hspawn. unfold Game.move.
  rewrite Hterm, Hv, Htr. simpl. rewrite Hspawn. simpl.
  rewrite movesAvailable_is_cellsAvailable.
  now destruct (Grid.cellsAvailable _).
Qed.

(** C2, at the failing input.  Moving left on the shifted board slides the
    last row; the tile spawned in the one free cell fills the board, the two
    2s of the first column are still neighbours, and [over] is set. *)
Theorem move_sets_over_despite_equal_neighbours :
  ∃ this',
    Game.move (Game.mkSpawn true 0) 3 (session shiftedBoard) = Normal this' ∧
    Grid.cellContent (Game.grid this') (mkPos 0 3)
    = Some (Tile.mk 0 3 4 (Some (mkPos 1 3)) None) ∧
    MatchOnBoard (Game.grid this') ∧
    Game.over this' = true.
Proof.
  eexists. split; [vm_compute; reflexivity|].
  split; [reflexivity|]. split; [|reflexivity].
  exists (mkPos 0 0), (mkPos 0 1).
  eexists. eexists. unfold Adjacent.
  split; [simpl; left; lia|].
  repeat split; reflexivity.
Qed.

(** ** The [keepPlaying] operation *)

Lemma setup_keepPlaying rnd this this' :
  Game.setup rnd this = Normal this' →
  Game.keepPlaying this'
  = match Game.gameState (Game.storage this) with
    | Some previousState => Game.Stored.keepPlaying previousState
    | None => Game.Flag false
    end.
Proof.
  unfold Game.setup, Game.storage_getGameState. intros H. inv_bind H.
  inversion H; subst this'; clear H.
  destruct (draw_frame r) as (_ & _ & _ & _ & -> & _).
  destruct (Game.gameState _) as [previousState|].
  - now inversion Hr.
  - apply addStartTiles_frame in Hr. now rewrite Hr.
Qed.

(** After [setup()] the name [keepPlaying] holds a boolean, whenever the
    stored state, if any, has the wire shape; calling it throws. *)
Lemma call_keepPlaying_after_setup rnd this this' :
  (∀ previousState,
     Game.gameState (Game.storage this) = Some previousState →
     ∃ b, Game.Stored.keepPlaying previousState = Game.Flag b) →
  Game.setup rnd this = Normal this' →
  Game.call_keepPlaying this' = TypeError.
Proof.
  intros Hwire Hsetup. apply setup_keepPlaying in Hsetup.
  unfold Game.call_keepPlaying. rewrite Hsetup.
  destruct (Game.gameState _) as [previousState|]; [|reflexivity].
  destruct (Hwire previousState eq_refl) as [b ->]. reflexivity.
Qed.

(** The method does latch the flag on an instance whose name [keepPlaying]
    still resolves to it. *)
Lemma keepPlaying_body_latches this :
  Game.isGameTerminated (Game.keepPlaying_body this) = Game.over this ∧
  Game.won (Game.keepPlaying_body this) = Game.won this.
Proof.
  unfold Game.isGameTerminated. simpl.
  now rewrite andb_false_r, orb_false_r.
Qed.

(** The manager's broadcast throws at the first game that was set up. *)
Lemma manager_keepPlaying_throws g games controlIndex b :
  Game.keepPlaying g = Game.Flag b →
  GameManager.keepPlaying (GameManager.mk (g :: games) controlIndex) = TypeError.
Proof.
  intros Hflag. unfold GameManager.keepPlaying, Game.call_keepPlaying. simpl.
  now rewrite Hflag.
Qed.

(** C3, at the failing input.  A session created over an empty storage is
    set up with a fresh board; the call [keepPlaying()] on it throws, so no
    flag is latched. *)
Theorem keepPlaying_throws_on_fresh_session :
  ∃ this,
    Game.new (λ i, Game.mkSpawn true (Z.to_nat i)) (Game.mkRender 4 [])
      (Game.mkStorage None 0 []) 2 = Normal this ∧
    Game.keepPlaying this = Game.Flag false ∧
    Game.call_keepPlaying this = TypeError.
Proof.
  eexists. split; [vm_compute; reflexivity|].
  split; reflexivity.
Qed.

(** ** Writing cells *)

Lemma store_lookup (col : list (option Tile.t)) y v (j : nat) :
  mjoin (Grid.store None col y v !! j)
  = if Z.of_nat j =? y then v else mjoin (col !! j).
Proof.
  unfold Grid.store.
  destruct (Z.ltb_spec y 0) as [Hneg|Hpos].
  { destruct (Z.eqb_spec (Z.of_nat j) y); [lia | reflexivity]. }
  destruct (Z.ltb_spec y (Z.of_nat (length col))) as [Hin|Hout].
  - destruct (Z.eqb_spec (Z.of_nat j) y) as [<-|Hne].
    + rewrite Nat2Z.id, list_lookup_insert_eq by lia. reflexivity.
    + rewrite list_lookup_insert_ne by lia. reflexivity.
  - destruct (Nat.lt_ge_cases j (length col)) as [Hj|Hj].
    { rewrite lookup_app_l by assumption.
      destruct (Z.eqb_spec (Z.of_nat j) y); [lia | reflexivity]. }
    rewrite lookup_app_r by assumption.
    rewrite (lookup_ge_None_2 col j) by assumption.
    set (gap := (Z.to_nat y - length col)%nat).
    destruct (Nat.lt_ge_cases (j - length col) gap) as [Hgap|Hgap].
    { rewrite lookup_app_l by (now rewrite length_replicate).
      rewrite lookup_replicate_2 by assumption.
      destruct (Z.eqb_spec (Z.of_nat j) y); [lia | reflexivity]. }
    rewrite lookup_app_r by (now rewrite length_replicate).
    rewrite length_replicate.
    destruct (Z.eqb_spec (Z.of_nat j) y) as [Heq|Hne].
    + replace (j - length col - gap)%nat with 0%nat by lia. reflexivity.
    + destruct (j - length col - gap)%nat as [|m] eqn:Hm; [lia|reflexivity].
Qed.

Lemma at_setCell cs x y v cs' :
  Grid.setCell cs x y v = Normal cs' →
  ∀ x' y', Grid.at_ cs' x' y' = if hit x y x' y' then v else Grid.at_ cs x' y'.
Proof.
  unfold Grid.setCell. destruct (Z.ltb_spec x 0) as [?|Hx]; [discriminate|].
  destruct (cs !! Z.to_nat x) as [col|] eqn:Hcol; [|discriminate].
  intros H x' y'. inversion H; subst cs'; clear H.
  unfold Grid.at_, hit.
  destruct (Z.leb_spec 0 x') as [Hx'|Hx']; simpl.
  2:{ destruct (Z.eqb_spec x' x); [lia | reflexivity]. }
  destruct (Z.leb_spec 0 y') as [Hy'|Hy']; simpl.
  2:{ destruct (Z.eqb_spec x' x), (Z.eqb_spec y' y), (Z.leb_spec 0 y);
        simpl; try reflexivity; lia. }
  destruct (Z.eqb_spec x' x) as [->|Hne]; simpl.
  - rewrite list_lookup_insert_eq by (now apply lookup_lt_Some in Hcol).
    rewrite Hcol. simpl. rewrite store_lookup, Z2Nat.id by assumption.
    destruct (Z.eqb_spec y' y) as [->|?]; simpl; [|reflexivity].
    destruct (Z.leb_spec 0 y); [reflexivity | lia].
  - rewrite list_lookup_insert_ne by lia. reflexivity.
Qed.

Lemma setCell_AllTiles P g x y v cs' :
  AllTiles P g → (∀ tile, v = Some tile → P tile) →
  Grid.setCell (Grid.cells g) x y v = Normal cs' →
  AllTiles P (Grid.mk (Grid.size g) cs').
Proof.
  intros Hall Hv Hset x' y' tile. simpl.
  rewrite (at_setCell _ _ _ _ _ Hset). destruct (hit x y x' y'); eauto.
Qed.

Lemma cellContent_at g p tile :
  Grid.cellContent g p = Some tile →
  Grid.withinBounds g p = true ∧ Grid.at_ (Grid.cells g) (px p) (py p) = Some tile.
Proof.
  unfold Grid.cellContent. destruct (Grid.withinBounds g p); [tauto|discriminate].
Qed.

Lemma withinBounds_spec g p :
  Grid.withinBounds g p = true ↔
  0 ≤ px p < Grid.size g ∧ 0 ≤ py p < Grid.size g.
Proof. unfold Grid.withinBounds. rewrite !andb_true_iff. lia. Qed.

(** ** The farthest-position search *)

Lemma along_step cell vector k :
  along (mkPos (px cell + px vector) (py cell + py vector)) vector k
  = along cell vector (k + 1).
Proof. unfold along; simpl. f_equal; lia. Qed.

(** The loop stops at the first cell, at least one step away, that is out of
    bounds or occupied; [farthest] is the cell just before it. *)
Lemma findFarthestPosition_loop_spec fuel g cell vector positions :
  Game.findFarthestPosition_loop fuel g cell vector = Normal positions →
  ∃ k, 1 ≤ k ∧
       Game.farthest positions = along cell vector (k - 1) ∧
       Game.next positions = along cell vector k ∧
       Grid.withinBounds g (Game.next positions)
         && Grid.cellAvailable g (Game.next positions) = false ∧
       ∀ j, 1 ≤ j < k →
            Grid.withinBounds g (along cell vector j)
              && Grid.cellAvailable g (along cell vector j) = true.
Proof.
  revert cell. induction fuel as [|fuel IH]; simpl; intros cell H; [discriminate|].
  set (cell' := mkPos (px cell + px vector) (py cell + py vector)) in *.
  destruct (Grid.withinBounds g cell' && Grid.cellAvailable g cell') eqn:Hgo.
  - destruct (IH _ H) as (k & Hk & Hf & Hn & Hstop & Hfree).
    unfold cell' in Hf, Hn, Hfree. rewrite along_step in Hf, Hn.
    exists (k + 1). split; [lia|].
    split; [now replace (k + 1 - 1) with (k - 1 + 1) by lia|].
    split; [assumption|]. split; [assumption|].
    intros j Hj. destruct (Z.eq_dec j 1) as [->|Hne].
    + replace (along cell vector 1) with cell'; [assumption|].
      unfold along, cell'. f_equal; lia.
    + specialize (Hfree (j - 1)). rewrite along_step in Hfree.
      replace (j - 1 + 1) with j in Hfree by lia. apply Hfree. lia.
  - inversion H; subst positions; clear H. simpl.
    exists 1. split; [lia|].
    split; [unfold along; destruct cell; simpl; f_equal; lia|].
    split; [unfold along, cell'; f_equal; lia|].
    split; [assumption|]. intros j Hj. lia.
Qed.

Lemma findFarthestPosition_loop_returns direction vector g :
  Game.getVector direction = Some vector →
  ∀ fuel cell,
    (1 ≤ fuel)%nat →
    (Grid.withinBounds g (along cell vector 1) = true →
     room g (along cell vector 1) vector + 2 ≤ Z.of_nat fuel) →
    ∃ positions,
      Game.findFarthestPosition_loop fuel g cell vector = Normal positions.
Proof.
  intros Hv. apply getVector_Some in Hv.
  induction fuel as [|fuel IH]; intros cell Hfuel Hroom; [lia|].
  cbn [Game.findFarthestPosition_loop].
  replace (mkPos (px cell + px vector) (py cell + py vector))
    with (along cell vector 1) by (unfold along; f_equal; lia).
  destruct (Grid.withinBounds g (along cell vector 1)) eqn:Hin; simpl; [|eauto].
  destruct (Grid.cellAvailable g (along cell vector 1)); [|eauto].
  specialize (Hroom eq_refl). apply withinBounds_spec in Hin.
  apply IH.
  - unfold room, along in *.
    destruct Hv as [[_ ->]|[[_ ->]|[[_ ->]|[_ ->]]]]; simpl in *; lia.
  - intros Hin'. apply withinBounds_spec in Hin'.
    unfold room, along in *.
    destruct Hv as [[_ ->]|[[_ ->]|[[_ ->]|[_ ->]]]]; simpl in *; lia.
Qed.

(** [findFarthestPosition] returns, whatever the board and the cell. *)
Lemma findFarthestPosition_returns direction vector this cell :
  Game.getVector direction = Some vector →
  ∃ positions, Game.findFarthestPosition this cell vector = Normal positions.
Proof.
  intros Hv. unfold Game.findFarthestPosition.
  eapply findFarthestPosition_loop_returns; [eassumption | lia |].
  intros Hin. apply withinBounds_spec in Hin.
  pose proof Hv as Hv'. apply getVector_Some in Hv'.
  unfold room, along in *.
  destruct Hv' as [[_ ->]|[[_ ->]|[[_ ->]|[_ ->]]]]; simpl in *; lia.
Qed.

(** ** One visit of the traversal *)

Lemma moveTile_spec tile cell this tile' this' :
  Game.moveTile tile cell this = Normal (tile', this') →
  tile' = Tile.updatePosition tile cell ∧
  this' = Game.setGrid (Game.grid this') this ∧
  Grid.size (Game.grid this') = Grid.size (Game.grid this) ∧
  ∀ x y, Grid.at_ (Grid.cells (Game.grid this')) x y
         = if hit (px cell) (py cell) x y then Some tile'
           else if hit (Tile.x tile) (Tile.y tile) x y then None
           else Grid.at_ (Grid.cells (Game.grid this)) x y.
Proof.
  unfold Game.moveTile. intros H. inv_bind H. inv_bind H.
  inversion H; subst tile' this'; clear H. simpl.
  repeat split; try reflexivity.
  intros x y. rewrite (at_setCell _ _ _ _ _ Hr0), (at_setCell _ _ _ _ _ Hr).
  reflexivity.
Qed.

Lemma merge_spec tile next positions this tile' this' :
  Game.merge tile next positions this = Normal (tile', this') →
  tile' = Tile.updatePosition tile (Game.next positions) ∧
  sameOutside this' this ∧
  Game.score this' = Game.score this + Tile.value tile * 2 ∧
  Game.won this'
  = (if Tile.value tile * 2 =? 2048 then true else Game.won this) ∧
  ∀ x y, Grid.at_ (Grid.cells (Game.grid this')) x y
         = if hit (Tile.x tile) (Tile.y tile) x y then None
           else if hit (px (Game.next positions)) (py (Game.next positions)) x y
           then Some (mergedTile tile next positions)
           else Grid.at_ (Grid.cells (Game.grid this)) x y.
Proof.
  unfold Game.merge, Grid.insertTile, Grid.removeTile. intros H.
  inv_bind H. inv_bind Hr. inversion Hr; subst r; clear Hr.
  inv_bind H. inv_bind Hr. inversion Hr; subst r; clear Hr.
  simpl in *.
  destruct (Tile.value tile * 2 =? 2048);
    inversion H; subst tile' this'; clear H; simpl;
    (split; [reflexivity|]); (split; [repeat split; reflexivity|]);
    (split; [reflexivity|]); (split; [reflexivity|]);
    intros x y; rewrite (at_setCell _ _ _ _ _ Hr1), (at_setCell _ _ _ _ _ Hr0);
    reflexivity.
Qed.

Lemma visit_cases vector x y this moved this' moved' :
  Game.visit vector x y (this, moved) = Normal (this', moved') →
  (Grid.cellContent (Game.grid this) (mkPos x y) = None ∧
   this' = this ∧ moved' = moved) ∨
  (∃ tile next positions tile',
     Merges vector x y this tile next positions ∧
     Game.merge tile next positions this = Normal (tile', this') ∧
     moved' = if negb (Game.positionsEqual (mkPos x y) tile') then true
              else moved) ∨
  (∃ tile positions tile',
     Grid.cellContent (Game.grid this) (mkPos x y) = Some tile ∧
     Game.findFarthestPosition this (mkPos x y) vector = Normal positions ∧
     (∀ next, ¬ Merges vector x y this tile next positions) ∧
     Game.moveTile tile (Game.farthest positions) this = Normal (tile', this') ∧
     moved' = if negb (Game.positionsEqual (mkPos x y) tile') then true
              else moved).
Proof.
  unfold Game.visit. intros H.
  destruct (Grid.cellContent (Game.grid this) (mkPos x y)) as [tile|] eqn:Htile.
  2:{ left. inversion H. tauto. }
  right. inv_bind H. rename r into positions. inv_bind H.
  destruct r as [tile' this1]. inversion H; subst this1 moved'; clear H.
  destruct (Grid.cellContent (Game.grid this) (Game.next positions))
    as [next|] eqn:Hnext.
  - destruct ((Tile.value next =? Tile.value tile)
              && negb (bool_decide (is_Some (Tile.mergedFrom next)))) eqn:Hm.
    + left. exists tile, next, positions, tile'.
      apply andb_true_iff in Hm as [Hval Hprov].
      apply Z.eqb_eq in Hval. apply negb_true_iff, bool_decide_eq_false in Hprov.
      repeat split; try assumption.
      destruct (Tile.mergedFrom next); [|reflexivity].
      exfalso. apply Hprov. eauto.
    + right. exists tile, positions, tile'. repeat split; try assumption.
      intros next' (_ & _ & Hnext' & Hval & Hprov).
      rewrite Hnext in Hnext'. inversion Hnext'; subst next'.
      apply andb_false_iff in Hm as [Hm|Hm].
      * apply Z.eqb_neq in Hm. contradiction.
      * apply negb_false_iff, bool_decide_eq_true in Hm.
        rewrite Hprov in Hm. now destruct Hm.
  - right. exists tile, positions, tile'. repeat split; try assumption.
    intros next' (_ & _ & Hnext' & _). congruence.
Qed.

Lemma sameOutside_refl this : sameOutside this this.
Proof. repeat split. Qed.

Lemma sameOutside_trans a b c : sameOutside a b → sameOutside b c → sameOutside a c.
Proof.
  unfold sameOutside. intros (? & ? & ? & ? & ? & ?) (? & ? & ? & ? & ? & ?).
  repeat split; congruence.
Qed.

Lemma visit_frame vector x y this moved this' moved' :
  Game.visit vector x y (this, moved) = Normal (this', moved') →
  sameOutside this' this.
Proof.
  intros H. apply visit_cases in H as [(_ & -> & _)|[H|H]].
  - apply sameOutside_refl.
  - destruct H as (tile & next & positions & tile' & _ & H & _).
    now apply merge_spec in H.
  - destruct H as (tile & positions & tile' & _ & _ & _ & H & _).
    apply moveTile_spec in H as (_ & H & Hsize & _).
    rewrite H. repeat split; try reflexivity. simpl. exact Hsize.
Qed.

Lemma traverse_frame vector traversals this moved this' moved' :
  Game.traverse vector traversals (this, moved) = Normal (this', moved') →
  sameOutside this' this.
Proof.
  unfold Game.traverse. intros H.
  apply (forEach_invariant (λ st, sameOutside (fst st) this)) in H;
    [exact H | | apply sameOutside_refl].
  intros x st st' Hst Hx.
  apply (forEach_invariant (λ st, sameOutside (fst st) this)) in Hx;
    [exact Hx | | exact Hst].
  intros y [s m] [s' m'] Hs Hy. simpl in *.
  eapply sameOutside_trans; [|exact Hs]. eapply visit_frame; eassumption.
Qed.

(** ** The score *)

Lemma visit_merge vector x y this moved this' moved' tile next positions :
  Merges vector x y this tile next positions →
  Game.visit vector x y (this, moved) = Normal (this', moved') →
  ∃ tile', Game.merge tile next positions this = Normal (tile', this') ∧
           moved' = if negb (Game.positionsEqual (mkPos x y) tile') then true
                    else moved.
Proof.
  intros (Htile & Hpos & Hnext & Hval & Hprov) H.
  apply visit_cases in H as [(Hnone & _)|[H|H]]; [congruence | |].
  - destruct H as (tile0 & next0 & positions0 & tile' & Hm & H & Hmoved).
    destruct Hm as (Htile0 & Hpos0 & Hnext0 & _).
    assert (tile0 = tile) by congruence. subst tile0.
    assert (positions0 = positions) by congruence. subst positions0.
    assert (next0 = next) by congruence. subst next0. eauto.
  - destruct H as (tile0 & positions0 & _ & Htile0 & Hpos0 & Hno & _).
    assert (tile0 = tile) by congruence. subst tile0.
    assert (positions0 = positions) by congruence. subst positions0.
    exfalso. apply (Hno next). repeat split; assumption.
Qed.


Lemma prepareTiles_at this x y :
  Grid.at_ (Grid.cells (Game.grid (Game.prepareTiles this))) x y
  = (λ tile, Tile.savePosition (Tile.setMergedFrom tile None))
      <$> Grid.at_ (Grid.cells (Game.grid this)) x y.
Proof. unfold Game.prepareTiles, Grid.eachCell. simpl. apply at_imap. Qed.

Lemma addRandomTile_tiles P rnd this this' :
  AllTiles P (Game.grid this) →
  (∀ cell, P (Tile.new cell 2) ∧ P (Tile.new cell 4)) →
  Game.addRandomTile rnd this = Normal this' →
  AllTiles P (Game.grid this').
Proof.
  unfold Game.addRandomTile, Grid.insertTile. intros Hall Hnew H.
  destruct (Grid.cellsAvailable _); [|now inversion H; subst].
  destruct (Grid.randomAvailableCell _ _) as [cell|]; [|discriminate].
  inv_bind H. inv_bind Hr. inversion Hr; subst r; clear Hr.
  inversion H; subst this'; clear H. simpl.
  eapply setCell_AllTiles; [exact Hall | | exact Hr0].
  intros t Ht. inversion Ht; subst t. destruct (Game.small rnd); apply Hnew.
Qed.



(** ** The [moved] flag *)

(** A merge target lies at least one step from the visited cell, so the
    position the moving tile is given differs from the cell. *)
Lemma merge_target_away direction vector x y this tile next positions :
  Game.getVector direction = Some vector →
  Merges vector x y this tile next positions →
  ∃ k, 1 ≤ k ∧
       Game.next positions = along (mkPos x y) vector k ∧
       Game.positionsEqual (mkPos x y)
         (Tile.updatePosition tile (Game.next positions)) = false.
Proof.
  intros Hv (_ & Hpos & _). unfold Game.findFarthestPosition in Hpos.
  apply findFarthestPosition_loop_spec in Hpos as (k & Hk & _ & Hnext & _).
  exists k. split; [assumption|]. split; [assumption|].
  unfold Game.positionsEqual. rewrite Hnext. simpl.
  apply getVector_Some in Hv.
  apply andb_false_iff.
  destruct Hv as [[_ ->]|[[_ ->]|[[_ ->]|[_ ->]]]]; simpl;
    [right | left | right | left]; apply Z.eqb_neq; lia.
Qed.

Lemma visit_moved_sticky vector x y this this' moved' :
  Game.visit vector x y (this, true) = Normal (this', moved') → moved' = true.
Proof.
  intros H. apply visit_cases in H as [(_ & _ & ->)|[H|H]]; [reflexivity | |].
  - destruct H as (? & ? & ? & ? & _ & _ & ->). now destruct (negb _).
  - destruct H as (? & ? & ? & _ & _ & _ & _ & ->). now destruct (negb _).
Qed.

Lemma column_moved_sticky vector x ys st st' :
  snd st = true →
  forEach ys (λ y, Game.visit vector x y) st = Normal st' → snd st' = true.
Proof.
  apply (forEach_invariant (λ st, snd st = true)).
  intros y [s m] [s' m'] Hm H. simpl in *. subst m.
  eapply visit_moved_sticky; eassumption.
Qed.

Lemma column_merge_moved direction vector x ys st st' :
  Game.getVector direction = Some vector →
  During (λ y, Game.visit vector x y)
    (λ y st, ∃ tile next positions, Merges vector x y (fst st) tile next positions)
    ys st →
  forEach ys (λ y, Game.visit vector x y) st = Normal st' → snd st' = true.
Proof.
  intros Hv Hd. revert st'.
  induction Hd as [y ys [s m] (tile & next & positions & Hm)|y ys s s1 Hy Hd IH];
    intros st' H; simpl in H.
  - inv_bind H. destruct r as [s1 m1]. simpl in Hm.
    destruct (visit_merge _ _ _ _ _ _ _ _ _ _ Hm Hr) as (tile' & Hmerge & Hmoved).
    apply merge_spec in Hmerge as (-> & _).
    destruct (merge_target_away _ _ _ _ _ _ _ _ Hv Hm) as (_ & _ & _ & Hne).
    rewrite Hne in Hmoved. simpl in Hmoved. subst m1.
    eapply column_moved_sticky; [|exact H]. reflexivity.
  - rewrite Hy in H. simpl in H. now apply IH.
Qed.

(** A traversal in which a merge occurs ends with [moved] set. *)
Lemma traverse_merge_moved direction vector traversals st st' :
  Game.getVector direction = Some vector →
  MergeDuring vector traversals st →
  Game.traverse vector traversals st = Normal st' → snd st' = true.
Proof.
  unfold MergeDuring, Game.traverse. intros Hv Hd. revert st'.
  induction Hd as [x xs s Hcol|x xs s s1 Hx Hd IH]; intros st' H; simpl in H.
  - inv_bind H. rename r into s1.
    apply (column_merge_moved _ _ _ _ _ _ Hv Hcol) in Hr.
    revert H. apply (forEach_invariant (λ st, snd st = true)); [|exact Hr].
    intros x' s2 s3 Hs2. now apply column_moved_sticky.
  - rewrite Hx in H. simpl in H. now apply IH.
Qed.

Lemma draw_calls this :
  ∃ metadata,
    Game.calls (Game.render (Game.draw this))
    = Game.calls (Game.render this) ++ [Game.Draw (Game.grid this) metadata].
Proof.
  destruct this as [r s n g sc ov w k]. unfold Game.draw; simpl.
  destruct (_ <? _), ov; simpl; eauto.
Qed.

(** C10.  A merge target lies [k ≥ 1] steps from the visited cell along the
    direction vector, so the position given to the removed tile differs from
    that cell; and a move during which some visit merges ends its traversal
    with [moved] set, calls [addRandomTile] and hands the grid to the
    render's [draw]. *)
Theorem merge_marks_board_changed rnd direction vector (this : Game.t) :
  Game.isGameTerminated this = false →
  Game.getVector direction = Some vector →
  (∀ x y s tile next positions,
     Merges vector x y s tile next positions →
     ∃ k, 1 ≤ k ∧
          Game.next positions = along (mkPos x y) vector k ∧
          Game.positionsEqual (mkPos x y)
            (Tile.updatePosition tile (Game.next positions)) = false) ∧
  (MergeDuring vector
     (Game.buildTraversals vector (Game.size (Game.render this)))
     (Game.prepareTiles this, false) →
   ∀ this',
     Game.move rnd direction this = Normal this' →
     ∃ merged spawned metadata,
       Game.traverse vector
         (Game.buildTraversals vector (Game.size (Game.render this)))
         (Game.prepareTiles this, false) = Normal (merged, true) ∧
       Game.addRandomTile rnd merged = Normal spawned ∧
       Game.calls (Game.render this')
       = Game.calls (Game.render this)
           ++ [Game.Draw (Game.grid spawned) metadata]).
Proof.
  intros Hterm Hv. split.
  - intros x y s tile next positions. now apply merge_target_away with direction.
  - intros Hd this' H. unfold Game.move in H. rewrite Hterm, Hv in H.
    inv_bind H. destruct r as [merged moved].
    pose proof (traverse_merge_moved _ _ _ _ _ Hv Hd Hr) as Hmoved.
    simpl in Hmoved. subst moved.
    inv_bind H. rename r into spawned. inversion H; subst this'; clear H.
    destruct (draw_calls
      (if negb (Game.movesAvailable spawned) then Game.setOver true spawned
       else spawned)) as [metadata Hcalls].
    exists merged, spawned, metadata.
    split; [assumption|]. split; [assumption|].
    rewrite Hcalls.
    apply traverse_frame in Hr as (Hrender & _).
    apply addRandomTile_frame in Hr0.
    assert (Hsp : Game.render spawned = Game.render this).
    { rewrite Hr0. simpl. exact Hrender. }
    destruct (negb _); simpl; now rewrite Hsp.
Qed.

(** [moved] tells whether some visit merged or relocated a tile. *)
Lemma visit_moved direction vector x y this this' moved' :
  Game.getVector direction = Some vector →
  Game.visit vector x y (this, false) = Normal (this', moved') →
  moved' = true ↔
  (∃ tile next positions, Merges vector x y this tile next positions)
  ∨ Slides vector x y this.
Proof.
  intros Hv H. pose proof H as Hcases.
  apply visit_cases in Hcases as [(Hnone & _ & ->)|[Hc|Hc]].
  - split; [discriminate|].
    intros [(tile & next & positions & Htile & _)
           |(tile & positions & Htile & _)]; congruence.
  - destruct Hc as (tile & next & positions & tile' & Hm & Hmerge & ->).
    apply merge_spec in Hmerge as (-> & _).
    destruct (merge_target_away _ _ _ _ _ _ _ _ Hv Hm) as (_ & _ & _ & ->).
    split; [eauto | reflexivity].
  - destruct Hc as (tile & positions & tile' & Htile & Hpos & Hno & Hmove & ->).
    apply moveTile_spec in Hmove as (-> & _).
    assert (Heq : Game.positionsEqual (mkPos x y)
                    (Tile.updatePosition tile (Game.farthest positions)) = true
                  ↔ Game.farthest positions = mkPos x y).
    { unfold Game.positionsEqual. simpl.
      rewrite andb_true_iff, !Z.eqb_eq.
      destruct (Game.farthest positions) as [fx fy]; simpl.
      split; [intros [-> ->]; reflexivity | intros Hf; inversion Hf; tauto]. }
    destruct (Game.positionsEqual _ _) eqn:Hpe; simpl.
    + split; [discriminate|].
      intros [(tile0 & next & positions0 & Hm)
             |(tile0 & positions0 & _ & Hpos0 & _ & Hne)].
      * destruct Hm as (Htile0 & Hpos0 & Hrest). exfalso.
        assert (tile0 = tile) by congruence. subst tile0.
        assert (positions0 = positions) by congruence. subst positions0.
        apply (Hno next). repeat split; tauto.
      * assert (positions0 = positions) by congruence. subst positions0.
        exfalso. apply Hne. now apply Heq.
    + split; [|reflexivity]. intros _. right.
      exists tile, positions. repeat split; try assumption.
      intros Hf. apply Heq in Hf. discriminate.
Qed.

Lemma column_moved direction vector x ys this st' :
  Game.getVector direction = Some vector →
  forEach ys (λ y, Game.visit vector x y) (this, false) = Normal st' →
  snd st' = true ↔
  During (λ y, Game.visit vector x y)
    (λ y st,
       (∃ tile next positions, Merges vector x y (fst st) tile next positions)
       ∨ Slides vector x y (fst st))
    ys (this, false).
Proof.
  intros Hv. revert this.
  induction ys as [|y ys IH]; intros this H; simpl in H.
  - inversion H; subst st'. simpl. split; [discriminate | inversion 1].
  - inv_bind H. destruct r as [this1 moved1].
    pose proof (visit_moved _ _ _ _ _ _ _ Hv Hr) as Hvisit.
    destruct moved1.
    + split.
      * intros _. apply During_here. simpl. now apply Hvisit.
      * intros _. eapply column_moved_sticky; [|exact H]. reflexivity.
    + rewrite (IH _ H). split.
      * intros Hd. eapply During_later; eassumption.
      * intros Hd.
        inversion Hd as [a rest s HP|a rest s s1 Hbody Hrest]; subst.
        -- simpl in HP. apply Hvisit in HP. discriminate.
        -- assert (Heq : Normal s1 = Normal (this1, false))
             by (rewrite <- Hbody; exact Hr).
           now inversion Heq; subst.
Qed.

(** A traversal ends with [moved] set exactly when one of its visits merged
    or relocated a tile. *)
Lemma traverse_moved direction vector traversals this st' :
  Game.getVector direction = Some vector →
  Game.traverse vector traversals (this, false) = Normal st' →
  snd st' = true ↔ ChangeDuring vector traversals (this, false).
Proof.
  intros Hv. unfold Game.traverse, ChangeDuring.
  generalize (Game.xs traversals) as xs. intros xs. revert this.
  induction xs as [|x xs IH]; intros this H; simpl in H.
  - inversion H; subst st'. simpl. split; [discriminate | inversion 1].
  - inv_bind H. destruct r as [this1 moved1].
    pose proof (column_moved _ _ _ _ _ _ Hv Hr) as Hcol. simpl in Hcol.
    destruct moved1.
    + split.
      * intros _. apply During_here. now apply Hcol.
      * intros _. revert H.
        apply (forEach_invariant (λ st, snd st = true)); [|reflexivity].
        intros x' s2 s3 Hs2. now apply column_moved_sticky.
    + rewrite (IH _ H). split.
      * intros Hd. eapply During_later; eassumption.
      * intros Hd.
        inversion Hd as [a rest s HP|a rest s s1 Hbody Hrest]; subst.
        -- apply Hcol in HP. discriminate.
        -- assert (Heq : Normal s1 = Normal (this1, false))
             by (rewrite <- Hbody; exact Hr).
           now inversion Heq; subst.
Qed.

(** C6.  When no visit of the traversal merges or relocates a tile, every
    tile staying in the cell it was found in, the traversal ends with
    [moved] unset and the move returns the session as the traversal left it:
    no tile is spawned, [over] is not set, and neither collaborator receives
    a call. *)
Theorem unchanged_board_is_discarded rnd direction vector
    (this rested : Game.t) moved :
  Game.isGameTerminated this = false →
  Game.getVector direction = Some vector →
  ¬ ChangeDuring vector
      (Game.buildTraversals vector (Game.size (Game.render this)))
      (Game.prepareTiles this, false) →
  Game.traverse vector
    (Game.buildTraversals vector (Game.size (Game.render this)))
    (Game.prepareTiles this, false) = Normal (rested, moved) →
  moved = false ∧
  Game.move rnd direction this = Normal rested ∧
  Game.over rested = Game.over this ∧
  Game.render rested = Game.render this ∧
  Game.storage rested = Game.storage this.
Proof.
  intros Hterm Hv Hstay Htr.
  assert (Hmoved : moved = false).
  { destruct moved; [|reflexivity]. exfalso. apply Hstay.
    now apply (traverse_moved _ _ _ _ _ Hv Htr). }
  subst moved. split; [reflexivity|]. split.
  { unfold Game.move. now rewrite Hterm, Hv, Htr. }
  apply traverse_frame in Htr as (Hrender & Hstorage & _ & Hover & _).
  auto.
Qed.

(** ** The traversal order *)

Lemma range_sorted n : StronglySorted Z.lt (range n).
Proof.
  unfold range. generalize (Z.to_nat n) as len. generalize 0%nat as start.
  intros start len. revert start.
  induction len as [|len IH]; intros start; simpl; constructor; [apply IH|].
  apply Forall_forall. intros b Hb.
  apply list_elem_of_fmap in Hb as (k & -> & Hk). apply elem_of_seq in Hk. lia.
Qed.

Lemma reverse_sorted {A} (R : relation A) l :
  StronglySorted R l → StronglySorted (flip R) (reverse l).
Proof.
  induction 1 as [|a l Hl IH Ha]; [constructor|].
  rewrite reverse_cons. apply StronglySorted_app. split; [|split].
  - intros b a' Hb Ha'. apply list_elem_of_singleton in Ha' as ->.
    rewrite elem_of_reverse in Hb. unfold flip.
    rewrite Forall_forall in Ha. auto.
  - assumption.
  - repeat constructor.
Qed.

Lemma sorted_weaken {A} (R R' : relation A) l :
  (∀ a b, R a b → R' a b) → StronglySorted R l → StronglySorted R' l.
Proof.
  intros HR. induction 1 as [|a l Hl IH Ha]; constructor; [assumption|].
  eapply Forall_impl; [exact Ha | auto].
Qed.

(** The coordinates of each axis are visited farthest first. *)
Lemma traversal_order s n :
  StronglySorted (before s) (if s =? 1 then reverse (range n) else range n).
Proof.
  destruct (Z.eqb_spec s 1) as [->|Hs].
  - apply (sorted_weaken (flip Z.lt)); [|apply reverse_sorted, range_sorted].
    unfold flip, before. intros a b Hab. lia.
  - apply (sorted_weaken Z.lt); [|apply range_sorted].
    unfold before. intros a b Hab. lia.
Qed.

(** ** Merge provenance *)

Lemma during_invariant_rest {A S} (I : list A → S → Prop)
    (body : A → S → Completion S) (P : A → S → Prop) :
  (∀ a rest s s', I (a :: rest) s → body a s = Normal s' → I rest s') →
  ∀ l s, I l s → During body P l s →
         ∃ a rest s', I (a :: rest) s' ∧ P a s'.
Proof.
  intros Hstep l s HI Hd. induction Hd as [a rest s HP|a rest s s' Ha Hd IH].
  - eauto.
  - apply IH. eauto.
Qed.

(** One visit keeps the invariant, the visited row leaving the rows to come. *)
Lemma visit_provenance direction vector x xs y ys this moved this' moved' :
  Game.getVector direction = Some vector →
  ProvenanceInv vector x xs (y :: ys) (Game.grid this) →
  Game.visit vector x y (this, moved) = Normal (this', moved') →
  ProvenanceInv vector x xs ys (Game.grid this').
Proof.
  intros Hv (Hflat & Hxs & Hys & Hbx & Hby) H.
  apply StronglySorted_cons in Hby as [Hy Hby].
  apply visit_cases in H as [(_ & -> & _)|[H|H]].
  - split; [|split; [|split; [|split]]]; try assumption.
    intros y' t Hy'. apply Hys. now right.
  - destruct H as (tile & next & positions & tile' & Hm & H & _).
    destruct (merge_target_away _ _ _ _ _ _ _ _ Hv Hm) as (k & Hk & Hnext & _).
    destruct Hm as (Htile & _ & Hnx & _ & Hfresh).
    apply cellContent_at in Htile as [_ Htile].
    assert (Hft : Fresh tile) by (apply (Hys y); [left | assumption]).
    apply merge_spec in H as (_ & _ & _ & _ & Hat).
    assert (Hmerged : Flat (mergedTile tile next positions)).
    { intros a b Hab. simpl in Hab. inversion Hab; subst a b. split; assumption. }
    apply getVector_Some in Hv.
    split; [|split; [|split; [|split]]]; try assumption.
    + intros x' y' t. rewrite Hat. destruct (hit _ _ x' y'); [discriminate|].
      destruct (hit _ _ x' y'); [|apply Hflat].
      intros Ht. inversion Ht; subst t. exact Hmerged.
    + intros x' y' t Hx'. rewrite Hat. destruct (hit _ _ x' y'); [discriminate|].
      destruct (hit _ _ x' y') eqn:Hhit; [|now apply Hxs].
      exfalso. rewrite Forall_forall in Hbx. specialize (Hbx x' Hx').
      unfold hit in Hhit. rewrite !andb_true_iff, !Z.eqb_eq in Hhit.
      rewrite Hnext in Hhit. unfold before, along in *. simpl in *.
      destruct Hv as [[_ ->]|[[_ ->]|[[_ ->]|[_ ->]]]]; simpl in *; lia.
    + intros y' t Hy'. rewrite Hat. destruct (hit _ _ x y'); [discriminate|].
      destruct (hit _ _ x y') eqn:Hhit; [|apply Hys; now right].
      exfalso. rewrite Forall_forall in Hy. specialize (Hy y' Hy').
      unfold hit in Hhit. rewrite !andb_true_iff, !Z.eqb_eq in Hhit.
      rewrite Hnext in Hhit. unfold before, along in *. simpl in *.
      destruct Hv as [[_ ->]|[[_ ->]|[[_ ->]|[_ ->]]]]; simpl in *; lia.
  - destruct H as (tile & positions & tile' & Htile & _ & _ & H & _).
    apply cellContent_at in Htile as [_ Htile].
    assert (Hft : Fresh tile) by (apply (Hys y); [left | assumption]).
    apply moveTile_spec in H as (-> & _ & _ & Hat).
    split; [|split; [|split; [|split]]]; try assumption.
    + intros x' y' t. rewrite Hat. destruct (hit _ _ x' y').
      * intros Ht. inversion Ht; subst t. intros a b Hab.
        unfold Fresh in Hft. simpl in Hab. congruence.
      * destruct (hit _ _ x' y'); [discriminate | apply Hflat].
    + intros x' y' t Hx'. rewrite Hat. destruct (hit _ _ x' y').
      * intros Ht. inversion Ht; subst t. exact Hft.
      * destruct (hit _ _ x' y'); [discriminate | now apply Hxs].
    + intros y' t Hy'. rewrite Hat. destruct (hit _ _ x y').
      * intros Ht. inversion Ht; subst t. exact Hft.
      * destruct (hit _ _ x y'); [discriminate | apply Hys; now right].
Qed.

Lemma column_provenance direction vector x xs ys st st' :
  Game.getVector direction = Some vector →
  StronglySorted (before (py vector)) ys →
  TraversalInv vector (x :: xs) (Game.grid (fst st)) →
  forEach ys (λ y, Game.visit vector x y) st = Normal st' →
  TraversalInv vector xs (Game.grid (fst st')).
Proof.
  intros Hv Hys (Hflat & Hxs & Hsorted) H.
  apply StronglySorted_cons in Hsorted as [Hx Hsorted].
  apply (forEach_invariant_rest
           (λ ys st, ProvenanceInv vector x xs ys (Game.grid (fst st)))) in H.
  - destruct H as (Hflat' & Hxs' & _). split; [|split]; assumption.
  - intros y rest [s m] [s' m'] Hinv Hy. simpl in *.
    eapply visit_provenance; eassumption.
  - split; [|split; [|split; [|split]]]; try assumption.
    + intros x' y t Hx'. apply Hxs. now right.
    + intros y t _. apply Hxs. left.
Qed.

Lemma prepareTiles_Fresh this : AllTiles Fresh (Game.grid (Game.prepareTiles this)).
Proof.
  intros x y t. rewrite prepareTiles_at.
  destruct (Grid.at_ _ x y); [|discriminate].
  intros Ht. inversion Ht. reflexivity.
Qed.

Lemma Fresh_Flat tile : Fresh tile → Flat tile.
Proof. unfold Fresh, Flat. intros H a b Hab. congruence. Qed.

Lemma prepareTiles_TraversalInv vector n this :
  TraversalInv vector (Game.xs (Game.buildTraversals vector n))
    (Game.grid (Game.prepareTiles this)).
Proof.
  split; [|split].
  - intros x y t Ht. apply Fresh_Flat. eapply prepareTiles_Fresh; eassumption.
  - intros x y t _. apply prepareTiles_Fresh.
  - apply traversal_order.
Qed.

Lemma traverse_provenance direction vector n this st' :
  Game.getVector direction = Some vector →
  Game.traverse vector (Game.buildTraversals vector n)
    (Game.prepareTiles this, false) = Normal st' →
  AllTiles Flat (Game.grid (fst st')).
Proof.
  intros Hv H. unfold Game.traverse in H.
  apply (forEach_invariant_rest
           (λ xs st, TraversalInv vector xs (Game.grid (fst st)))) in H.
  - apply H.
  - intros x rest s s' Hinv Hx.
    eapply column_provenance; [exact Hv | apply traversal_order | exact Hinv | exact Hx].
  - apply prepareTiles_TraversalInv.
Qed.

Lemma no_remerge direction vector n this :
  Game.getVector direction = Some vector →
  ¬ RemergeDuring vector (Game.buildTraversals vector n)
      (Game.prepareTiles this, false).
Proof.
  intros Hv Hd. unfold RemergeDuring in Hd.
  apply (during_invariant_rest
           (λ xs st, TraversalInv vector xs (Game.grid (fst st)))) in Hd.
  - destruct Hd as (x & xs & st & (Hflat & Hxs & Hsorted) & Hd).
    apply StronglySorted_cons in Hsorted as [Hx Hsorted].
    apply (during_invariant_rest
             (λ ys st, ProvenanceInv vector x xs ys (Game.grid (fst st)))) in Hd.
    + destruct Hd as (y & ys & st1 & (_ & _ & Hys & _)
                        & tile & next & positions & Hm & Hre).
      apply Hre. destruct Hm as (Htile & _ & _ & _ & Hnext).
      apply cellContent_at in Htile as [_ Htile].
      split; [|exact Hnext]. apply (Hys y); [left | assumption].
    + intros y rest [s m] [s' m'] Hinv Hy. simpl in *.
      eapply visit_provenance; eassumption.
    + split; [|split; [|split; [|split]]]; try assumption.
      * intros x' y t Hx'. apply Hxs. now right.
      * intros y t _. apply Hxs. left.
      * apply traversal_order.
  - intros x rest s s' Hinv Hx.
    eapply column_provenance; [exact Hv | apply traversal_order | exact Hinv | exact Hx].
  - apply prepareTiles_TraversalInv.
Qed.

(** C5.  At the start of a move no tile of the board carries provenance.  A
    visit whose target carries provenance relocates the tile instead of
    merging; a visit that merges leaves the board's tiles as they were but
    for the tile it creates, which carries the provenance naming its two
    sources.  So no visit of the traversal merges a tile that carries
    provenance, as the moving tile or as the target, and after the move every
    tile that carries provenance names two tiles that carry none. *)
Theorem merged_tile_is_not_merged_again rnd direction vector (this : Game.t) :
  Game.isGameTerminated this = false →
  Game.getVector direction = Some vector →
  AllTiles Fresh (Game.grid (Game.prepareTiles this)) ∧
  (∀ x y s moved s' moved' tile positions next,
     Grid.cellContent (Game.grid s) (mkPos x y) = Some tile →
     Game.findFarthestPosition s (mkPos x y) vector = Normal positions →
     Grid.cellContent (Game.grid s) (Game.next positions) = Some next →
     Game.visit vector x y (s, moved) = Normal (s', moved') →
     (¬ Fresh next →
      ∃ tile', Game.moveTile tile (Game.farthest positions) s
               = Normal (tile', s')) ∧
     (Merges vector x y s tile next positions →
      Tile.mergedFrom (mergedTile tile next positions)
      = Some (Tile.updatePosition tile (Game.next positions), next) ∧
      ∀ x' y' t,
        Grid.at_ (Grid.cells (Game.grid s')) x' y' = Some t →
        t = mergedTile tile next positions ∨
        Grid.at_ (Grid.cells (Game.grid s)) x' y' = Some t)) ∧
  ¬ RemergeDuring vector
      (Game.buildTraversals vector (Game.size (Game.render this)))
      (Game.prepareTiles this, false) ∧
  (∀ this',
     Game.move rnd direction this = Normal this' →
     AllTiles Flat (Game.grid this')).
Proof.
  intros Hterm Hv. split; [apply prepareTiles_Fresh|].
  split; [|split; [now apply no_remerge with direction|]].
  - intros x y s moved s' moved' tile positions next Htile Hpos Hnext H. split.
    + intros Hprov.
      apply visit_cases in H as [(Hnone & _)|[H|H]]; [congruence | |].
      * destruct H as (tile0 & next0 & positions0 & _ & Hm & _).
        destruct Hm as (Htile0 & Hpos0 & Hnext0 & _ & Hfresh).
        exfalso. apply Hprov.
        assert (positions0 = positions) by congruence. subst positions0.
        assert (next0 = next) by congruence. now subst next0.
      * destruct H as (tile0 & positions0 & tile' & Htile0 & Hpos0 & _ & H & _).
        assert (tile0 = tile) by congruence. subst tile0.
        assert (positions0 = positions) by congruence. subst positions0.
        eauto.
    + intros Hm. split; [reflexivity|].
      destruct (visit_merge _ _ _ _ _ _ _ _ _ _ Hm H) as (tile' & Hmerge & _).
      apply merge_spec in Hmerge as (_ & _ & _ & _ & Hat).
      intros x' y' t. rewrite Hat.
      destruct (hit _ _ x' y'); [discriminate|].
      destruct (hit _ _ x' y'); [|tauto].
      intros Ht. inversion Ht. now left.
  - intros this' H. unfold Game.move in H. rewrite Hterm, Hv in H.
    inv_bind H. destruct r as [this1 moved].
    apply (traverse_provenance _ _ _ _ _ Hv) in Hr. simpl in Hr.
    destruct moved; [|now inversion H; subst].
    inv_bind H. rename r into this2. inversion H; subst this'; clear H.
    destruct (draw_frame
      (if negb (Game.movesAvailable this2) then Game.setOver true this2
       else this2)) as (-> & _).
    assert (Hflat : AllTiles Flat (Game.grid this2)).
    { eapply addRandomTile_tiles; [exact Hr | | exact Hr0].
      intros cell. split; apply Fresh_Flat; reflexivity. }
    now destruct (negb _).
Qed.

(** ** Moves on well-formed boards return *)

Lemma at_in_range n g x y tile :
  Square n g → Grid.at_ (Grid.cells g) x y = Some tile →
  0 ≤ x < n ∧ 0 ≤ y < n.
Proof.
  intros (_ & Hlen & Hcols). unfold Grid.at_.
  destruct (Z.leb_spec 0 x), (Z.leb_spec 0 y); simpl; try discriminate.
  destruct (Grid.cells g !! Z.to_nat x) as [col|] eqn:Hcol; [|discriminate].
  simpl. destruct (col !! Z.to_nat y) as [c|] eqn:Hc; [|discriminate].
  intros _. apply lookup_lt_Some in Hc.
  eapply Forall_lookup_1 in Hcols; [|exact Hcol]. simpl in Hcols.
  apply lookup_lt_Some in Hcol. lia.
Qed.

Lemma moveTile_returns n tile cell this :
  Square n (Game.grid this) →
  0 ≤ Tile.x tile < n → 0 ≤ Tile.y tile < n →
  0 ≤ px cell < n → 0 ≤ py cell < n →
  ∃ tile' this',
    Game.moveTile tile cell this = Normal (tile', this') ∧
    Square n (Game.grid this').
Proof.
  intros Hsq Hx Hy Hcx Hcy. unfold Game.moveTile.
  destruct (setCell_Square n (Game.grid this) (Tile.x tile) (Tile.y tile) None
              Hsq Hx Hy) as (cs1 & -> & Hsq1). simpl.
  destruct (setCell_Square n _ (px cell) (py cell)
              (Some (Tile.updatePosition tile cell)) Hsq1 Hcx Hcy)
    as (cs2 & Hcs2 & Hsq2).
  simpl in Hcs2. rewrite Hcs2. simpl. eauto.
Qed.

Lemma merge_returns n tile next positions this :
  Square n (Game.grid this) →
  0 ≤ Tile.x tile < n → 0 ≤ Tile.y tile < n →
  0 ≤ px (Game.next positions) < n → 0 ≤ py (Game.next positions) < n →
  ∃ tile' this',
    Game.merge tile next positions this = Normal (tile', this') ∧
    Square n (Game.grid this').
Proof.
  intros Hsq Hx Hy Hnx Hny. unfold Game.merge, Grid.insertTile, Grid.removeTile.
  simpl.
  destruct (setCell_Square n (Game.grid this) (px (Game.next positions))
              (py (Game.next positions))
              (Some (Tile.setMergedFrom
                       (Tile.new (Game.next positions) (Tile.value tile * 2))
                       (Some (Tile.updatePosition tile (Game.next positions),
                              next))))
              Hsq Hnx Hny) as (cs1 & -> & Hsq1). simpl.
  destruct (setCell_Square n _ (Tile.x tile) (Tile.y tile) None Hsq1 Hx Hy)
    as (cs2 & Hcs2 & Hsq2).
  simpl in Hcs2. rewrite Hcs2. simpl.
  destruct (_ =? 2048); simpl; eauto.
Qed.

Lemma visit_returns direction vector n x y this moved :
  Game.getVector direction = Some vector →
  WellFormed n (Game.grid this) →
  ∃ this' moved',
    Game.visit vector x y (this, moved) = Normal (this', moved') ∧
    WellFormed n (Game.grid this').
Proof.
  intros Hv [Hsq Hat].
  destruct (Grid.cellContent (Game.grid this) (mkPos x y)) as [tile|] eqn:Htile.
  2:{ exists this, moved. unfold Game.visit. rewrite Htile. now split. }
  destruct (findFarthestPosition_returns _ _ this (mkPos x y) Hv)
    as [positions Hpos].
  pose proof Htile as Htile'. apply cellContent_at in Htile' as [Hin Htile'].
  destruct (Hat _ _ _ Htile') as [Htx Hty]. simpl in Htx, Hty.
  pose proof (at_in_range _ _ _ _ _ Hsq Htile') as [Hx Hy]. simpl in Hx, Hy.
  assert (Hsize : Grid.size (Game.grid this) = n) by apply Hsq.
  pose proof Hpos as Hspec. unfold Game.findFarthestPosition in Hspec.
  apply findFarthestPosition_loop_spec in Hspec
    as (k & Hk & Hfar & Hnext & _ & Hfree).
  assert (Hfar_in : 0 ≤ px (Game.farthest positions) < n
                    ∧ 0 ≤ py (Game.farthest positions) < n).
  { rewrite Hfar. destruct (Z.eq_dec k 1) as [->|Hne].
    - unfold along; simpl. lia.
    - specialize (Hfree (k - 1)). rewrite andb_true_iff in Hfree.
      destruct Hfree as [Hb _]; [lia|].
      apply withinBounds_spec in Hb. lia. }
  assert (Hcases :
    ∃ tile' this',
      (match Grid.cellContent (Game.grid this) (Game.next positions) with
       | Some next =>
           if (Tile.value next =? Tile.value tile)
              && negb (bool_decide (is_Some (Tile.mergedFrom next)))
           then Game.merge tile next positions this
           else Game.moveTile tile (Game.farthest positions) this
       | None => Game.moveTile tile (Game.farthest positions) this
       end) = Normal (tile', this') ∧
      WellFormed n (Game.grid this')).
  { destruct (Grid.cellContent (Game.grid this) (Game.next positions))
      as [next|] eqn:Hnx.
    - destruct (_ && _) eqn:Hguard.
      + apply cellContent_at in Hnx as [Hnb _].
        apply withinBounds_spec in Hnb.
        destruct (merge_returns n tile next positions this) as
          (tile' & this' & Hmerge & Hsq'); try lia; [assumption|].
        exists tile', this'. split; [assumption|]. split; [assumption|].
        apply merge_spec in Hmerge as (_ & _ & _ & _ & Hat').
        intros x' y' t. rewrite Hat'.
        destruct (hit _ _ x' y'); [discriminate|].
        destruct (hit _ _ x' y') eqn:Hhit; [|apply Hat].
        intros Ht. inversion Ht; subst t. simpl.
        unfold hit in Hhit. rewrite !andb_true_iff, !Z.eqb_eq in Hhit. lia.
      + destruct (moveTile_returns n tile (Game.farthest positions) this) as
          (tile' & this' & Hmove & Hsq'); try lia; [assumption|].
        exists tile', this'. split; [assumption|]. split; [assumption|].
        apply moveTile_spec in Hmove as (-> & _ & _ & Hat').
        intros x' y' t. rewrite Hat'.
        destruct (hit _ _ x' y') eqn:Hhit.
        * intros Ht. inversion Ht; subst t. simpl.
          unfold hit in Hhit. rewrite !andb_true_iff, !Z.eqb_eq in Hhit. lia.
        * clear Hhit. destruct (hit _ _ x' y'); [discriminate | apply Hat].
    - destruct (moveTile_returns n tile (Game.farthest positions) this) as
        (tile' & this' & Hmove & Hsq'); try lia; [assumption|].
      exists tile', this'. split; [assumption|]. split; [assumption|].
      apply moveTile_spec in Hmove as (-> & _ & _ & Hat').
      intros x' y' t. rewrite Hat'.
      destruct (hit _ _ x' y') eqn:Hhit.
      + intros Ht. inversion Ht; subst t. simpl.
        unfold hit in Hhit. rewrite !andb_true_iff, !Z.eqb_eq in Hhit. lia.
      + clear Hhit. destruct (hit _ _ x' y'); [discriminate | apply Hat]. }
  destruct Hcases as (tile' & this' & Hbranch & Hwf).
  exists this', (if negb (Game.positionsEqual (mkPos x y) tile') then true
                 else moved).
  split; [|assumption].
  unfold Game.visit. rewrite Htile, Hpos. simpl. rewrite Hbranch. reflexivity.
Qed.

Lemma traverse_returns direction vector traversals n this moved :
  Game.getVector direction = Some vector →
  WellFormed n (Game.grid this) →
  ∃ this' moved',
    Game.traverse vector traversals (this, moved) = Normal (this', moved') ∧
    WellFormed n (Game.grid this').
Proof.
  intros Hv Hwf. unfold Game.traverse.
  destruct (forEach_returns (λ st, WellFormed n (Game.grid (fst st)))
              (λ x, forEach (Game.ys traversals) (λ y, Game.visit vector x y))
              (Game.xs traversals)) with (s := (this, moved))
    as ([this' moved'] & H & Hwf'); [|assumption|eauto].
  intros x st _ Hst.
  apply (forEach_returns (λ st, WellFormed n (Game.grid (fst st))));
    [|assumption].
  intros y [s m] _ Hs. simpl in Hs.
  destruct (visit_returns _ _ n x y s m Hv Hs) as (s' & m' & Hvisit & Hs').
  exists (s', m'). now split.
Qed.

Lemma prepareTiles_WellFormed n this :
  WellFormed n (Game.grid this) →
  WellFormed n (Game.grid (Game.prepareTiles this)).
Proof.
  intros [(Hn & Hlen & Hcols) Hat]. split.
  - split; [exact Hn|]. simpl. split; [now rewrite length_imap|].
    apply Forall_forall. intros col Hcol.
    apply elem_of_lookup_imap in Hcol as (i & col0 & -> & Hcol0).
    rewrite length_imap. eapply Forall_lookup_1 in Hcols; eauto.
  - intros x y t. rewrite prepareTiles_at.
    destruct (Grid.at_ _ x y) as [t0|] eqn:Ht0; [|discriminate].
    intros Ht. inversion Ht; subst t. simpl. exact (Hat _ _ _ Ht0).
Qed.

Lemma addRandomTile_WellFormed n rnd this :
  WellFormed n (Game.grid this) →
  ∃ this', Game.addRandomTile rnd this = Normal this' ∧
           WellFormed n (Game.grid this').
Proof.
  intros [Hsq Hat].
  destruct (addRandomTile_Square n rnd this Hsq) as (this' & H & Hsq').
  exists this'. split; [assumption|]. split; [assumption|].
  unfold Game.addRandomTile, Grid.insertTile in H.
  destruct (Grid.cellsAvailable _); [|now inversion H; subst].
  destruct (Grid.randomAvailableCell _ _) as [cell|]; [|discriminate].
  inv_bind H. inv_bind Hr. inversion Hr; subst r; clear Hr.
  inversion H; subst this'; clear H. simpl in *.
  intros x y t. rewrite (at_setCell _ _ _ _ _ Hr0).
  destruct (hit _ _ x y) eqn:Hhit; [|apply Hat].
  intros Ht. inversion Ht; subst t. simpl.
  unfold hit in Hhit. rewrite !andb_true_iff, !Z.eqb_eq in Hhit. lia.
Qed.

(** On a well-formed board a move in one of the four directions returns,
    and leaves the board well formed. *)
Lemma move_returns n rnd direction this :
  0 ≤ direction < 4 →
  WellFormed n (Game.grid this) →
  ∃ this', Game.move rnd direction this = Normal this' ∧
           WellFormed n (Game.grid this').
Proof.
  intros Hd Hwf. unfold Game.move.
  destruct (Game.isGameTerminated this); [eauto|].
  destruct (Game.getVector direction) as [vector|] eqn:Hv.
  2:{ unfold Game.getVector in Hv.
      destruct (Z.eqb_spec direction 0), (Z.eqb_spec direction 1),
        (Z.eqb_spec direction 2), (Z.eqb_spec direction 3);
        try discriminate; lia. }
  destruct (traverse_returns _ _
              (Game.buildTraversals vector (Game.size (Game.render this)))
              n (Game.prepareTiles this) false Hv
              (prepareTiles_WellFormed _ _ Hwf))
    as (this1 & moved & -> & Hwf1).
  simpl. destruct moved; [|eauto].
  destruct (addRandomTile_WellFormed n rnd this1 Hwf1) as (this2 & -> & Hwf2).
  simpl. eexists. split; [reflexivity|].
  destruct (draw_frame
    (if negb (Game.movesAvailable this2) then Game.setOver true this2
     else this2)) as (-> & _).
  now destruct (negb _).
Qed.

(** So does any sequence of such moves. *)
Lemma play_returns n inputs this :
  Forall (λ input : Game.Spawn * Z, 0 ≤ snd input < 4) inputs →
  WellFormed n (Game.grid this) →
  ∃ this', play inputs this = Normal this' ∧ WellFormed n (Game.grid this').
Proof.
  intros Hdirs Hwf. unfold play.
  apply (forEach_returns (λ s, WellFormed n (Game.grid s))); [|assumption].
  intros [rnd direction] s Hin Hs. rewrite Forall_forall in Hdirs.
  apply (move_returns n rnd direction s); [|assumption].
  exact (Hdirs _ Hin).
Qed.

(** The boards a fresh [setup] seeds are well formed. *)
Lemma addStartTiles_WellFormed rnd this :
  ∃ seeded,
    Game.addStartTiles rnd (Game.freshFields this) = Normal seeded ∧
    WellFormed (Game.size (Game.render this)) (Game.grid seeded).
Proof.
  unfold Game.addStartTiles.
  apply (forEach_returns
           (λ s, WellFormed (Game.size (Game.render this)) (Game.grid s))).
  - intros i s _ Hs. now apply addRandomTile_WellFormed.
  - split; [apply empty_Square|]. simpl. intros x y t.
    unfold Grid.at_. destruct (_ && _); [|discriminate].
    destruct (replicate _ _ !! Z.to_nat x) as [col|] eqn:Hcol; [|discriminate].
    apply lookup_replicate in Hcol as [-> _]. simpl.
    destruct (replicate _ _ !! Z.to_nat y) as [c|] eqn:Hc; [|discriminate].
    apply lookup_replicate in Hc as [-> _]. discriminate.
Qed.

(** ** The fuel of the model is never exhausted *)

Lemma bind_fuel {A B} (c : Completion A) (k : A → Completion B) :
  c ≠ OutOfFuel → (∀ a, k a ≠ OutOfFuel) → bind c k ≠ OutOfFuel.
Proof. destruct c; simpl; auto. Qed.

Lemma forEach_fuel {A S} (body : A → S → Completion S) l s :
  (∀ a s, body a s ≠ OutOfFuel) → forEach l body s ≠ OutOfFuel.
Proof.
  intros Hbody. revert s. induction l as [|a l IH]; simpl; intros s.
  - discriminate.
  - apply bind_fuel; auto.
Qed.

Lemma setCell_fuel cs x y v : Grid.setCell cs x y v ≠ OutOfFuel.
Proof.
  unfold Grid.setCell. destruct (x <? 0); [discriminate|].
  destruct (cs !! Z.to_nat x); discriminate.
Qed.

Lemma moveTile_fuel tile cell this : Game.moveTile tile cell this ≠ OutOfFuel.
Proof.
  unfold Game.moveTile. apply bind_fuel; [apply setCell_fuel|].
  intros cs. apply bind_fuel; [apply setCell_fuel | discriminate].
Qed.

Lemma merge_fuel tile next positions this :
  Game.merge tile next positions this ≠ OutOfFuel.
Proof.
  unfold Game.merge, Grid.insertTile, Grid.removeTile.
  apply bind_fuel.
  { apply bind_fuel; [apply setCell_fuel | discriminate]. }
  intros g. apply bind_fuel.
  { apply bind_fuel; [apply setCell_fuel | discriminate]. }
  discriminate.
Qed.

Lemma visit_fuel direction vector x y st :
  Game.getVector direction = Some vector →
  Game.visit vector x y st ≠ OutOfFuel.
Proof.
  intros Hv. destruct st as [this moved]. unfold Game.visit.
  destruct (Grid.cellContent _ _) as [tile|]; [|discriminate].
  destruct (findFarthestPosition_returns _ _ this (mkPos x y) Hv)
    as [positions ->].
  simpl. apply bind_fuel.
  - destruct (Grid.cellContent _ _) as [next|]; [|apply moveTile_fuel].
    destruct (_ && _); [apply merge_fuel | apply moveTile_fuel].
  - intros [tile' this']. discriminate.
Qed.

Lemma addRandomTile_fuel rnd this : Game.addRandomTile rnd this ≠ OutOfFuel.
Proof.
  unfold Game.addRandomTile, Grid.insertTile.
  destruct (Grid.cellsAvailable _); [|discriminate].
  destruct (Grid.randomAvailableCell _ _); [|discriminate].
  apply bind_fuel; [|discriminate].
  apply bind_fuel; [apply setCell_fuel | discriminate].
Qed.

(** Whatever the session and the direction, [move] returns or throws. *)
Lemma move_fuel rnd direction this : Game.move rnd direction this ≠ OutOfFuel.
Proof.
  unfold Game.move. destruct (Game.isGameTerminated this); [discriminate|].
  destruct (Game.getVector direction) as [vector|] eqn:Hv; [|discriminate].
  apply bind_fuel.
  - unfold Game.traverse. apply forEach_fuel. intros x st.
    apply forEach_fuel. intros y st'. now apply visit_fuel with direction.
  - intros [this' moved]. destruct moved; [|discriminate].
    apply bind_fuel; [apply addRandomTile_fuel | discriminate].
Qed.

(** So does [setup]. *)
Lemma setup_fuel rnd this : Game.setup rnd this ≠ OutOfFuel.
Proof.
  unfold Game.setup, Game.storage_getGameState.
  apply bind_fuel; [|discriminate].
  destruct (Game.gameState _); [discriminate|].
  unfold Game.addStartTiles. apply forEach_fuel.
  intros i s. apply addRandomTile_fuel.
Qed.

(** ** Moves against a wall *)

Lemma forEach_fixed {A S} (body : A → S → Completion S) l s :
  (∀ a, body a s = Normal s) → forEach l body s = Normal s.
Proof.
  intros Hbody. induction l as [|a l IH]; simpl; [reflexivity|].
  now rewrite Hbody.
Qed.

Lemma at_Some cs x y tile :
  Grid.at_ cs x y = Some tile →
  0 ≤ x ∧ 0 ≤ y ∧
  ∃ col, cs !! Z.to_nat x = Some col ∧ col !! Z.to_nat y = Some (Some tile).
Proof.
  unfold Grid.at_.
  destruct (Z.leb_spec 0 x), (Z.leb_spec 0 y); simpl; try discriminate.
  destruct (cs !! Z.to_nat x) as [col|]; [|discriminate]. simpl.
  destruct (col !! Z.to_nat y) as [[t|]|] eqn:Ht; try discriminate.
  intros Heq. inversion Heq; subst t.
  split; [assumption|]. split; [assumption|]. exists col. now split.
Qed.

(** Emptying a cell and putting its tile back leaves the matrix as it was. *)
Lemma setCell_restore cs x y tile :
  Grid.at_ cs x y = Some tile →
  ∃ cs1, Grid.setCell cs x y None = Normal cs1 ∧
         Grid.setCell cs1 x y (Some tile) = Normal cs.
Proof.
  intros Hat. apply at_Some in Hat as (Hx & Hy & col & Hcol & Htile).
  pose proof (lookup_lt_Some _ _ _ Hcol) as Hlx.
  pose proof (lookup_lt_Some _ _ _ Htile) as Hly.
  unfold Grid.setCell. destruct (Z.ltb_spec x 0); [lia|].
  rewrite Hcol. eexists. split; [reflexivity|].
  rewrite list_lookup_insert_eq by assumption.
  rewrite list_insert_insert_eq. f_equal.
  apply list_insert_id. rewrite Hcol. f_equal.
  unfold Grid.store. destruct (Z.ltb_spec y 0); [lia|].
  destruct (Z.ltb_spec y (Z.of_nat (length col))); [|lia].
  rewrite length_insert.
  destruct (Z.ltb_spec y (Z.of_nat (length col))); [|lia].
  rewrite list_insert_insert_eq. symmetry. now apply list_insert_id.
Qed.

Lemma prepareTiles_cellContent this p :
  Grid.cellContent (Game.grid (Game.prepareTiles this)) p
  = (λ tile, Tile.savePosition (Tile.setMergedFrom tile None))
      <$> Grid.cellContent (Game.grid this) p.
Proof.
  unfold Grid.cellContent.
  change (Grid.withinBounds (Game.grid (Game.prepareTiles this)) p)
    with (Grid.withinBounds (Game.grid this) p).
  destruct (Grid.withinBounds _ p); [apply prepareTiles_at | reflexivity].
Qed.

(** On a well-formed board where no tile can slide or merge, every visit
    leaves the session as it is. *)
Lemma visit_blocked vector n this x y :
  WellFormed n (Game.grid this) →
  Blocked vector (Game.grid this) →
  Game.visit vector x y (Game.prepareTiles this, false)
  = Normal (Game.prepareTiles this, false).
Proof.
  intros Hwf Hblocked.
  pose proof (prepareTiles_WellFormed _ _ Hwf) as [_ Hat0].
  set (s0 := Game.prepareTiles this) in *.
  unfold Game.visit.
  destruct (Grid.cellContent (Game.grid s0) (mkPos x y)) as [tile|] eqn:Htile;
    [|reflexivity].
  pose proof Htile as Hcell. apply cellContent_at in Hcell as [_ Hcell].
  cbn [px py] in Hcell. destruct (Hat0 _ _ _ Hcell) as [Htx Hty].
  unfold s0 in Htile. rewrite prepareTiles_cellContent in Htile.
  destruct (Grid.cellContent (Game.grid this) (mkPos x y)) as [tile0|] eqn:Htile0;
    [|discriminate].
  specialize (Hblocked _ _ Htile0).
  assert (Hnext : along (mkPos x y) vector 1
                  = mkPos (x + px vector) (y + py vector)).
  { unfold along. simpl. f_equal; lia. }
  rewrite Hnext in Hblocked.
  assert (Hpos : Game.findFarthestPosition s0 (mkPos x y) vector
                 = Normal (Game.mkPositions (mkPos x y)
                             (mkPos (x + px vector) (y + py vector)))).
  { unfold Game.findFarthestPosition. cbn [Game.findFarthestPosition_loop px py].
    unfold Grid.cellAvailable, Grid.cellOccupied.
    unfold s0. rewrite prepareTiles_cellContent.
    change (Grid.withinBounds (Game.grid (Game.prepareTiles this)))
      with (Grid.withinBounds (Game.grid this)).
    destruct (Grid.cellContent (Game.grid this) _) as [other|].
    - rewrite bool_decide_eq_true_2 by (simpl; eauto).
      now rewrite andb_false_r.
    - now rewrite Hblocked. }
  rewrite Hpos. cbn [bind Game.next Game.farthest].
  assert (Hmove : Game.moveTile tile (mkPos x y) s0 = Normal (tile, s0)).
  { unfold Game.moveTile. rewrite Htx, Hty.
    destruct (setCell_restore _ _ _ _ Hcell) as (cs1 & -> & Hback).
    cbn [bind px py].
    replace (Tile.updatePosition tile (mkPos x y)) with tile
      by (destruct tile; simpl in *; subst; reflexivity).
    rewrite Hback. reflexivity. }
  assert (Hstay : Game.positionsEqual (mkPos x y) tile = true).
  { unfold Game.positionsEqual. simpl. rewrite Htx, Hty, !Z.eqb_refl.
    reflexivity. }
  unfold s0 at 1. rewrite prepareTiles_cellContent. fold s0.
  destruct (Grid.cellContent (Game.grid this) _) as [other|]; simpl.
  - inversion Htile; subst tile. simpl.
    destruct (Z.eqb_spec (Tile.value other) (Tile.value tile0)) as [Heq|_];
      [contradiction|].
    simpl. simpl in Hmove. rewrite Hmove. simpl. simpl in Hstay.
    now rewrite Hstay.
  - rewrite Hmove. simpl. now rewrite Hstay.
Qed.

(** Such a move is discarded, whatever the direction's traversal order: the
    board keeps its tiles where they are and nothing is spawned or drawn. *)
Lemma move_blocked rnd direction vector n this :
  Game.isGameTerminated this = false →
  Game.getVector direction = Some vector →
  WellFormed n (Game.grid this) →
  Blocked vector (Game.grid this) →
  Game.move rnd direction this = Normal (Game.prepareTiles this).
Proof.
  intros Hterm Hv Hwf Hblocked. unfold Game.move. rewrite Hterm, Hv.
  unfold Game.traverse.
  rewrite forEach_fixed; [reflexivity|].
  intros x. apply forEach_fixed. intros y.
  now apply visit_blocked with n.
Qed.

(** ** The properties at sample sessions *)

Lemma at_elem_of cs x y tile :
  Grid.at_ cs x y = Some tile → ∃ col, col ∈ cs ∧ Some tile ∈ col.
Proof.
  unfold Grid.at_. destruct (_ && _); [|discriminate].
  destruct (cs !! Z.to_nat x) as [col|] eqn:Hcol; [|discriminate]. simpl.
  destruct (col !! Z.to_nat y) as [c|] eqn:Hc; [|discriminate]. simpl.
  intros ->. exists col.
  split; eapply list_elem_of_lookup_2; eassumption.
Qed.


(** Four equal tiles in a row merge pairwise: the two 4s made by a move to
    the left are not merged into an 8. *)
Example move_left_on_row :
  ∃ this',
    Game.move (Game.mkSpawn true 0) 3 (session rowBoard) = Normal this' ∧
    Tile.value <$> Grid.cellContent (Game.grid this') (mkPos 0 0) = Some 4 ∧
    Tile.value <$> Grid.cellContent (Game.grid this') (mkPos 1 0) = Some 4 ∧
    Grid.cellContent (Game.grid this') (mkPos 2 0) = None ∧
    Grid.cellContent (Game.grid this') (mkPos 3 0) = None ∧
    Game.score this' = 8.
Proof. eexists. split; [vm_compute; reflexivity|]. repeat split. Qed.

Lemma move_terminated_is_noop_witness :
  Game.over overSession = true ∧
  (∀ rnd direction, Game.move rnd direction overSession = Normal overSession) ∧
  (∀ inputs, play inputs overSession = Normal overSession).
Proof.
  split; [reflexivity|].
  apply (move_terminated_is_noop overSession). left. reflexivity.
Defined.

Lemma merged_tile_is_not_merged_again_witness :
  Game.isGameTerminated (session rowBoard) = false ∧
  Game.getVector 3 = Some (mkPos (-1) 0) ∧
  ¬ RemergeDuring (mkPos (-1) 0) (Game.buildTraversals (mkPos (-1) 0) 4)
      (Game.prepareTiles (session rowBoard), false) ∧
  (∀ this',
     Game.move (Game.mkSpawn true 0) 3 (session rowBoard) = Normal this' →
     AllTiles Flat (Game.grid this')).
Proof.
  split; [reflexivity|]. split; [reflexivity|].
  destruct (merged_tile_is_not_merged_again (Game.mkSpawn true 0) 3
              (mkPos (-1) 0) (session rowBoard) eq_refl eq_refl)
    as (_ & _ & Hno & Hflat).
  split; [exact Hno | exact Hflat].
Defined.

Lemma unchanged_board_is_discarded_witness :
  Game.isGameTerminated (session fullBoard) = false ∧
  Game.getVector 3 = Some (mkPos (-1) 0) ∧
  ¬ ChangeDuring (mkPos (-1) 0) (Game.buildTraversals (mkPos (-1) 0) 4)
      (Game.prepareTiles (session fullBoard), false) ∧
  Game.traverse (mkPos (-1) 0) (Game.buildTraversals (mkPos (-1) 0) 4)
    (Game.prepareTiles (session fullBoard), false)
  = Normal (Game.prepareTiles (session fullBoard), false) ∧
  Game.move (Game.mkSpawn true 0) 3 (session fullBoard)
  = Normal (Game.prepareTiles (session fullBoard)).
Proof.
  assert (Htr : Game.traverse (mkPos (-1) 0)
                  (Game.buildTraversals (mkPos (-1) 0) 4)
                  (Game.prepareTiles (session fullBoard), false)
                = Normal (Game.prepareTiles (session fullBoard), false))
    by (vm_compute; reflexivity).
  assert (Hstay : ¬ ChangeDuring (mkPos (-1) 0)
                      (Game.buildTraversals (mkPos (-1) 0) 4)
                      (Game.prepareTiles (session fullBoard), false)).
  { intros Hd.
    apply (traverse_moved 3 _ _ _ _ eq_refl Htr) in Hd. discriminate. }
  split; [reflexivity|]. split; [reflexivity|].
  split; [exact Hstay|]. split; [exact Htr|].
  apply (unchanged_board_is_discarded (Game.mkSpawn true 0) 3 (mkPos (-1) 0)
           (session fullBoard) (Game.prepareTiles (session fullBoard)) false
           eq_refl eq_refl Hstay Htr).
Defined.


Lemma serialize_setup_roundtrip_witness :
  ∃ this',
    Game.setup (λ _, Game.mkSpawn true 0)
      (Game.mk (Game.mkRender 4 [])
         (Game.mkStorage (Some (Game.serialize (session shiftedBoard))) 0 [])
         2 (Grid.empty 0) 0 false false Game.Method)
    = Normal this' ∧
    sameBoard (Game.grid this') (Game.grid (session shiftedBoard)) ∧
    Game.score this' = Game.score (session shiftedBoard) ∧
    Game.over this' = Game.over (session shiftedBoard) ∧
    Game.won this' = Game.won (session shiftedBoard) ∧
    Game.keepPlaying this' = Game.keepPlaying (session shiftedBoard).
Proof.
  apply (serialize_setup_roundtrip (session shiftedBoard)). reflexivity.
Defined.


Lemma merge_marks_board_changed_witness :
  Game.isGameTerminated (session rowBoard) = false ∧
  Game.getVector 3 = Some (mkPos (-1) 0) ∧
  MergeDuring (mkPos (-1) 0) (Game.buildTraversals (mkPos (-1) 0) 4)
    (Game.prepareTiles (session rowBoard), false) ∧
  ∀ this',
    Game.move (Game.mkSpawn true 0) 3 (session rowBoard) = Normal this' →
    ∃ merged spawned metadata,
      Game.traverse (mkPos (-1) 0) (Game.buildTraversals (mkPos (-1) 0) 4)
        (Game.prepareTiles (session rowBoard), false) = Normal (merged, true) ∧
      Game.addRandomTile (Game.mkSpawn true 0) merged = Normal spawned ∧
      Game.calls (Game.render this')
      = Game.calls (Game.render (session rowBoard))
          ++ [Game.Draw (Game.grid spawned) metadata].
Proof.
  split; [reflexivity|]. split; [reflexivity|].
  assert (Hd : MergeDuring (mkPos (-1) 0)
                 (Game.buildTraversals (mkPos (-1) 0) 4)
                 (Game.prepareTiles (session rowBoard), false)).
  { eapply During_later; [vm_compute; reflexivity|].
    apply During_here. apply During_here.
    eexists _, _, _. repeat split; vm_compute; reflexivity. }
  split; [exact Hd|].
  apply (merge_marks_board_changed (Game.mkSpawn true 0) 3 (mkPos (-1) 0)
           (session rowBoard) eq_refl eq_refl). exact Hd.
Defined.

(** * Further properties of the code *)

(** ** Checking well-formedness *)

Lemma forallb_id_lookup (l : list bool) :
  forallb id l = true → ∀ i b, l !! i = Some b → b = true.
Proof.
  intros H i b Hb. rewrite forallb_forall in H.
  apply (H b). apply list_elem_of_In. eapply list_elem_of_lookup_2. eassumption.
Qed.

Lemma wellFormedb_sound n g : wellFormedb n g = true → WellFormed n g.
Proof.
  unfold wellFormedb. rewrite !andb_true_iff.
  intros [[[Hn Hlen] Hcols] Hplaced].
  apply Z.eqb_eq in Hn. apply Nat.eqb_eq in Hlen.
  split.
  - split; [assumption|]. split; [assumption|].
    apply Forall_forall. intros col Hcol. rewrite forallb_forall in Hcols.
    apply Nat.eqb_eq, Hcols. now apply list_elem_of_In.
  - intros x y tile Hat.
    apply at_Some in Hat as (Hx & Hy & col & Hcol & Htile).
    unfold placedb in Hplaced.
    pose proof (forallb_id_lookup _ Hplaced (Z.to_nat x)) as Hrow.
    rewrite list_lookup_imap, Hcol in Hrow. simpl in Hrow.
    specialize (Hrow _ eq_refl).
    pose proof (forallb_id_lookup _ Hrow (Z.to_nat y)) as Hcell.
    rewrite list_lookup_imap, Htile in Hcell. simpl in Hcell.
    specialize (Hcell _ eq_refl).
    apply andb_true_iff in Hcell as [H1 H2].
    apply Z.eqb_eq in H1, H2. lia.
Qed.

(** ** The farthest-position search *)

(** X1.  For each of the four direction vectors the search returns, on any
    board and from any cell: [next] lies [k ≥ 1] steps from the cell and
    [farthest] one step before it; the cells passed on the way are inside
    the board and empty; [next] is outside the board or occupied. *)
Theorem findFarthestPosition_correct direction vector (this : Game.t) cell :
  Game.getVector direction = Some vector →
  ∃ positions k,
    Game.findFarthestPosition this cell vector = Normal positions ∧
    1 ≤ k ∧
    Game.farthest positions = along cell vector (k - 1) ∧
    Game.next positions = along cell vector k ∧
    (∀ j, 1 ≤ j < k →
          Grid.withinBounds (Game.grid this) (along cell vector j) = true ∧
          Grid.cellContent (Game.grid this) (along cell vector j) = None) ∧
    (Grid.withinBounds (Game.grid this) (Game.next positions) = false ∨
     is_Some (Grid.cellContent (Game.grid this) (Game.next positions))).
Proof.
  intros Hv.
  destruct (findFarthestPosition_returns _ _ this cell Hv) as [positions Hpos].
  pose proof Hpos as Hspec. unfold Game.findFarthestPosition in Hspec.
  apply findFarthestPosition_loop_spec in Hspec
    as (k & Hk & Hfar & Hnext & Hstop & Hfree).
  exists positions, k. repeat (split; [assumption|]). split.
  - intros j Hj. specialize (Hfree j Hj).
    apply andb_true_iff in Hfree as [Hin Hav]. split; [assumption|].
    unfold Grid.cellAvailable, Grid.cellOccupied in Hav.
    apply negb_true_iff, bool_decide_eq_false in Hav.
    destruct (Grid.cellContent _ _); [|reflexivity].
    exfalso. apply Hav. eauto.
  - apply andb_false_iff in Hstop as [Hout|Hocc]; [now left | right].
    unfold Grid.cellAvailable, Grid.cellOccupied in Hocc.
    now apply negb_false_iff, bool_decide_eq_true in Hocc.
Qed.

Lemma findFarthestPosition_correct_witness :
  Game.getVector 3 = Some (mkPos (-1) 0) ∧
  ∃ positions k,
    Game.findFarthestPosition (session shiftedBoard) (mkPos 1 3) (mkPos (-1) 0)
    = Normal positions ∧
    1 ≤ k ∧
    Game.farthest positions = along (mkPos 1 3) (mkPos (-1) 0) (k - 1) ∧
    Game.next positions = along (mkPos 1 3) (mkPos (-1) 0) k ∧
    (∀ j, 1 ≤ j < k →
          Grid.withinBounds (Game.grid (session shiftedBoard))
            (along (mkPos 1 3) (mkPos (-1) 0) j) = true ∧
          Grid.cellContent (Game.grid (session shiftedBoard))
            (along (mkPos 1 3) (mkPos (-1) 0) j) = None) ∧
    (Grid.withinBounds (Game.grid (session shiftedBoard)) (Game.next positions)
     = false ∨
     is_Some (Grid.cellContent (Game.grid (session shiftedBoard))
                (Game.next positions))).
Proof.
  split; [reflexivity|].
  apply (findFarthestPosition_correct 3). reflexivity.
Defined.

(** ** The traversal order *)

(** X2.  [buildTraversals] lists on each axis exactly the coordinates
    [0 .. size - 1], each once; an axis is listed in descending order when
    the vector's component on it is 1, and in ascending order otherwise. *)
Theorem buildTraversals_order vector n :
  (∀ i, i ∈ Game.xs (Game.buildTraversals vector n) ↔ 0 ≤ i < n) ∧
  (∀ i, i ∈ Game.ys (Game.buildTraversals vector n) ↔ 0 ≤ i < n) ∧
  NoDup (Game.xs (Game.buildTraversals vector n)) ∧
  NoDup (Game.ys (Game.buildTraversals vector n)) ∧
  StronglySorted (if px vector =? 1 then flip Z.lt else Z.lt)
    (Game.xs (Game.buildTraversals vector n)) ∧
  StronglySorted (if py vector =? 1 then flip Z.lt else Z.lt)
    (Game.ys (Game.buildTraversals vector n)).
Proof.
  assert (Hnodup : NoDup (range n)).
  { unfold range. apply NoDup_fmap_2; [|apply NoDup_seq].
    intros a b Hab. lia. }
  unfold Game.buildTraversals. simpl.
  split; [|split; [|split; [|split; [|split]]]].
  - intros i. destruct (px vector =? 1);
      [rewrite elem_of_reverse|]; apply elem_of_range.
  - intros i. destruct (py vector =? 1);
      [rewrite elem_of_reverse|]; apply elem_of_range.
  - destruct (px vector =? 1); [now rewrite reverse_Permutation | assumption].
  - destruct (py vector =? 1); [now rewrite reverse_Permutation | assumption].
  - destruct (px vector =? 1);
      [apply reverse_sorted|]; apply range_sorted.
  - destruct (py vector =? 1);
      [apply reverse_sorted|]; apply range_sorted.
Qed.

(** ** Directions *)

(** X3.  [getVector] knows the directions 0 to 3, each a unit vector along
    one axis, and no other; a move in any other direction on a session that
    is not terminated throws. *)
Theorem move_unknown_direction direction :
  (0 ≤ direction < 4 →
   ∃ vector, Game.getVector direction = Some vector ∧
             Z.abs (px vector) + Z.abs (py vector) = 1) ∧
  (¬ 0 ≤ direction < 4 →
   Game.getVector direction = None ∧
   ∀ rnd this,
     Game.isGameTerminated this = false →
     Game.move rnd direction this = TypeError).
Proof.
  split.
  - intros Hd.
    assert (Hcases : direction = 0 ∨ direction = 1 ∨ direction = 2
                     ∨ direction = 3) by lia.
    destruct Hcases as [-> | [-> | [-> | ->]]]; eexists; split; reflexivity.
  - intros Hd.
    assert (Hnone : Game.getVector direction = None).
    { destruct (Game.getVector direction) as [vector|] eqn:Hv; [|reflexivity].
      apply getVector_Some in Hv. lia. }
    split; [assumption|]. intros rnd this Hterm.
    unfold Game.move. now rewrite Hterm, Hnone.
Qed.

Lemma move_unknown_direction_witness :
  (∃ vector, Game.getVector 2 = Some vector ∧
             Z.abs (px vector) + Z.abs (py vector) = 1) ∧
  Game.getVector 4 = None ∧
  Game.move (Game.mkSpawn true 0) 4 (session rowBoard) = TypeError.
Proof.
  split.
  - apply (move_unknown_direction 2). lia.
  - destruct (move_unknown_direction 4) as [_ H].
    destruct H as [Hnone Hmove]; [lia|].
    split; [exact Hnone|]. apply Hmove. reflexivity.
Defined.

(** ** Moves on well-formed boards *)

(** X4.  On a square board whose tiles are stored at the cells their
    positions name, a move in any of the four directions returns, without
    throwing, and leaves such a board; so does any sequence of such
    moves. *)
Theorem moves_keep_board_well_formed n (this : Game.t) :
  WellFormed n (Game.grid this) →
  (∀ rnd direction,
     0 ≤ direction < 4 →
     ∃ this', Game.move rnd direction this = Normal this' ∧
              WellFormed n (Game.grid this')) ∧
  (∀ inputs,
     Forall (λ input : Game.Spawn * Z, 0 ≤ snd input < 4) inputs →
     ∃ this', play inputs this = Normal this' ∧
              WellFormed n (Game.grid this')).
Proof.
  intros Hwf. split.
  - intros rnd direction Hd. now apply move_returns.
  - intros inputs Hd. now apply play_returns.
Qed.

Lemma moves_keep_board_well_formed_witness :
  WellFormed 4 (Game.grid (session shiftedBoard)) ∧
  ∃ this',
    play [(Game.mkSpawn true 0, 3); (Game.mkSpawn false 1, 0)]
      (session shiftedBoard) = Normal this' ∧
    WellFormed 4 (Game.grid this').
Proof.
  assert (Hwf : WellFormed 4 (Game.grid (session shiftedBoard)))
    by (apply wellFormedb_sound; vm_compute; reflexivity).
  split; [exact Hwf|].
  apply (moves_keep_board_well_formed 4 (session shiftedBoard) Hwf).
  repeat constructor; simpl; lia.
Defined.

(** ** Drawing *)

Lemma draw_storage this :
  Game.gameState (Game.storage (Game.draw this))
  = (if Game.over this then None else Some (Game.serialize this)) ∧
  Game.bestScore (Game.storage (Game.draw this))
  = Z.max (Game.bestScore (Game.storage this)) (Game.score this) ∧
  Game.serialize (Game.draw this) = Game.serialize this.
Proof.
  destruct this as [r s n g sc ov w k]. unfold Game.draw; simpl.
  destruct (Z.ltb_spec (Game.bestScore s) sc), ov; simpl;
    repeat split; lia.
Qed.

(** X5.  [draw()] leaves in the storage the larger of the stored best score
    and the current score, and hands the render, in one call, the grid with
    the score, the flags, that best score and whether the game is
    terminated. *)
Theorem draw_reports_best_score (this : Game.t) :
  Game.bestScore (Game.storage (Game.draw this))
  = Z.max (Game.bestScore (Game.storage this)) (Game.score this) ∧
  Game.calls (Game.render (Game.draw this))
  = Game.calls (Game.render this)
      ++ [Game.Draw (Game.grid this)
            (Game.mkMetadata (Game.score this) (Game.over this)
               (Game.won this)
               (Z.max (Game.bestScore (Game.storage this)) (Game.score this))
               (Game.isGameTerminated this))].
Proof.
  destruct this as [r s n g sc ov w k]. unfold Game.draw; simpl.
  destruct (Z.ltb_spec (Game.bestScore s) sc), ov; simpl;
    rewrite ?Z.max_r, ?Z.max_l by lia; split; reflexivity.
Qed.

(** ** Spawning *)

Lemma hit_position cell p :
  0 ≤ py cell →
  hit (px cell) (py cell) (px p) (py p) = true ↔ p = cell.
Proof.
  intros Hy. unfold hit. rewrite !andb_true_iff, !Z.eqb_eq, Z.leb_le.
  destruct p, cell; simpl in *. split.
  - intros [[-> ->] _]. reflexivity.
  - intros Hp. inversion Hp. tauto.
Qed.

Lemma setCell_cellContent g cell v cs' :
  Grid.withinBounds g cell = true →
  Grid.setCell (Grid.cells g) (px cell) (py cell) v = Normal cs' →
  Grid.cellContent (Grid.mk (Grid.size g) cs') cell = v ∧
  ∀ p, p ≠ cell →
       Grid.cellContent (Grid.mk (Grid.size g) cs') p = Grid.cellContent g p.
Proof.
  intros Hin Hset. pose proof Hin as Hb. apply withinBounds_spec in Hb.
  unfold Grid.cellContent, Grid.withinBounds. simpl.
  fold (Grid.withinBounds g). split.
  - fold (Grid.withinBounds g cell). rewrite Hin.
    rewrite (at_setCell _ _ _ _ _ Hset).
    now rewrite (proj2 (hit_position cell cell (proj1 (proj2 Hb))) eq_refl).
  - intros p Hp. fold (Grid.withinBounds g p).
    destruct (Grid.withinBounds g p); [|reflexivity].
    rewrite (at_setCell _ _ _ _ _ Hset).
    destruct (hit _ _ _ _) eqn:Hhit; [|reflexivity].
    apply hit_position in Hhit; [contradiction | lia].
Qed.

Lemma addRandomTile_cases rnd (this this' : Game.t) :
  Game.addRandomTile rnd this = Normal this' →
  (Grid.cellsAvailable (Game.grid this) = false ∧ this' = this) ∨
  (∃ cell,
     Grid.withinBounds (Game.grid this) cell = true ∧
     Grid.cellContent (Game.grid this) cell = None ∧
     Grid.cellContent (Game.grid this') cell
     = Some (Tile.new cell (if Game.small rnd then 2 else 4)) ∧
     (∀ p, p ≠ cell →
           Grid.cellContent (Game.grid this') p
           = Grid.cellContent (Game.grid this) p) ∧
     Grid.size (Game.grid this') = Grid.size (Game.grid this) ∧
     this' = Game.setGrid (Game.grid this') this).
Proof.
  intros H. pose proof (addRandomTile_frame _ _ _ H) as Hframe.
  unfold Game.addRandomTile in H.
  destruct (Grid.cellsAvailable (Game.grid this)) eqn:Hfree.
  2:{ left. inversion H. tauto. }
  right.
  destruct (randomAvailableCell_Some (Game.pick rnd) _ Hfree)
    as (cell & Hcell & Hx & Hy & Hnone).
  rewrite Hcell in H. unfold Grid.insertTile in H.
  inv_bind H. inv_bind Hr. inversion Hr; subst r; clear Hr.
  inversion H; subst this'; clear H. simpl in Hr0. simpl.
  assert (Hin : Grid.withinBounds (Game.grid this) cell = true)
    by (apply withinBounds_spec; lia).
  destruct (setCell_cellContent _ _ _ _ Hin Hr0) as [Hnew Hold].
  exists cell. repeat split; assumption.
Qed.

(** X6.  When [addRandomTile()] returns, either the board was full and the
    session is unchanged, or one cell that was empty now holds a new tile,
    a 2 or a 4 as drawn, and every other cell and every other field of the
    session is as before. *)
Theorem addRandomTile_adds_one_tile rnd (this this' : Game.t) :
  Game.addRandomTile rnd this = Normal this' →
  (Grid.cellsAvailable (Game.grid this) = false ∧ this' = this) ∨
  (∃ cell,
     Grid.withinBounds (Game.grid this) cell = true ∧
     Grid.cellContent (Game.grid this) cell = None ∧
     Grid.cellContent (Game.grid this') cell
     = Some (Tile.new cell (if Game.small rnd then 2 else 4)) ∧
     (∀ p, p ≠ cell →
           Grid.cellContent (Game.grid this') p
           = Grid.cellContent (Game.grid this) p) ∧
     Grid.size (Game.grid this') = Grid.size (Game.grid this) ∧
     this' = Game.setGrid (Game.grid this') this).
Proof. apply addRandomTile_cases. Qed.

Lemma addRandomTile_adds_one_tile_witness :
  ∃ this',
    Game.addRandomTile (Game.mkSpawn false 3) (session rowBoard) = Normal this' ∧
    ((Grid.cellsAvailable (Game.grid (session rowBoard)) = false
      ∧ this' = session rowBoard) ∨
     (∃ cell,
        Grid.withinBounds (Game.grid (session rowBoard)) cell = true ∧
        Grid.cellContent (Game.grid (session rowBoard)) cell = None ∧
        Grid.cellContent (Game.grid this') cell
        = Some (Tile.new cell
                  (if Game.small (Game.mkSpawn false 3) then 2 else 4)) ∧
        (∀ p, p ≠ cell →
              Grid.cellContent (Game.grid this') p
              = Grid.cellContent (Game.grid (session rowBoard)) p) ∧
        Grid.size (Game.grid this') = Grid.size (Game.grid (session rowBoard)) ∧
        this' = Game.setGrid (Game.grid this') (session rowBoard))).
Proof.
  eexists. split; [vm_compute; reflexivity|].
  apply (addRandomTile_adds_one_tile (Game.mkSpawn false 3) (session rowBoard)).
  vm_compute. reflexivity.
Defined.

(** ** What moves keep *)

Lemma Advances_refl this : Advances this this.
Proof. unfold Advances. repeat split; auto. lia. Qed.

Lemma Advances_trans a b c : Advances a b → Advances b c → Advances a c.
Proof.
  unfold Advances.
  intros (? & ? & ? & ? & ? & ? & ?) (? & ? & ? & ? & ? & ? & ?).
  repeat split; try congruence; auto. lia.
Qed.

Lemma visit_won vector x y this moved this' moved' :
  Game.visit vector x y (this, moved) = Normal (this', moved') →
  Game.won this = true → Game.won this' = true.
Proof.
  intros H Hwon. apply visit_cases in H as [(_ & -> & _)|[H|H]];
    [assumption | |].
  - destruct H as (tile & next & positions & tile' & _ & H & _).
    apply merge_spec in H as (_ & _ & _ & -> & _).
    now destruct (_ =? 2048).
  - destruct H as (tile & positions & tile' & _ & _ & _ & H & _).
    apply moveTile_spec in H as (_ & -> & _). exact Hwon.
Qed.

Lemma traverse_won vector traversals this moved this' moved' :
  Game.traverse vector traversals (this, moved) = Normal (this', moved') →
  Game.won this = true → Game.won this' = true.
Proof.
  intros H Hwon. unfold Game.traverse in H.
  apply (forEach_invariant (λ st, Game.won (fst st) = true)) in H;
    [exact H | | exact Hwon].
  intros x st st' Hst Hx.
  apply (forEach_invariant (λ st, Game.won (fst st) = true)) in Hx;
    [exact Hx | | exact Hst].
  intros y [s m] [s' m'] Hs Hy. simpl in *. eapply visit_won; eassumption.
Qed.

Lemma move_Advances rnd direction this this' :
  Game.move rnd direction this = Normal this' → Advances this this'.
Proof.
  unfold Game.move. destruct (Game.isGameTerminated this).
  { intros H. inversion H. apply Advances_refl. }
  destruct (Game.getVector direction) as [vector|]; [|discriminate].
  intros H. inv_bind H. destruct r as [this1 moved].
  pose proof (traverse_won _ _ _ _ _ _ Hr) as Hwon.
  apply traverse_frame in Hr
    as (Hrender & Hstorage & Hstart & Hover & Hkeep & Hsize).
  change (Game.won (Game.prepareTiles this)) with (Game.won this) in Hwon.
  change (Game.render (Game.prepareTiles this)) with (Game.render this)
    in Hrender.
  change (Game.storage (Game.prepareTiles this)) with (Game.storage this)
    in Hstorage.
  change (Game.startTiles (Game.prepareTiles this))
    with (Game.startTiles this) in Hstart.
  change (Game.over (Game.prepareTiles this)) with (Game.over this) in Hover.
  change (Game.keepPlaying (Game.prepareTiles this))
    with (Game.keepPlaying this) in Hkeep.
  change (Grid.size (Game.grid (Game.prepareTiles this)))
    with (Grid.size (Game.grid this)) in Hsize.
  destruct moved.
  2:{ inversion H; subst this'. unfold Advances.
      rewrite Hrender, Hstorage, Hstart, Hover, Hkeep, Hsize.
      repeat split; auto. lia. }
  inv_bind H. rename r into this2. inversion H; subst this'; clear H.
  assert (Hsize2 : Grid.size (Game.grid this2) = Grid.size (Game.grid this1)).
  { unfold Game.addRandomTile, Grid.insertTile in Hr.
    destruct (Grid.cellsAvailable _); [|now inversion Hr].
    destruct (Grid.randomAvailableCell _ _); [|discriminate].
    inv_bind Hr. inv_bind Hr0. inversion Hr0; subst r; clear Hr0.
    now inversion Hr. }
  apply addRandomTile_frame in Hr.
  set (this3 := if negb (Game.movesAvailable this2)
                then Game.setOver true this2 else this2).
  destruct (draw_frame this3) as (Hg & _ & Ho & Hw & Hk & Hs & Hrs).
  destruct (draw_storage this3) as (_ & Hbest & _).
  assert (H3 : Game.won this3 = Game.won this1
               ∧ (Game.over this1 = true → Game.over this3 = true)
               ∧ Game.keepPlaying this3 = Game.keepPlaying this1
               ∧ Game.startTiles this3 = Game.startTiles this1
               ∧ Game.render this3 = Game.render this1
               ∧ Game.storage this3 = Game.storage this1
               ∧ Game.grid this3 = Game.grid this2).
  { unfold this3. rewrite Hr. destruct (negb _); simpl; repeat split; auto. }
  destruct H3 as (Hw3 & Ho3 & Hk3 & Hs3 & Hr3 & Hst3 & Hg3).
  unfold Advances.
  rewrite Hg, Ho, Hw, Hk, Hs, Hrs, Hbest, Hw3, Hk3, Hs3, Hr3, Hst3, Hg3.
  rewrite Hsize2, Hrender, Hstorage, Hstart, Hkeep, Hsize.
  repeat split; auto; [|lia].
  intros Hov. apply Ho3. now rewrite Hover.
Qed.

(** X7.  Over any sequence of moves [won] and [over], once set, stay set;
    [keepPlaying], [startTiles], the render's size and the grid's size are
    never changed; and the stored best score never decreases. *)
Theorem moves_keep_flags_and_best_score inputs (this this' : Game.t) :
  play inputs this = Normal this' → Advances this this'.
Proof.
  unfold play. apply (forEach_invariant (λ s, Advances this s)).
  - intros [rnd direction] s s' Hs H. simpl in H.
    eapply Advances_trans; [exact Hs|]. eapply move_Advances; eassumption.
  - apply Advances_refl.
Qed.

Lemma moves_keep_flags_and_best_score_witness :
  ∃ this',
    play [(Game.mkSpawn true 0, 3); (Game.mkSpawn true 2, 1)]
      (session rowBoard) = Normal this' ∧
    Advances (session rowBoard) this'.
Proof.
  eexists. split; [vm_compute; reflexivity|].
  apply (moves_keep_flags_and_best_score
           [(Game.mkSpawn true 0, 3); (Game.mkSpawn true 2, 1)]
           (session rowBoard)).
  vm_compute. reflexivity.
Defined.

(** ** Counting over the cells of the board *)

Lemma positions_NoDup g : NoDup (Grid.positions g).
Proof.
  assert (Hrange : ∀ n, NoDup (range n)).
  { intros n. unfold range. apply NoDup_fmap_2; [|apply NoDup_seq].
    intros a b Hab. lia. }
  unfold Grid.positions. apply NoDup_bind; [| |apply Hrange].
  - intros x1 x2 p _ _ H1 H2.
    apply list_elem_of_bind in H1 as (y1 & H1 & _).
    apply list_elem_of_bind in H2 as (y2 & H2 & _).
    apply list_elem_of_singleton in H1, H2. congruence.
  - intros x _. apply NoDup_bind; [| |apply Hrange].
    + intros y1 y2 p _ _ H1 H2.
      apply list_elem_of_singleton in H1, H2. congruence.
    + intros y _. apply NoDup_singleton.
Qed.

Lemma length_bind_const {A B} (f : A → list B) m l :
  (∀ a, length (f a) = m) → length (l ≫= f) = (length l * m)%nat.
Proof.
  intros Hf. induction l as [|a l IH]; csimpl; [reflexivity|].
  rewrite length_app, Hf, IH. lia.
Qed.

Lemma length_range n : length (range n) = Z.to_nat n.
Proof. unfold range. now rewrite length_fmap, length_seq. Qed.

Lemma length_positions g :
  length (Grid.positions g)
  = (Z.to_nat (Grid.size g) * Z.to_nat (Grid.size g))%nat.
Proof.
  unfold Grid.positions.
  rewrite (length_bind_const _ (Z.to_nat (Grid.size g))), length_range;
    [reflexivity|].
  intros x. rewrite (length_bind_const _ 1%nat), length_range; [lia|].
  reflexivity.
Qed.

Lemma filter_ext_in {A} (P P' : A → Prop)
    `{∀ a, Decision (P a)} `{∀ a, Decision (P' a)} (l : list A) :
  (∀ b, b ∈ l → (P' b ↔ P b)) → filter P' l = filter P l.
Proof.
  induction l as [|x l IH]; intros Hext; [reflexivity|].
  rewrite !filter_cons.
  assert (Hl : filter P' l = filter P l).
  { apply IH. intros b Hb. apply Hext. now right. }
  assert (Hx : P' x ↔ P x) by (apply Hext; left).
  destruct (decide (P' x)), (decide (P x)); try tauto; now rewrite Hl.
Qed.

(** Making [P] fail at one element of a list without repetition removes one
    element from those that satisfy it. *)
Lemma filter_remove_one {A} (P P' : A → Prop)
    `{∀ a, Decision (P a)} `{∀ a, Decision (P' a)} (l : list A) a :
  NoDup l → a ∈ l → P a → ¬ P' a →
  (∀ b, b ∈ l → b ≠ a → (P' b ↔ P b)) →
  length (filter P l) = S (length (filter P' l)).
Proof.
  induction 1 as [|x l Hx Hl IH]; intros Ha HP HP' Hext.
  - now apply elem_of_nil in Ha.
  - rewrite !filter_cons. apply elem_of_cons in Ha as [->|Ha].
    + destruct (decide (P x)); [|contradiction].
      destruct (decide (P' x)); [contradiction|].
      simpl. f_equal. f_equal. symmetry. apply filter_ext_in.
      intros b Hb. apply Hext; [now right|]. intros ->. contradiction.
    + assert (Hne : x ≠ a) by (intros ->; contradiction).
      assert (Hxx : P' x ↔ P x) by (apply Hext; [left | assumption]).
      assert (Hrec : length (filter P l) = S (length (filter P' l))).
      { apply IH; try assumption. intros b Hb. apply Hext. now right. }
      destruct (decide (P x)), (decide (P' x)); try tauto; simpl; lia.
Qed.

Lemma sumOver_update (f f' : Position → Z) l a :
  NoDup l → a ∈ l →
  (∀ b, b ∈ l → b ≠ a → f' b = f b) →
  sumOver f' l = sumOver f l - f a + f' a.
Proof.
  induction 1 as [|x l Hx Hl IH]; intros Ha Hext.
  - now apply elem_of_nil in Ha.
  - simpl. apply elem_of_cons in Ha as [->|Ha].
    + assert (Hrest : sumOver f' l = sumOver f l).
      { clear IH. induction l as [|b l IHl]; [reflexivity|]. simpl.
        rewrite Hext; [|right; left|].
        - rewrite IHl; [reflexivity | | |].
          + intros Hin. apply Hx. now right.
          + now inversion Hl.
          + intros c Hc. apply Hext. apply elem_of_cons in Hc as [->|Hc].
            * left.
            * right. now right.
        - intros ->. apply Hx. left. }
      lia.
    + rewrite (Hext x); [|left|intros ->; contradiction].
      rewrite IH; [lia | assumption |].
      intros b Hb. apply Hext. now right.
Qed.

Lemma sumOver_ext (f f' : Position → Z) l :
  (∀ b, b ∈ l → f' b = f b) → sumOver f' l = sumOver f l.
Proof.
  induction l as [|x l IH]; intros Hext; [reflexivity|]. simpl.
  rewrite Hext by left. rewrite IH; [reflexivity|].
  intros b Hb. apply Hext. now right.
Qed.

(** ** Seeding a fresh board *)

Lemma empty_at n x y : Grid.at_ (Grid.cells (Grid.empty n)) x y = None.
Proof.
  simpl. unfold Grid.at_. destruct (_ && _); [|reflexivity].
  destruct (replicate _ _ !! Z.to_nat x) as [col|] eqn:Hcol; [|reflexivity].
  apply lookup_replicate in Hcol as [-> _]. simpl.
  destruct (replicate _ _ !! Z.to_nat y) as [c|] eqn:Hc; [|reflexivity].
  apply lookup_replicate in Hc as [-> _]. reflexivity.
Qed.

Lemma availableCells_empty n :
  length (Grid.availableCells (Grid.empty n)) = (Z.to_nat n * Z.to_nat n)%nat.
Proof.
  unfold Grid.availableCells.
  change (Z.to_nat n * Z.to_nat n)%nat
    with (Z.to_nat (Grid.size (Grid.empty n))
          * Z.to_nat (Grid.size (Grid.empty n)))%nat.
  rewrite <- (length_positions (Grid.empty n)). f_equal.
  induction (Grid.positions (Grid.empty n)) as [|p l IH]; [reflexivity|].
  rewrite filter_cons_True; [now rewrite IH|].
  unfold Grid.cellContent. destruct (Grid.withinBounds _ _); [|reflexivity].
  apply empty_at.
Qed.

Lemma addRandomTile_available rnd this this' :
  Game.addRandomTile rnd this = Normal this' →
  length (Grid.availableCells (Game.grid this'))
  = Nat.pred (length (Grid.availableCells (Game.grid this))).
Proof.
  intros H. apply addRandomTile_cases in H as [[Hfull ->]|H].
  - unfold Grid.cellsAvailable in Hfull.
    apply bool_decide_eq_false in Hfull.
    destruct (Grid.availableCells (Game.grid this)); [reflexivity|].
    exfalso. apply Hfull. discriminate.
  - destruct H as (cell & Hin & Hnone & Hnew & Hold & Hsize & _).
    unfold Grid.availableCells.
    assert (Hpos : Grid.positions (Game.grid this')
                   = Grid.positions (Game.grid this))
      by (unfold Grid.positions; now rewrite Hsize).
    rewrite Hpos.
    rewrite (filter_remove_one
               (λ p, Grid.cellContent (Game.grid this) p = None)
               (λ p, Grid.cellContent (Game.grid this') p = None)
               (Grid.positions (Game.grid this)) cell); [reflexivity | | | | |].
    + apply positions_NoDup.
    + apply elem_of_positions. now apply withinBounds_spec.
    + assumption.
    + rewrite Hnew. discriminate.
    + intros p _ Hp. now rewrite Hold.
Qed.

Lemma addStartTiles_available rnd this this' :
  Game.addStartTiles rnd this = Normal this' →
  length (Grid.availableCells (Game.grid this'))
  = (length (Grid.availableCells (Game.grid this))
     - Z.to_nat (Game.startTiles this))%nat.
Proof.
  unfold Game.addStartTiles. rewrite <- length_range.
  generalize (range (Game.startTiles this)) as l. intros l. revert this.
  induction l as [|i l IH]; intros this H; simpl in H.
  - inversion H. simpl. lia.
  - inv_bind H. apply addRandomTile_available in Hr.
    apply IH in H. rewrite H, Hr. simpl. lia.
Qed.

Lemma addStartTiles_Spawned rnd this this' :
  AllTiles Spawned (Game.grid this) →
  Game.addStartTiles rnd this = Normal this' →
  AllTiles Spawned (Game.grid this').
Proof.
  intros Hall. unfold Game.addStartTiles.
  apply (forEach_invariant (λ s, AllTiles Spawned (Game.grid s)));
    [|assumption].
  intros i s s' Hs H. eapply addRandomTile_tiles; [exact Hs | | exact H].
  intros cell. unfold Spawned. simpl. tauto.
Qed.

(** A [setup] that finds no stored state seeds a board and draws it. *)
Lemma setup_fresh rnd this :
  Game.gameState (Game.storage this) = None →
  ∃ seeded,
    Game.setup rnd this = Normal (Game.draw seeded) ∧
    seeded
    = Game.setGrid (Game.grid seeded)
        (Game.freshFields (Game.storage_call Game.GetGameState this)) ∧
    WellFormed (Game.size (Game.render this)) (Game.grid seeded) ∧
    AllTiles Spawned (Game.grid seeded) ∧
    length (Grid.availableCells (Game.grid seeded))
    = (Z.to_nat (Game.size (Game.render this))
       * Z.to_nat (Game.size (Game.render this))
       - Z.to_nat (Game.startTiles this))%nat.
Proof.
  intros Hnone.
  destruct (addStartTiles_WellFormed rnd
              (Game.storage_call Game.GetGameState this))
    as (seeded & Hseeded & Hwf).
  exists seeded. split.
  { unfold Game.setup, Game.storage_getGameState. rewrite Hnone.
    now rewrite Hseeded. }
  split; [now apply addStartTiles_frame in Hseeded|].
  split; [exact Hwf|]. split.
  - eapply addStartTiles_Spawned; [|exact Hseeded].
    intros x y t Ht. exfalso.
    change (Grid.at_
              (Grid.cells (Grid.empty (Game.size (Game.render this)))) x y
            = Some t) in Ht.
    rewrite empty_at in Ht. discriminate.
  - apply addStartTiles_available in Hseeded. rewrite Hseeded.
    simpl. now rewrite availableCells_empty.
Qed.

(** X8.  A [setup()] that finds no stored state returns a session with
    score 0 and no flag set, on a well-formed board of the render's size
    whose tiles are new 2s and 4s; [startTiles] cells are occupied, or all
    of them when the board has fewer; and the storage then holds that
    session, serialized. *)
Theorem setup_seeds_fresh_board rnd (this : Game.t) :
  Game.gameState (Game.storage this) = None →
  ∃ this',
    Game.setup rnd this = Normal this' ∧
    Game.score this' = 0 ∧
    Game.over this' = false ∧
    Game.won this' = false ∧
    Game.keepPlaying this' = Game.Flag false ∧
    WellFormed (Game.size (Game.render this)) (Game.grid this') ∧
    AllTiles Spawned (Game.grid this') ∧
    length (Grid.availableCells (Game.grid this'))
    = (Z.to_nat (Game.size (Game.render this))
       * Z.to_nat (Game.size (Game.render this))
       - Z.to_nat (Game.startTiles this))%nat ∧
    Game.gameState (Game.storage this') = Some (Game.serialize this').
Proof.
  intros Hnone.
  destruct (setup_fresh rnd this Hnone)
    as (seeded & Hsetup & Hframe & Hwf & Hspawned & Hcount).
  exists (Game.draw seeded). split; [exact Hsetup|].
  destruct (draw_frame seeded) as (-> & -> & -> & -> & -> & _).
  destruct (draw_storage seeded) as (-> & _ & ->).
  assert (Hfields : Game.score seeded = 0 ∧ Game.over seeded = false
                    ∧ Game.won seeded = false
                    ∧ Game.keepPlaying seeded = Game.Flag false)
    by (rewrite Hframe; repeat split; reflexivity).
  destruct Hfields as (-> & -> & -> & ->).
  repeat (split; [first [reflexivity | assumption]|]). reflexivity.
Qed.

Lemma setup_seeds_fresh_board_witness :
  ∃ this',
    Game.setup (λ i, Game.mkSpawn true (Z.to_nat i))
      (Game.mk (Game.mkRender 4 []) (Game.mkStorage None 0 []) 2
         (Grid.empty 0) 0 false false Game.Method)
    = Normal this' ∧
    Game.score this' = 0 ∧
    Game.over this' = false ∧
    Game.won this' = false ∧
    Game.keepPlaying this' = Game.Flag false ∧
    WellFormed 4 (Game.grid this') ∧
    AllTiles Spawned (Game.grid this') ∧
    length (Grid.availableCells (Game.grid this')) = 14%nat ∧
    Game.gameState (Game.storage this') = Some (Game.serialize this').
Proof.
  apply (setup_seeds_fresh_board (λ i, Game.mkSpawn true (Z.to_nat i))
           (Game.mk (Game.mkRender 4 []) (Game.mkStorage None 0 []) 2
              (Grid.empty 0) 0 false false Game.Method)).
  reflexivity.
Defined.

(** ** Restarting *)

Lemma restart_fresh rnd (this : Game.t) :
  ∃ this',
    Game.restart rnd this = Normal this' ∧
    Game.score this' = 0 ∧
    Game.over this' = false ∧
    Game.won this' = false ∧
    Game.keepPlaying this' = Game.Flag false ∧
    WellFormed (Game.size (Game.render this)) (Game.grid this') ∧
    AllTiles Spawned (Game.grid this') ∧
    Game.gameState (Game.storage this') = Some (Game.serialize this') ∧
    Game.startTiles this' = Game.startTiles this ∧
    Game.size (Game.render this') = Game.size (Game.render this) ∧
    Game.bestScore (Game.storage this')
    = Z.max (Game.bestScore (Game.storage this)) 0 ∧
    (∃ later,
       Game.requests (Game.storage this')
       = Game.requests (Game.storage this)
           ++ Game.ClearGameState :: Game.GetGameState :: later) ∧
    (∃ metadata,
       Game.calls (Game.render this')
       = Game.calls (Game.render this)
           ++ [Game.ContinueGame; Game.Draw (Game.grid this') metadata]).
Proof.
  unfold Game.restart.
  set (cleared := Game.render_call Game.ContinueGame
                    (Game.storage_clearGameState this)).
  destruct (setup_fresh rnd cleared eq_refl)
    as (seeded & Hsetup & Hframe & Hwf & Hspawned & _).
  exists (Game.draw seeded). split; [exact Hsetup|].
  destruct (draw_frame seeded) as (Hg & Hsc & Hov & Hw & Hk & Hst & Hsz).
  destruct (draw_storage seeded) as (Hgs & Hbest & Hser).
  destruct (draw_calls seeded) as [metadata Hcalls].
  rewrite Hg, Hsc, Hov, Hw, Hk, Hst, Hsz, Hgs, Hbest, Hser, Hcalls.
  assert (Hreq : ∃ later,
            Game.requests (Game.storage (Game.draw seeded))
            = Game.requests (Game.storage seeded) ++ later).
  { destruct seeded as [r s n g sc ov w k]. unfold Game.draw; simpl.
    destruct (_ <? _), ov; simpl; rewrite <- ?app_assoc; eauto. }
  destruct Hreq as [later ->].
  assert (Hfields :
    Game.score seeded = 0 ∧ Game.over seeded = false
    ∧ Game.won seeded = false
    ∧ Game.keepPlaying seeded = Game.Flag false
    ∧ Game.startTiles seeded = Game.startTiles this
    ∧ Game.size (Game.render seeded) = Game.size (Game.render this)
    ∧ Game.bestScore (Game.storage seeded) = Game.bestScore (Game.storage this)
    ∧ Game.requests (Game.storage seeded)
      = Game.requests (Game.storage this)
          ++ [Game.ClearGameState; Game.GetGameState]
    ∧ Game.calls (Game.render seeded)
      = Game.calls (Game.render this) ++ [Game.ContinueGame]).
  { rewrite Hframe. simpl. rewrite <- !app_assoc.
    repeat split; reflexivity. }
  destruct Hfields as (-> & -> & -> & -> & -> & -> & -> & -> & ->).
  repeat (split; [first [reflexivity | assumption]|]).
  split.
  - exists later. now rewrite <- !app_assoc.
  - exists metadata. now rewrite <- !app_assoc.
Qed.

(** X9.  [restart()] returns on every session: it tells the storage to
    clear the game state and the render to continue, then sets up a fresh
    session, with score 0, no flag set and a newly seeded board of the
    render's size, which the storage then holds; [startTiles] and the
    render's size are kept, and the best score is not lowered. *)
Theorem restart_starts_afresh rnd (this : Game.t) :
  ∃ this',
    Game.restart rnd this = Normal this' ∧
    Game.score this' = 0 ∧
    Game.over this' = false ∧
    Game.won this' = false ∧
    Game.keepPlaying this' = Game.Flag false ∧
    WellFormed (Game.size (Game.render this)) (Game.grid this') ∧
    AllTiles Spawned (Game.grid this') ∧
    Game.gameState (Game.storage this') = Some (Game.serialize this') ∧
    Game.startTiles this' = Game.startTiles this ∧
    Game.size (Game.render this') = Game.size (Game.render this) ∧
    Game.bestScore (Game.storage this')
    = Z.max (Game.bestScore (Game.storage this)) 0 ∧
    (∃ later,
       Game.requests (Game.storage this')
       = Game.requests (Game.storage this)
           ++ Game.ClearGameState :: Game.GetGameState :: later) ∧
    (∃ metadata,
       Game.calls (Game.render this')
       = Game.calls (Game.render this)
           ++ [Game.ContinueGame; Game.Draw (Game.grid this') metadata]).
Proof. apply restart_fresh. Qed.

(** ** The sum of the tiles *)

Lemma sumOver_update2 (f f' : Position → Z) l a b :
  NoDup l → a ∈ l → b ∈ l → a ≠ b →
  (∀ p, p ∈ l → p ≠ a → p ≠ b → f' p = f p) →
  sumOver f' l = sumOver f l - f a - f b + f' a + f' b.
Proof.
  intros Hl Ha Hb Hab Hext.
  set (f1 := λ p, if decide (p = a) then f' a else f p).
  assert (H1 : sumOver f1 l = sumOver f l - f a + f1 a).
  { apply sumOver_update; try assumption.
    intros p _ Hp. unfold f1. now destruct (decide (p = a)). }
  assert (H2 : sumOver f' l = sumOver f1 l - f1 b + f' b).
  { apply sumOver_update; try assumption.
    intros p Hp Hpb. unfold f1. destruct (decide (p = a)) as [->|Hpa];
      [reflexivity | now apply Hext]. }
  unfold f1 in H1, H2.
  destruct (decide (a = a)); [|contradiction].
  destruct (decide (b = a)) as [->|_]; [contradiction|]. lia.
Qed.

Lemma along_zero cell vector : along cell vector 0 = cell.
Proof. unfold along. destruct cell. simpl. f_equal; lia. Qed.

Lemma cellContent_positions g p tile :
  Grid.cellContent g p = Some tile → p ∈ Grid.positions g.
Proof.
  intros H. apply cellContent_at in H as [H _].
  apply elem_of_positions. now apply withinBounds_spec.
Qed.

Lemma cellContent_eq_at g g' p :
  Grid.size g' = Grid.size g →
  p ∈ Grid.positions g →
  Grid.cellContent g' p = Grid.at_ (Grid.cells g') (px p) (py p).
Proof.
  intros Hsize Hp. apply elem_of_positions, withinBounds_spec in Hp.
  unfold Grid.cellContent, Grid.withinBounds in *. rewrite Hsize.
  now rewrite Hp.
Qed.

Lemma hit_ne x y p : p ≠ mkPos x y → hit x y (px p) (py p) = false.
Proof.
  intros Hp. unfold hit. destruct p as [a b]. simpl.
  destruct (Z.eqb_spec a x) as [->|?]; [|reflexivity].
  destruct (Z.eqb_spec b y) as [->|?]; [|reflexivity].
  contradiction.
Qed.

Lemma hit_ne' cell p :
  p ≠ cell → hit (px cell) (py cell) (px p) (py p) = false.
Proof. destruct cell. apply hit_ne. Qed.

Lemma hit_eq x y : 0 ≤ y → hit x y x y = true.
Proof.
  intros Hy. unfold hit. rewrite !Z.eqb_refl. simpl. now apply Z.leb_le.
Qed.

(** One visit on a well-formed board keeps the sum of the tiles. *)
Lemma visit_sum direction vector n x y this moved this' moved' :
  Game.getVector direction = Some vector →
  WellFormed n (Game.grid this) →
  Game.visit vector x y (this, moved) = Normal (this', moved') →
  boardSum (Game.grid this') = boardSum (Game.grid this)
  ∧ WellFormed n (Game.grid this').
Proof.
  intros Hv Hwf H.
  assert (Hwf' : WellFormed n (Game.grid this')).
  { destruct (visit_returns _ _ n x y this moved Hv Hwf)
      as (this2 & moved2 & H2 & Hwf2).
    rewrite H in H2. now inversion H2; subst. }
  split; [|exact Hwf'].
  assert (Hsize : Grid.size (Game.grid this') = Grid.size (Game.grid this)).
  { destruct Hwf as [(-> & _) _], Hwf' as [(-> & _) _]. reflexivity. }
  assert (Hpos : Grid.positions (Game.grid this')
                 = Grid.positions (Game.grid this))
    by (unfold Grid.positions; now rewrite Hsize).
  unfold boardSum. rewrite Hpos.
  destruct Hwf as [Hsq Hplaced].
  pose proof H as Hcases.
  apply visit_cases in Hcases as [(_ & -> & _)|[Hc|Hc]]; [reflexivity | |].
  - (* merge *)
    destruct Hc as (tile & next & positions & tile' & Hm & Hmerge & _).
    destruct (merge_target_away _ _ _ _ _ _ _ _ Hv Hm)
      as (k & Hk & Hnext & Hne).
    destruct Hm as (Htile & _ & Hnx & Hval & _).
    pose proof (cellContent_positions _ _ _ Htile) as Hin0.
    pose proof (cellContent_positions _ _ _ Hnx) as Hinn.
    pose proof Htile as Hat0. apply cellContent_at in Hat0 as [Hb0 Hat0].
    pose proof Hnx as Hatn. apply cellContent_at in Hatn as [Hbn _].
    apply withinBounds_spec in Hb0, Hbn. simpl in Hb0.
    destruct (Hplaced _ _ _ Hat0) as [Htx Hty]. simpl in Htx, Hty.
    apply merge_spec in Hmerge as (_ & _ & _ & _ & Hat).
    rewrite Htx, Hty in Hat.
    assert (Hdiff : Game.next positions ≠ mkPos x y).
    { intros Heq. unfold Game.positionsEqual in Hne. simpl in Hne.
      rewrite Heq in Hne. simpl in Hne. rewrite !Z.eqb_refl in Hne.
      discriminate. }
    rewrite (sumOver_update2 (valueAt (Game.grid this))
               (valueAt (Game.grid this')) _ (Game.next positions) (mkPos x y));
      try assumption; [|apply positions_NoDup|].
    + assert (Hvn : valueAt (Game.grid this') (Game.next positions)
                    = Tile.value tile * 2).
      { unfold valueAt. rewrite (cellContent_eq_at _ _ _ Hsize Hinn), Hat.
        rewrite (hit_ne x y _ Hdiff), hit_eq by lia. reflexivity. }
      assert (Hv0 : valueAt (Game.grid this') (mkPos x y) = 0).
      { unfold valueAt. rewrite (cellContent_eq_at _ _ _ Hsize Hin0), Hat.
        cbn [px py]. rewrite hit_eq by lia. reflexivity. }
      rewrite Hvn, Hv0. unfold valueAt. rewrite Htile, Hnx. simpl. lia.
    + intros p Hp Hpn Hp0. unfold valueAt.
      rewrite (cellContent_eq_at _ _ _ Hsize Hp), Hat.
      rewrite (cellContent_eq_at _ _ _ eq_refl Hp).
      now rewrite (hit_ne x y _ Hp0), (hit_ne' _ _ Hpn).
  - (* relocation *)
    destruct Hc as (tile & positions & tile' & Htile & Hsearch & _ & Hmove & _).
    pose proof (cellContent_positions _ _ _ Htile) as Hin0.
    pose proof Htile as Hat0. apply cellContent_at in Hat0 as [Hb0 Hat0].
    apply withinBounds_spec in Hb0. simpl in Hb0.
    destruct (Hplaced _ _ _ Hat0) as [Htx Hty]. simpl in Htx, Hty.
    unfold Game.findFarthestPosition in Hsearch.
    apply findFarthestPosition_loop_spec in Hsearch
      as (k & Hk & Hfar & _ & _ & Hfree).
    apply moveTile_spec in Hmove as (-> & _ & _ & Hat).
    rewrite Htx, Hty in Hat.
    destruct (decide (Game.farthest positions = mkPos x y)) as [Hsame|Hdiff].
    + apply sumOver_ext. intros p Hp. unfold valueAt.
      rewrite (cellContent_eq_at _ _ _ Hsize Hp), Hat.
      rewrite (cellContent_eq_at _ _ _ eq_refl Hp).
      rewrite Hsame. cbn [px py].
      destruct (decide (p = mkPos x y)) as [->|Hp0].
      * cbn [px py]. rewrite hit_eq by lia.
        cbn [px py] in Hat0. rewrite Hat0. reflexivity.
      * now rewrite (hit_ne x y _ Hp0).
    + assert (Hk1 : k ≠ 1).
      { intros ->. apply Hdiff. rewrite Hfar. apply along_zero. }
      specialize (Hfree (k - 1)). rewrite <- Hfar in Hfree.
      apply andb_true_iff in Hfree as [Hbf Havail]; [|lia].
      assert (Hempty : Grid.cellContent (Game.grid this)
                         (Game.farthest positions) = None).
      { unfold Grid.cellAvailable, Grid.cellOccupied in Havail.
        apply negb_true_iff, bool_decide_eq_false in Havail.
        apply eq_None_not_Some. exact Havail. }
      assert (Hinf : Game.farthest positions ∈ Grid.positions (Game.grid this))
        by (apply elem_of_positions; now apply withinBounds_spec).
      apply withinBounds_spec in Hbf.
      assert (Hdiff' : mkPos x y ≠ Game.farthest positions) by congruence.
      rewrite (sumOver_update2 (valueAt (Game.grid this))
                 (valueAt (Game.grid this')) _ (Game.farthest positions)
                 (mkPos x y));
        try assumption; [|apply positions_NoDup|].
      * assert (Hvf : valueAt (Game.grid this') (Game.farthest positions)
                      = Tile.value tile).
        { unfold valueAt. rewrite (cellContent_eq_at _ _ _ Hsize Hinf), Hat.
          rewrite hit_eq by lia. reflexivity. }
        assert (Hv0 : valueAt (Game.grid this') (mkPos x y) = 0).
        { unfold valueAt. rewrite (cellContent_eq_at _ _ _ Hsize Hin0), Hat.
          rewrite (hit_ne' _ _ Hdiff'). cbn [px py].
          rewrite hit_eq by lia. reflexivity. }
        rewrite Hvf, Hv0. unfold valueAt. rewrite Htile, Hempty. simpl. lia.
      * intros p Hp Hpf Hp0. unfold valueAt.
        rewrite (cellContent_eq_at _ _ _ Hsize Hp), Hat.
        rewrite (cellContent_eq_at _ _ _ eq_refl Hp).
        now rewrite (hit_ne' _ _ Hpf), (hit_ne x y _ Hp0).
Qed.

Lemma traverse_sum direction vector traversals n this moved this' moved' :
  Game.getVector direction = Some vector →
  WellFormed n (Game.grid this) →
  Game.traverse vector traversals (this, moved) = Normal (this', moved') →
  boardSum (Game.grid this') = boardSum (Game.grid this)
  ∧ WellFormed n (Game.grid this').
Proof.
  intros Hv Hwf H. unfold Game.traverse in H.
  apply (forEach_invariant
           (λ st, boardSum (Game.grid (fst st)) = boardSum (Game.grid this)
                  ∧ WellFormed n (Game.grid (fst st)))) in H;
    [exact H | | now split].
  intros x st st' Hst Hx.
  apply (forEach_invariant
           (λ st, boardSum (Game.grid (fst st)) = boardSum (Game.grid this)
                  ∧ WellFormed n (Game.grid (fst st)))) in Hx;
    [exact Hx | | exact Hst].
  intros y [s m] [s' m'] [Hs Hw] Hy. simpl in *.
  destruct (visit_sum _ _ _ _ _ _ _ _ _ Hv Hw Hy) as [Hsum Hw'].
  split; [congruence | assumption].
Qed.

Lemma prepareTiles_sum this :
  boardSum (Game.grid (Game.prepareTiles this)) = boardSum (Game.grid this).
Proof.
  unfold boardSum.
  change (Grid.positions (Game.grid (Game.prepareTiles this)))
    with (Grid.positions (Game.grid this)).
  apply sumOver_ext. intros p _. unfold valueAt.
  rewrite prepareTiles_cellContent.
  now destruct (Grid.cellContent (Game.grid this) p).
Qed.

Lemma addRandomTile_sum rnd this this' :
  Game.addRandomTile rnd this = Normal this' →
  boardSum (Game.grid this') = boardSum (Game.grid this)
  ∨ boardSum (Game.grid this')
    = boardSum (Game.grid this) + (if Game.small rnd then 2 else 4).
Proof.
  intros H. apply addRandomTile_cases in H as [[_ ->]|H]; [now left | right].
  destruct H as (cell & Hin & Hnone & Hnew & Hold & Hsize & _).
  unfold boardSum.
  assert (Hpos : Grid.positions (Game.grid this')
                 = Grid.positions (Game.grid this))
    by (unfold Grid.positions; now rewrite Hsize).
  rewrite Hpos.
  rewrite (sumOver_update (valueAt (Game.grid this))
             (valueAt (Game.grid this')) _ cell).
  - unfold valueAt. rewrite Hnew, Hnone. simpl. lia.
  - apply positions_NoDup.
  - apply elem_of_positions. now apply withinBounds_spec.
  - intros p _ Hp. unfold valueAt. now rewrite Hold.
Qed.

(** X10.  On a well-formed board a move conserves the sum of the tile
    values, merges and relocations included, except for the tile it spawns:
    the sum after the move is the sum before, or that plus the 2 or 4
    drawn. *)
Theorem move_conserves_tile_values n rnd direction (this this' : Game.t) :
  WellFormed n (Game.grid this) →
  Game.move rnd direction this = Normal this' →
  boardSum (Game.grid this') = boardSum (Game.grid this)
  ∨ boardSum (Game.grid this')
    = boardSum (Game.grid this) + (if Game.small rnd then 2 else 4).
Proof.
  intros Hwf H. unfold Game.move in H.
  destruct (Game.isGameTerminated this); [inversion H; now left|].
  destruct (Game.getVector direction) as [vector|] eqn:Hv; [|discriminate].
  inv_bind H. destruct r as [this1 moved].
  apply (traverse_sum _ _ _ n _ _ _ _ Hv (prepareTiles_WellFormed _ _ Hwf))
    in Hr as [Hsum _].
  rewrite prepareTiles_sum in Hsum.
  destruct moved; [|inversion H; subst; now left].
  inv_bind H. rename r into this2. inversion H; subst this'; clear H.
  apply addRandomTile_sum in Hr.
  destruct (draw_frame
    (if negb (Game.movesAvailable this2) then Game.setOver true this2
     else this2)) as (-> & _).
  assert (Hg : Game.grid (if negb (Game.movesAvailable this2)
                          then Game.setOver true this2 else this2)
               = Game.grid this2) by now destruct (negb _).
  rewrite Hg, <- Hsum. exact Hr.
Qed.

Lemma move_conserves_tile_values_witness :
  WellFormed 4 (Game.grid (session rowBoard)) ∧
  ∃ this',
    Game.move (Game.mkSpawn false 0) 3 (session rowBoard) = Normal this' ∧
    (boardSum (Game.grid this') = boardSum (Game.grid (session rowBoard))
     ∨ boardSum (Game.grid this')
       = boardSum (Game.grid (session rowBoard))
         + (if Game.small (Game.mkSpawn false 0) then 2 else 4)).
Proof.
  assert (Hwf : WellFormed 4 (Game.grid (session rowBoard)))
    by (apply wellFormedb_sound; vm_compute; reflexivity).
  split; [exact Hwf|].
  eexists. split; [vm_compute; reflexivity|].
  apply (move_conserves_tile_values 4 (Game.mkSpawn false 0) 3
           (session rowBoard) _ Hwf).
  vm_compute. reflexivity.
Defined.

(** ** The values of the tiles *)

Lemma allTilesb_sound p g :
  allTilesb p g = true → AllTiles (λ tile, p tile = true) g.
Proof.
  unfold allTilesb. intros H x y tile Htile.
  apply at_elem_of in Htile as (col & Hcol & Htile).
  rewrite forallb_forall in H. apply list_elem_of_In in Hcol.
  specialize (H col Hcol). rewrite forallb_forall in H.
  apply list_elem_of_In in Htile. exact (H _ Htile).
Qed.

Lemma AllTiles_impl (P Q : Tile.t → Prop) g :
  (∀ tile, P tile → Q tile) → AllTiles P g → AllTiles Q g.
Proof. intros HPQ H x y tile Ht. apply HPQ. eapply H. eassumption. Qed.

Lemma visit_values (P : Z → Prop) vector x y this moved this' moved' :
  (∀ v, P v → P (v * 2)) →
  AllTiles (λ tile, P (Tile.value tile)) (Game.grid this) →
  Game.visit vector x y (this, moved) = Normal (this', moved') →
  AllTiles (λ tile, P (Tile.value tile)) (Game.grid this').
Proof.
  intros Hdouble Hall H.
  apply visit_cases in H as [(_ & -> & _)|[H|H]]; [assumption | |].
  - destruct H as (tile & next & positions & tile' & Hm & H & _).
    destruct Hm as (Htile & _).
    apply cellContent_at in Htile as [_ Htile]. apply Hall in Htile.
    apply merge_spec in H as (_ & _ & _ & _ & Hat).
    intros x' y' t. rewrite Hat.
    destruct (hit (Tile.x tile) _ x' y'); [discriminate|].
    destruct (hit (px _) _ x' y'); [|apply Hall].
    intros Ht. inversion Ht; subst t. simpl. now apply Hdouble.
  - destruct H as (tile & positions & tile' & Htile & _ & _ & H & _).
    apply cellContent_at in Htile as [_ Htile]. apply Hall in Htile.
    apply moveTile_spec in H as (-> & _ & _ & Hat).
    intros x' y' t. rewrite Hat.
    destruct (hit (px _) _ x' y').
    + intros Ht. inversion Ht; subst t. exact Htile.
    + destruct (hit (Tile.x tile) _ x' y'); [discriminate | apply Hall].
Qed.

Lemma move_values (P : Z → Prop) rnd direction this this' :
  P 2 → P 4 → (∀ v, P v → P (v * 2)) →
  AllTiles (λ tile, P (Tile.value tile)) (Game.grid this) →
  Game.move rnd direction this = Normal this' →
  AllTiles (λ tile, P (Tile.value tile)) (Game.grid this').
Proof.
  intros H2 H4 Hdouble Hall. unfold Game.move.
  destruct (Game.isGameTerminated this).
  { intros H. now inversion H; subst. }
  destruct (Game.getVector direction) as [vector|]; [|discriminate].
  intros H. inv_bind H. destruct r as [this1 moved].
  assert (Hall1 : AllTiles (λ tile, P (Tile.value tile)) (Game.grid this1)).
  { unfold Game.traverse in Hr.
    apply (forEach_invariant
             (λ st, AllTiles (λ tile, P (Tile.value tile))
                      (Game.grid (fst st)))) in Hr; [exact Hr | |].
    - intros x st st' Hst Hx.
      apply (forEach_invariant
               (λ st, AllTiles (λ tile, P (Tile.value tile))
                        (Game.grid (fst st)))) in Hx; [exact Hx | | exact Hst].
      intros y [s m] [s' m'] Hs Hy. simpl in *.
      eapply visit_values; eassumption.
    - cbn [fst]. intros x y t. rewrite prepareTiles_at.
      destruct (Grid.at_ _ x y) as [t0|] eqn:Ht0; [|discriminate].
      intros Ht. inversion Ht; subst t. simpl. exact (Hall _ _ _ Ht0). }
  destruct moved; [|now inversion H; subst].
  inv_bind H. rename r into this2. inversion H; subst this'; clear H.
  destruct (draw_frame
    (if negb (Game.movesAvailable this2) then Game.setOver true this2
     else this2)) as (-> & _).
  assert (Hall2 : AllTiles (λ tile, P (Tile.value tile)) (Game.grid this2)).
  { eapply addRandomTile_tiles; [exact Hall1 | | exact Hr0].
    intros cell. simpl. now split. }
  now destruct (negb _).
Qed.

(** X11.  If the values of the tiles all belong to a set that contains 2 and
    4 and is closed under doubling (the powers of two from 2 on, for one),
    so do the values of the tiles after any sequence of moves. *)
Theorem tile_values_stay_in_doubling_set (P : Z → Prop) inputs
    (this this' : Game.t) :
  P 2 → P 4 → (∀ v, P v → P (v * 2)) →
  AllTiles (λ tile, P (Tile.value tile)) (Game.grid this) →
  play inputs this = Normal this' →
  AllTiles (λ tile, P (Tile.value tile)) (Game.grid this').
Proof.
  intros H2 H4 Hdouble Hall. unfold play.
  apply (forEach_invariant
           (λ s, AllTiles (λ tile, P (Tile.value tile)) (Game.grid s)));
    [|assumption].
  intros [rnd direction] s s' Hs H. simpl in H.
  eapply move_values; eassumption.
Qed.

Lemma tile_values_stay_in_doubling_set_witness :
  ∃ this',
    play [(Game.mkSpawn true 0, 3); (Game.mkSpawn false 5, 2)]
      (session rowBoard) = Normal this' ∧
    AllTiles (λ tile, ∃ k, 0 < k ∧ Tile.value tile = 2 ^ k) (Game.grid this').
Proof.
  eexists. split; [vm_compute; reflexivity|].
  apply (tile_values_stay_in_doubling_set (λ v, ∃ k, 0 < k ∧ v = 2 ^ k)
           [(Game.mkSpawn true 0, 3); (Game.mkSpawn false 5, 2)]
           (session rowBoard)).
  - exists 1. split; [lia | reflexivity].
  - exists 2. split; [lia | reflexivity].
  - intros v (k & Hk & ->). exists (k + 1). split; [lia|].
    rewrite Z.pow_add_r by lia. reflexivity.
  - apply (AllTiles_impl (λ tile, (Tile.value tile =? 2) = true)).
    + intros t Ht. apply Z.eqb_eq in Ht. exists 1. split; [lia | exact Ht].
    + apply allTilesb_sound. vm_compute. reflexivity.
  - vm_compute. reflexivity.
Defined.

(** ** Winning *)

(** A flag that a loop body never clears is set at the end of the loop
    exactly when some iteration met the condition that sets it. *)
Lemma forEach_flag {A S} (body : A → S → Completion S) (obs : S → bool)
    (P : A → S → Prop) :
  (∀ a s s', body a s = Normal s' → obs s = true → obs s' = true) →
  (∀ a s s', body a s = Normal s' → obs s = false →
             (obs s' = true ↔ P a s)) →
  ∀ l s s', forEach l body s = Normal s' → obs s = false →
            (obs s' = true ↔ During body P l s).
Proof.
  intros Hsticky Hset l.
  induction l as [|a l IH]; intros s s' H Hs; simpl in H.
  - inversion H; subst s'. rewrite Hs. split; [discriminate | inversion 1].
  - inv_bind H. rename r into s1.
    pose proof (Hset _ _ _ Hr Hs) as Hstep.
    destruct (obs s1) eqn:Hs1.
    + split.
      * intros _. apply During_here. now apply Hstep.
      * intros _. revert H.
        apply (forEach_invariant (λ s, obs s = true)); [|exact Hs1].
        intros b s2 s3 Hs2 Hb. eapply Hsticky; eassumption.
    + rewrite (IH _ _ H Hs1). split.
      * intros Hd. eapply During_later; eassumption.
      * intros Hd.
        inversion Hd as [a' rest s0 HP|a' rest s0 s2 Hbody Hrest]; subst.
        -- apply Hstep in HP. discriminate.
        -- rewrite Hr in Hbody. now inversion Hbody; subst.
Qed.

Lemma visit_wins vector x y this moved this' moved' :
  Game.visit vector x y (this, moved) = Normal (this', moved') →
  Game.won this = false →
  Game.won this' = true ↔
  ∃ tile next positions,
    Merges vector x y this tile next positions ∧ Tile.value tile * 2 = 2048.
Proof.
  intros H Hwon. pose proof H as Hcases.
  apply visit_cases in Hcases as [(Hnone & -> & _)|[Hc|Hc]].
  - rewrite Hwon. split; [discriminate|].
    intros (tile & next & positions & (Htile & _) & _). congruence.
  - destruct Hc as (tile & next & positions & tile' & Hm & Hmerge & _).
    apply merge_spec in Hmerge as (_ & _ & _ & -> & _). rewrite Hwon.
    split.
    + intros Hw. exists tile, next, positions. split; [assumption|].
      destruct (Z.eqb_spec (Tile.value tile * 2) 2048);
        [assumption | discriminate].
    + intros (tile0 & next0 & positions0 & Hm0 & Hval).
      assert (tile0 = tile).
      { destruct Hm as (Ht & _), Hm0 as (Ht0 & _). congruence. }
      subst tile0. now rewrite (proj2 (Z.eqb_eq _ _) Hval).
  - destruct Hc as (tile & positions & tile' & Htile & Hpos & Hno & Hmove & _).
    apply moveTile_spec in Hmove as (_ & -> & _). simpl. rewrite Hwon.
    split; [discriminate|].
    intros (tile0 & next0 & positions0 & Hm0 & _). exfalso.
    destruct Hm0 as (Ht0 & Hp0 & Hrest).
    assert (tile0 = tile) by congruence. subst tile0.
    assert (positions0 = positions) by congruence. subst positions0.
    apply (Hno next0). repeat split; tauto.
Qed.

(** X12.  On a session that is neither over nor won, a move sets [won]
    exactly when one of its visits merges two tiles into a 2048. *)
Theorem won_exactly_on_2048 rnd direction vector (this this' : Game.t) :
  Game.over this = false →
  Game.won this = false →
  Game.getVector direction = Some vector →
  Game.move rnd direction this = Normal this' →
  Game.won this' = true ↔
  WinDuring vector
    (Game.buildTraversals vector (Game.size (Game.render this)))
    (Game.prepareTiles this, false).
Proof.
  intros Hover Hwon Hv H. unfold Game.move, Game.isGameTerminated in H.
  rewrite Hover, Hwon, Hv in H. simpl in H.
  inv_bind H. destruct r as [this1 moved].
  assert (Hwon1 : Game.won this1 = true ↔
                  WinDuring vector
                    (Game.buildTraversals vector (Game.size (Game.render this)))
                    (Game.prepareTiles this, false)).
  { unfold Game.traverse in Hr. unfold WinDuring.
    set (wins := λ x y (st : Game.t * bool),
           ∃ tile next positions,
             Merges vector x y (fst st) tile next positions
             ∧ Tile.value tile * 2 = 2048).
    set (ys := Game.ys (Game.buildTraversals vector
                          (Game.size (Game.render this)))) in *.
    apply (forEach_flag
             (λ x, forEach ys (λ y, Game.visit vector x y))
             (λ st, Game.won (fst st))
             (λ x, During (λ y, Game.visit vector x y) (wins x) ys))
      with (s' := (this1, moved)) in Hr; [exact Hr | | | exact Hwon].
    - intros x st st' Hx Hst.
      apply (forEach_invariant (λ st, Game.won (fst st) = true)) in Hx;
        [exact Hx | | exact Hst].
      intros y [s m] [s' m'] Hs Hy. simpl in *.
      eapply visit_won; eassumption.
    - intros x st st' Hx Hst.
      apply (forEach_flag (λ y, Game.visit vector x y)
               (λ st, Game.won (fst st)) (wins x)) with (s' := st') in Hx;
        [exact Hx | | | exact Hst].
      + intros y [s m] [s' m'] Hy Hs. simpl in *.
        eapply visit_won; eassumption.
      + intros y [s m] [s' m'] Hy Hs. simpl in *.
        eapply visit_wins; eassumption. }
  rewrite <- Hwon1.
  destruct moved; [|now inversion H; subst].
  inv_bind H. rename r into this2. inversion H; subst this'; clear H.
  apply addRandomTile_frame in Hr0.
  destruct (draw_frame
    (if negb (Game.movesAvailable this2) then Game.setOver true this2
     else this2)) as (_ & _ & _ & -> & _).
  rewrite Hr0. now destruct (negb _).
Qed.

Lemma won_exactly_on_2048_witness :
  Game.over (session winBoard) = false ∧
  Game.won (session winBoard) = false ∧
  Game.getVector 3 = Some (mkPos (-1) 0) ∧
  ∃ this',
    Game.move (Game.mkSpawn true 0) 3 (session winBoard) = Normal this' ∧
    Game.won this' = true ∧
    (Game.won this' = true ↔
     WinDuring (mkPos (-1) 0) (Game.buildTraversals (mkPos (-1) 0) 4)
       (Game.prepareTiles (session winBoard), false)).
Proof.
  split; [reflexivity|]. split; [reflexivity|]. split; [reflexivity|].
  eexists. split; [vm_compute; reflexivity|].
  split; [reflexivity|].
  apply (won_exactly_on_2048 (Game.mkSpawn true 0) 3 (mkPos (-1) 0)
           (session winBoard)); [reflexivity.. | vm_compute; reflexivity].
Defined.

(** ** What a move persists *)

Lemma setup_reloads (this other : Game.t) (rnd : Z → Game.Spawn) :
  Game.gameState (Game.storage other) = Some (Game.serialize this) →
  ∃ this',
    Game.setup rnd other = Normal this' ∧
    sameBoard (Game.grid this') (Game.grid this) ∧
    Game.score this' = Game.score this ∧
    Game.over this' = Game.over this ∧
    Game.won this' = Game.won this ∧
    Game.keepPlaying this' = Game.keepPlaying this.
Proof.
  intros Hstored. unfold Game.setup, Game.storage_getGameState.
  rewrite Hstored. simpl. eexists. split; [reflexivity|].
  destruct (draw_frame
    (Game.reloadFields (Game.serialize this)
       (Game.storage_call Game.GetGameState other)))
    as (-> & -> & -> & -> & -> & _).
  repeat split; try reflexivity.
  intros p. unfold Grid.cellContent, Grid.withinBounds.
  change (Grid.size (Game.grid (Game.reloadFields (Game.serialize this)
            (Game.storage_call Game.GetGameState other))))
    with (Grid.size (Game.grid this)).
  destruct (_ && _); [|reflexivity].
  change (Game.grid (Game.reloadFields (Game.serialize this)
            (Game.storage_call Game.GetGameState other)))
    with (Grid.fromState (Grid.ssize (Grid.serialize (Game.grid this)))
            (Grid.scells (Grid.serialize (Game.grid this)))).
  rewrite at_reloaded. now destruct (Grid.at_ _ _ _).
Qed.

(** X13.  After a move that merged or relocated a tile the stored best
    score is at least the score.  If the move set [over], the storage holds
    no game state; otherwise it holds the session the move returned, and a
    [setup()] on that session restores an equivalent board with the same
    score and flags. *)
Theorem move_persists_session rnd direction vector (this this' : Game.t) :
  Game.isGameTerminated this = false →
  Game.getVector direction = Some vector →
  ChangeDuring vector
    (Game.buildTraversals vector (Game.size (Game.render this)))
    (Game.prepareTiles this, false) →
  Game.move rnd direction this = Normal this' →
  Game.score this' ≤ Game.bestScore (Game.storage this') ∧
  (Game.over this' = true → Game.gameState (Game.storage this') = None) ∧
  (Game.over this' = false →
   Game.gameState (Game.storage this') = Some (Game.serialize this') ∧
   ∀ rnd', ∃ restored,
     Game.setup rnd' this' = Normal restored ∧
     sameBoard (Game.grid restored) (Game.grid this') ∧
     Game.score restored = Game.score this' ∧
     Game.over restored = false ∧
     Game.won restored = Game.won this' ∧
     Game.keepPlaying restored = Game.keepPlaying this').
Proof.
  intros Hterm Hv Hchange H. unfold Game.move in H. rewrite Hterm, Hv in H.
  inv_bind H. destruct r as [this1 moved].
  pose proof (proj2 (traverse_moved _ _ _ _ _ Hv Hr) Hchange) as Hmoved.
  simpl in Hmoved. subst moved.
  inv_bind H. rename r into this2. inversion H; subst this'; clear H.
  set (this3 := if negb (Game.movesAvailable this2)
                then Game.setOver true this2 else this2).
  destruct (draw_storage this3) as (Hstate & Hbest & Hser).
  destruct (draw_frame this3) as (_ & Hsc & Hov & _).
  split; [rewrite Hsc, Hbest; lia|].
  split.
  { intros Ho. rewrite Hov in Ho. now rewrite Hstate, Ho. }
  intros Hover. rewrite Hov in Hover.
  split; [now rewrite Hstate, Hover, Hser|].
  intros rnd'.
  destruct (setup_reloads (Game.draw this3) (Game.draw this3) rnd')
    as (restored & Hsetup & Hboard & Hscore & Hover' & Hwon & Hkeep).
  { now rewrite Hstate, Hover, Hser. }
  exists restored. rewrite Hov, Hover in Hover'.
  split; [exact Hsetup|]. split; [exact Hboard|].
  split; [exact Hscore|]. split; [exact Hover'|].
  split; [exact Hwon | exact Hkeep].
Qed.

Lemma move_persists_session_witness :
  Game.isGameTerminated (session rowBoard) = false ∧
  Game.getVector 3 = Some (mkPos (-1) 0) ∧
  ∃ this',
    Game.move (Game.mkSpawn true 0) 3 (session rowBoard) = Normal this' ∧
    Game.score this' ≤ Game.bestScore (Game.storage this') ∧
    Game.gameState (Game.storage this') = Some (Game.serialize this').
Proof.
  split; [reflexivity|]. split; [reflexivity|].
  assert (Hm : ∃ this',
             Game.move (Game.mkSpawn true 0) 3 (session rowBoard)
             = Normal this' ∧ Game.over this' = false).
  { eexists. split; vm_compute; reflexivity. }
  destruct Hm as (this' & Hm & Hover).
  exists this'. split; [exact Hm|].
  assert (Hd : ChangeDuring (mkPos (-1) 0)
                 (Game.buildTraversals (mkPos (-1) 0) 4)
                 (Game.prepareTiles (session rowBoard), false)).
  { eapply During_later; [vm_compute; reflexivity|].
    apply During_here. apply During_here. left.
    eexists _, _, _. repeat split; vm_compute; reflexivity. }
  destruct (move_persists_session (Game.mkSpawn true 0) 3 (mkPos (-1) 0)
              (session rowBoard) this' eq_refl eq_refl Hd Hm)
    as (Hbest & _ & Hstate).
  split; [exact Hbest|]. apply Hstate. exact Hover.
Defined.

(** ** Moves against a wall *)

Lemma blockedb_sound vector g : blockedb vector g = true → Blocked vector g.
Proof.
  unfold blockedb. intros H p tile Htile.
  rewrite forallb_forall in H.
  specialize (H p (proj1 (list_elem_of_In _ _)
                     (cellContent_positions _ _ _ Htile))).
  rewrite Htile in H.
  destruct (Grid.cellContent g (along p vector 1)) as [other|].
  - apply negb_true_iff, Z.eqb_neq in H. exact H.
  - now apply negb_true_iff in H.
Qed.

Lemma prepareTiles_sameBoard this :
  sameBoard (Game.grid (Game.prepareTiles this)) (Game.grid this).
Proof.
  split; [reflexivity|]. intros p. rewrite prepareTiles_cellContent.
  now destruct (Grid.cellContent (Game.grid this) p).
Qed.

(** X14.  On a well-formed board where the cell next to each tile, in the
    direction of the move, is outside the board or holds a tile of another
    value, the move is discarded: every tile stays in its cell with its
    value, nothing is spawned, and score, flags, render and storage are as
    before. *)
Theorem move_against_wall n rnd direction vector (this : Game.t) :
  Game.isGameTerminated this = false →
  Game.getVector direction = Some vector →
  WellFormed n (Game.grid this) →
  Blocked vector (Game.grid this) →
  ∃ this',
    Game.move rnd direction this = Normal this' ∧
    sameBoard (Game.grid this') (Game.grid this) ∧
    Game.score this' = Game.score this ∧
    Game.over this' = Game.over this ∧
    Game.won this' = Game.won this ∧
    Game.keepPlaying this' = Game.keepPlaying this ∧
    Game.render this' = Game.render this ∧
    Game.storage this' = Game.storage this.
Proof.
  intros Hterm Hv Hwf Hblocked. exists (Game.prepareTiles this).
  split; [now apply move_blocked with vector n|].
  split; [apply prepareTiles_sameBoard|]. repeat split.
Qed.

Lemma move_against_wall_witness :
  Game.isGameTerminated (session fullBoard) = false ∧
  Game.getVector 1 = Some (mkPos 1 0) ∧
  WellFormed 4 (Game.grid (session fullBoard)) ∧
  Blocked (mkPos 1 0) (Game.grid (session fullBoard)) ∧
  ∃ this',
    Game.move (Game.mkSpawn true 0) 1 (session fullBoard) = Normal this' ∧
    sameBoard (Game.grid this') (Game.grid (session fullBoard)) ∧
    Game.score this' = Game.score (session fullBoard) ∧
    Game.over this' = Game.over (session fullBoard) ∧
    Game.won this' = Game.won (session fullBoard) ∧
    Game.keepPlaying this' = Game.keepPlaying (session fullBoard) ∧
    Game.render this' = Game.render (session fullBoard) ∧
    Game.storage this' = Game.storage (session fullBoard).
Proof.
  assert (Hwf : WellFormed 4 (Game.grid (session fullBoard)))
    by (apply wellFormedb_sound; vm_compute; reflexivity).
  assert (Hb : Blocked (mkPos 1 0) (Game.grid (session fullBoard)))
    by (apply blockedb_sound; vm_compute; reflexivity).
  split; [reflexivity|]. split; [reflexivity|].
  split; [exact Hwf|]. split; [exact Hb|].
  apply (move_against_wall 4 (Game.mkSpawn true 0) 1 (mkPos 1 0)
           (session fullBoard) eq_refl eq_refl Hwf Hb).
Defined.

(** ** Preparing the tiles *)

Lemma prepareTiles_cells this :
  Grid.cells (Game.grid (Game.prepareTiles this))
  = (λ col : list (option Tile.t),
       (λ c : option Tile.t, prepared <$> c) <$> col)
    <$> Grid.cells (Game.grid this).
Proof.
  unfold Game.prepareTiles, Grid.eachCell. simpl.
  rewrite <- imap_const. apply imap_ext. intros i col _. simpl.
  now rewrite <- imap_const.
Qed.

(** X15.  [prepareTiles()] clears the provenance of every tile of the board
    and records its position as the previous one; it changes no cell's
    occupancy, value or position, so the serialized grid is the same; it
    leaves the other fields of the session alone; and applying it twice is
    applying it once. *)
Theorem prepareTiles_resets_history (this : Game.t) :
  AllTiles (λ tile,
      Tile.mergedFrom tile = None ∧
      Tile.previousPosition tile = Some (mkPos (Tile.x tile) (Tile.y tile)))
    (Game.grid (Game.prepareTiles this)) ∧
  (∀ p, Grid.cellContent (Game.grid (Game.prepareTiles this)) p
        = prepared <$> Grid.cellContent (Game.grid this) p) ∧
  Grid.serialize (Game.grid (Game.prepareTiles this))
  = Grid.serialize (Game.grid this) ∧
  Game.prepareTiles this
  = Game.setGrid (Game.grid (Game.prepareTiles this)) this ∧
  Game.prepareTiles (Game.prepareTiles this) = Game.prepareTiles this.
Proof.
  split; [|split; [|split; [|split]]].
  - intros x y t. rewrite prepareTiles_at.
    destruct (Grid.at_ _ x y); [|discriminate].
    intros Ht. inversion Ht. now split.
  - intros p. apply prepareTiles_cellContent.
  - unfold Grid.serialize. rewrite prepareTiles_cells. f_equal.
    rewrite <- list_fmap_compose. apply list_fmap_ext. intros i col _.
    simpl. rewrite <- list_fmap_compose. apply list_fmap_ext.
    intros j c _. simpl. now destruct c.
  - reflexivity.
  - assert (Hcells : Grid.cells (Game.grid (Game.prepareTiles
                                              (Game.prepareTiles this)))
                     = Grid.cells (Game.grid (Game.prepareTiles this))).
    { rewrite (prepareTiles_cells (Game.prepareTiles this)).
      rewrite (prepareTiles_cells this).
      rewrite <- list_fmap_compose. apply list_fmap_ext. intros i col _.
      simpl. rewrite <- list_fmap_compose. apply list_fmap_ext.
      intros j c _. simpl. now destruct c. }
    destruct this as [r s n [gs cs] sc ov w k].
    unfold Game.prepareTiles, Game.setGrid, Grid.eachCell in *. simpl in *.
    now rewrite Hcells.
Qed.

(** ** Relocating a tile *)

(** X16.  On a well-formed board, [moveTile] of the tile of a cell to a
    cell within the bounds returns: the target holds the tile, with its
    position updated, the source is empty unless it is the target, every
    other cell is as before and the board is still well formed; a move to
    the tile's own cell leaves the session as it is. *)
Theorem moveTile_relocates n (this : Game.t) source tile cell :
  WellFormed n (Game.grid this) →
  Grid.cellContent (Game.grid this) source = Some tile →
  Grid.withinBounds (Game.grid this) cell = true →
  ∃ this',
    Game.moveTile tile cell this
    = Normal (Tile.updatePosition tile cell, this') ∧
    Grid.cellContent (Game.grid this') cell
    = Some (Tile.updatePosition tile cell) ∧
    (source ≠ cell → Grid.cellContent (Game.grid this') source = None) ∧
    (∀ p, p ≠ cell → p ≠ source →
          Grid.cellContent (Game.grid this') p
          = Grid.cellContent (Game.grid this) p) ∧
    WellFormed n (Game.grid this') ∧
    this' = Game.setGrid (Game.grid this') this ∧
    (source = cell → this' = this).
Proof.
  intros [Hsq Hplaced] Htile Hcell.
  pose proof Htile as Hat0. apply cellContent_at in Hat0 as [Hb0 Hat0].
  destruct (Hplaced _ _ _ Hat0) as [Htx Hty].
  apply withinBounds_spec in Hb0, Hcell.
  assert (Hn : Grid.size (Game.grid this) = n) by apply Hsq.
  destruct (moveTile_returns n tile cell this Hsq) as
    (tile' & this' & Hmove & Hsq'); try lia.
  pose proof Hmove as Hspec.
  apply moveTile_spec in Hspec as (-> & Hframe & Hsize & Hat).
  rewrite Htx, Hty in Hat.
  exists this'. split; [exact Hmove|].
  assert (Hcontent : ∀ p, Grid.cellContent (Game.grid this') p
                          = if Grid.withinBounds (Game.grid this) p
                            then Grid.at_ (Grid.cells (Game.grid this'))
                                   (px p) (py p)
                            else None).
  { intros p. unfold Grid.cellContent, Grid.withinBounds.
    now rewrite Hsize. }
  split; [|split; [|split; [|split; [|split]]]].
  - rewrite Hcontent, (proj2 (withinBounds_spec _ _) Hcell), Hat.
    now rewrite hit_eq by lia.
  - intros Hne. rewrite Hcontent, (proj2 (withinBounds_spec _ _) Hb0), Hat.
    rewrite (hit_ne' _ _ Hne). now rewrite hit_eq by lia.
  - intros p Hpc Hps. rewrite Hcontent. unfold Grid.cellContent.
    destruct (Grid.withinBounds (Game.grid this) p); [|reflexivity].
    rewrite Hat, (hit_ne' _ _ Hpc).
    destruct source as [sx sy]. cbn [px py] in *.
    now rewrite (hit_ne sx sy _ Hps).
  - split; [exact Hsq'|]. intros x y t. rewrite Hat.
    destruct (hit (px cell) _ x y) eqn:Hh.
    + intros Ht. inversion Ht; subst t. simpl.
      unfold hit in Hh. rewrite !andb_true_iff, !Z.eqb_eq in Hh. lia.
    + destruct (hit (px source) _ x y); [discriminate | apply Hplaced].
  - exact Hframe.
  - intros <-.
    destruct (setCell_restore _ _ _ _ Hat0) as (cs1 & Hclear & Hback).
    unfold Game.moveTile in Hmove. rewrite Htx, Hty, Hclear in Hmove.
    cbn [bind] in Hmove.
    replace (Tile.updatePosition tile source) with tile in Hmove
      by (destruct tile, source; simpl in *; subst; reflexivity).
    rewrite Hback in Hmove. cbn [bind] in Hmove.
    injection Hmove as <-.
    destruct this as [r s m [gs cs] sc ov w k]. reflexivity.
Qed.

Lemma moveTile_relocates_witness :
  WellFormed 4 (Game.grid (session rowBoard)) ∧
  Grid.cellContent (Game.grid (session rowBoard)) (mkPos 1 0)
  = Some (Tile.new (mkPos 1 0) 2) ∧
  Grid.withinBounds (Game.grid (session rowBoard)) (mkPos 1 3) = true ∧
  ∃ this',
    Game.moveTile (Tile.new (mkPos 1 0) 2) (mkPos 1 3) (session rowBoard)
    = Normal (Tile.updatePosition (Tile.new (mkPos 1 0) 2) (mkPos 1 3), this') ∧
    Grid.cellContent (Game.grid this') (mkPos 1 3)
    = Some (Tile.updatePosition (Tile.new (mkPos 1 0) 2) (mkPos 1 3)) ∧
    (mkPos 1 0 ≠ mkPos 1 3 →
     Grid.cellContent (Game.grid this') (mkPos 1 0) = None).
Proof.
  assert (Hwf : WellFormed 4 (Game.grid (session rowBoard)))
    by (apply wellFormedb_sound; vm_compute; reflexivity).
  split; [exact Hwf|]. split; [reflexivity|]. split; [reflexivity|].
  destruct (moveTile_relocates 4 (session rowBoard) (mkPos 1 0)
              (Tile.new (mkPos 1 0) 2) (mkPos 1 3) Hwf eq_refl eq_refl)
    as (this' & Hmove & Hcell & Hsource & _).
  exists this'. split; [exact Hmove|]. split; [exact Hcell | exact Hsource].
Defined.

(** ** The manager *)

(** X17.  The manager's [move] throws when [controlIndex] names no game;
    otherwise, when it returns, the game at [controlIndex] has made the
    move and every other game, the number of games and [controlIndex] are
    as before. *)
Theorem manager_move_routes rnd direction (this : GameManager.t) :
  (¬ 0 ≤ GameManager.controlIndex this
       < Z.of_nat (length (GameManager.games this)) →
   GameManager.move rnd direction this = TypeError) ∧
  (∀ this',
     GameManager.move rnd direction this = Normal this' →
     GameManager.controlIndex this' = GameManager.controlIndex this ∧
     length (GameManager.games this') = length (GameManager.games this) ∧
     (∃ g g',
        GameManager.games this !! Z.to_nat (GameManager.controlIndex this)
        = Some g ∧
        Game.move rnd direction g = Normal g' ∧
        GameManager.games this' !! Z.to_nat (GameManager.controlIndex this)
        = Some g') ∧
     ∀ j, j ≠ Z.to_nat (GameManager.controlIndex this) →
          GameManager.games this' !! j = GameManager.games this !! j).
Proof.
  unfold GameManager.move. split.
  - intros Hout. destruct (Z.ltb_spec (GameManager.controlIndex this) 0);
      [reflexivity|].
    rewrite lookup_ge_None_2; [reflexivity | lia].
  - intros this' H.
    destruct (Z.ltb_spec (GameManager.controlIndex this) 0); [discriminate|].
    destruct (GameManager.games this
                !! Z.to_nat (GameManager.controlIndex this))
      as [g|] eqn:Hg; [|discriminate].
    inv_bind H. rename r into g'. inversion H; subst this'; clear H. simpl.
    split; [reflexivity|]. split; [apply length_insert|]. split.
    + exists g, g'. split; [reflexivity|]. split; [assumption|].
      apply list_lookup_insert_eq. now apply lookup_lt_Some in Hg.
    + intros j Hj. now apply list_lookup_insert_ne.
Qed.

Lemma manager_move_routes_witness :
  GameManager.move (Game.mkSpawn true 0) 3
    (GameManager.mk [session fullBoard; session rowBoard] 2) = TypeError ∧
  ∃ this' g',
    GameManager.move (Game.mkSpawn true 0) 3
      (GameManager.mk [session fullBoard; session rowBoard] 1)
    = Normal this' ∧
    Game.move (Game.mkSpawn true 0) 3 (session rowBoard) = Normal g' ∧
    GameManager.games this' !! 1%nat = Some g' ∧
    GameManager.games this' !! 0%nat = Some (session fullBoard).
Proof.
  split.
  - apply (proj1 (manager_move_routes (Game.mkSpawn true 0) 3
                    (GameManager.mk [session fullBoard; session rowBoard] 2))).
    simpl. lia.
  - assert (Hm : ∃ this',
               GameManager.move (Game.mkSpawn true 0) 3
                 (GameManager.mk [session fullBoard; session rowBoard] 1)
               = Normal this').
    { eexists. vm_compute. reflexivity. }
    destruct Hm as (this' & Hm).
    destruct (proj2 (manager_move_routes (Game.mkSpawn true 0) 3
                       (GameManager.mk [session fullBoard; session rowBoard] 1))
                this' Hm)
      as (_ & _ & (g & g' & Hg & Hmove & Hg') & Hrest).
    simpl in Hg. inversion Hg; subst g.
    exists this', g'. split; [exact Hm|]. split; [exact Hmove|].
    split; [exact Hg'|]. apply (Hrest 0%nat). simpl. lia.
Defined.

Lemma eachGame_returns (callback : nat → Game.t → Completion Game.t)
    (Q : nat → Game.t → Game.t → Prop) games :
  (∀ i g, ∃ g', callback i g = Normal g' ∧ Q i g g') →
  ∀ i0, ∃ games',
    GameManager.eachGame i0 callback games = Normal games' ∧
    length games' = length games ∧
    ∀ j g, games !! j = Some g →
           ∃ g', games' !! j = Some g' ∧ Q (i0 + j)%nat g g'.
Proof.
  intros Hcb. induction games as [|g games IH]; intros i0; simpl.
  - exists []. repeat split. intros j g Hj. discriminate.
  - destruct (Hcb i0 g) as (g' & -> & HQ). simpl.
    destruct (IH (S i0)) as (games' & -> & Hlen & Hall). simpl.
    exists (g' :: games'). split; [reflexivity|].
    split; [simpl; now rewrite Hlen|].
    intros [|j] g0 Hj; simpl in Hj.
    + inversion Hj; subst g0. exists g'. rewrite Nat.add_0_r. now split.
    + destruct (Hall j g0 Hj) as (g1 & Hg1 & HQ1). exists g1.
      split; [exact Hg1|]. now replace (i0 + S j)%nat with (S i0 + j)%nat by lia.
Qed.

(** X18.  The manager's [restart] returns on every manager: it keeps the
    number of games and [controlIndex], and each game is the restarted
    game of the same index, with score 0, no flag set and a well-formed
    board of its render's size. *)
Theorem manager_restart_restarts_all rnd (this : GameManager.t) :
  ∃ this',
    GameManager.restart rnd this = Normal this' ∧
    GameManager.controlIndex this' = GameManager.controlIndex this ∧
    length (GameManager.games this') = length (GameManager.games this) ∧
    ∀ i g,
      GameManager.games this !! i = Some g →
      ∃ g',
        GameManager.games this' !! i = Some g' ∧
        Game.restart (rnd i) g = Normal g' ∧
        Game.score g' = 0 ∧
        Game.over g' = false ∧
        Game.won g' = false ∧
        Game.keepPlaying g' = Game.Flag false ∧
        WellFormed (Game.size (Game.render g)) (Game.grid g').
Proof.
  unfold GameManager.restart.
  destruct (eachGame_returns (λ i, Game.restart (rnd i))
              (λ i g g',
                 Game.restart (rnd i) g = Normal g' ∧
                 Game.score g' = 0 ∧ Game.over g' = false ∧
                 Game.won g' = false ∧
                 Game.keepPlaying g' = Game.Flag false ∧
                 WellFormed (Game.size (Game.render g)) (Game.grid g'))
              (GameManager.games this)) with (i0 := 0%nat)
    as (games' & -> & Hlen & Hall).
  { intros i g.
    destruct (restart_fresh (rnd i) g)
      as (g' & Hr & Hsc & Hov & Hw & Hk & Hwf & _).
    exists g'. repeat (split; [assumption|]). assumption. }
  simpl. eexists. split; [reflexivity|]. simpl.
  split; [reflexivity|]. split; [exact Hlen|].
  intros i g Hg. destruct (Hall i g Hg) as (g' & Hg' & HQ).
  exists g'. split; [exact Hg' | exact HQ].
Qed.

Lemma eachGame_keepPlaying_throws games :
  Exists (λ g, ∃ b, Game.keepPlaying g = Game.Flag b) games →
  ∀ i0, GameManager.eachGame i0 (λ _, Game.call_keepPlaying) games = TypeError.
Proof.
  induction 1 as [g games (b & Hb)|g games Hex IH]; intros i0; simpl.
  - unfold Game.call_keepPlaying. now rewrite Hb.
  - unfold Game.call_keepPlaying at 1.
    destruct (Game.keepPlaying g); [|reflexivity]. simpl.
    now rewrite IH.
Qed.

(** X19.  The manager's [keepPlaying] throws on every manager one of whose
    games has been through [setup()], as every game has that the
    constructor or [restart()] returned, over a storage that held no state
    or a state whose [keepPlaying] is a boolean: no game of the manager is
    changed. *)
Theorem manager_keepPlaying_throws_after_setup rnd (g0 g : Game.t)
    (this : GameManager.t) :
  Game.setup rnd g0 = Normal g →
  (∀ previousState,
     Game.gameState (Game.storage g0) = Some previousState →
     ∃ b, Game.Stored.keepPlaying previousState = Game.Flag b) →
  g ∈ GameManager.games this →
  GameManager.keepPlaying this = TypeError.
Proof.
  intros Hsetup Hwire Hin. unfold GameManager.keepPlaying.
  rewrite eachGame_keepPlaying_throws; [reflexivity|].
  apply Exists_exists. exists g. split; [exact Hin|].
  apply setup_keepPlaying in Hsetup. rewrite Hsetup.
  destruct (Game.gameState _) as [previousState|]; [|eauto].
  now apply Hwire.
Qed.

Lemma manager_keepPlaying_throws_after_setup_witness :
  ∃ g,
    Game.setup (λ i, Game.mkSpawn true (Z.to_nat i)) (session rowBoard)
    = Normal g ∧
    GameManager.keepPlaying (GameManager.mk [session fullBoard; g] 0)
    = TypeError.
Proof.
  assert (Hm : ∃ g,
             Game.setup (λ i, Game.mkSpawn true (Z.to_nat i))
               (session rowBoard) = Normal g).
  { eexists. vm_compute. reflexivity. }
  destruct Hm as (g & Hm). exists g. split; [exact Hm|].
  apply (manager_keepPlaying_throws_after_setup _ (session rowBoard) g
           (GameManager.mk [session fullBoard; g] 0) Hm).
  - intros previousState Hstate. discriminate Hstate.
  - right. left.
Defined.

(** ** Creating the games *)

Lemma storageKey_inj i j : storageKey i = storageKey j → i = j.
Proof.
  unfold storageKey. intros H. apply (inj (String.app _)) in H.
  apply (inj pretty) in H. lia.
Qed.

Lemma createGames_loop (make : Z → Completion Game.t) (Q : Z → Game.t → Prop)
    l acc :
  (∀ i, i ∈ l → ∃ g, make i = Normal g ∧ Q i g) →
  ∃ made,
    forEach l (λ i games, g ←! make i; Normal (games ++ [g])) acc
    = Normal (acc ++ made) ∧
    length made = length l ∧
    ∀ k i, l !! k = Some i →
           ∃ g, made !! k = Some g ∧ make i = Normal g ∧ Q i g.
Proof.
  revert acc. induction l as [|i l IH]; intros acc Hmake; simpl.
  - exists []. rewrite app_nil_r. repeat split. intros k i Hk. discriminate.
  - destruct (Hmake i) as (g & Hg & HQ); [left|]. rewrite Hg. simpl.
    destruct (IH (acc ++ [g])) as (made & -> & Hlen & Hall).
    { intros j Hj. apply Hmake. now right. }
    exists (g :: made). rewrite <- app_assoc. split; [reflexivity|].
    split; [simpl; now rewrite Hlen|].
    intros [|k] i' Hk; simpl in Hk.
    + inversion Hk; subst i'. exists g. split; [reflexivity|]. now split.
    + apply Hall. exact Hk.
Qed.

(** X20.  Over storages that hold no saved state under the keys it uses,
    [createGames] returns as many games as [count] says, none when it is
    negative: the game of index [i] is the one the constructor makes over
    the storage keyed [game] followed by [i + 1], with the given
    [startTiles], score 0, not over, on a well-formed board of the render's
    size; different indices have different keys. *)
Theorem createGames_makes_count_games Render Storage rnd count size startTiles :
  (∀ i, 0 ≤ i < count →
        Game.gameState (Storage (storageKey i)) = None) →
  ∃ games,
    createGames Render Storage rnd count size startTiles = Normal games ∧
    length games = Z.to_nat count ∧
    (∀ i, 0 ≤ i < count →
          ∃ g,
            games !! Z.to_nat i = Some g ∧
            Game.new (rnd i) (Render size) (Storage (storageKey i)) startTiles
            = Normal g ∧
            Game.startTiles g = startTiles ∧
            Game.size (Game.render g) = Game.size (Render size) ∧
            Game.score g = 0 ∧
            Game.over g = false ∧
            WellFormed (Game.size (Render size)) (Game.grid g)) ∧
    (∀ i j, storageKey i = storageKey j → i = j).
Proof.
  intros Hnone. unfold createGames.
  destruct (createGames_loop
              (λ i, Game.new (rnd i) (Render size) (Storage (storageKey i))
                      startTiles)
              (λ i g, Game.startTiles g = startTiles
                      ∧ Game.size (Game.render g) = Game.size (Render size)
                      ∧ Game.score g = 0
                      ∧ Game.over g = false
                      ∧ WellFormed (Game.size (Render size)) (Game.grid g))
              (range count) [])
    as (made & Hrun & Hlen & Hall).
  { intros i Hi. apply elem_of_range in Hi. unfold Game.new.
    destruct (setup_fresh (rnd i)
                (Game.mk (Render size) (Storage (storageKey i)) startTiles
                   (Grid.empty 0) 0 false false Game.Method))
      as (seeded & Hsetup & Hframe & Hwf & _).
    { apply Hnone. exact Hi. }
    exists (Game.draw seeded). split; [exact Hsetup|].
    destruct (draw_frame seeded) as (-> & -> & -> & _ & _ & -> & ->).
    split; [now rewrite Hframe|]. split; [now rewrite Hframe|].
    split; [now rewrite Hframe|]. split; [now rewrite Hframe|].
    exact Hwf. }
  exists made. split; [exact Hrun|].
  split; [now rewrite Hlen, length_range|].
  split; [|apply storageKey_inj].
  intros i Hi.
  assert (Hk : range count !! Z.to_nat i = Some i).
  { unfold range. rewrite list_lookup_fmap.
    rewrite lookup_seq_lt by lia. simpl. f_equal. lia. }
  destruct (Hall _ _ Hk) as (g & Hg & Hnew & Hst & Hsz & Hsc & Hov & Hwf).
  exists g. split; [exact Hg|]. split; [exact Hnew|].
  split; [exact Hst|]. split; [exact Hsz|]. split; [exact Hsc|].
  split; [exact Hov | exact Hwf].
Qed.

Lemma createGames_makes_count_games_witness :
  (∀ i, 0 ≤ i < 2 →
        Game.gameState (Game.mkStorage None 0 []) = None) ∧
  ∃ games,
    createGames (λ size, Game.mkRender size []) (λ _, Game.mkStorage None 0 [])
      (λ _ i, Game.mkSpawn true (Z.to_nat i)) 2 4 2 = Normal games ∧
    length games = 2%nat.
Proof.
  split; [reflexivity|].
  destruct (createGames_makes_count_games
              (λ size, Game.mkRender size []) (λ _, Game.mkStorage None 0 [])
              (λ _ i, Game.mkSpawn true (Z.to_nat i)) 2 4 2)
    as (games & Hrun & Hlen & _).
  { intros i Hi. reflexivity. }
  exists games. split; [exact Hrun | exact Hlen].
Defined.

(** ** When a move ends the game *)

(** X21.  A move on a session that is not terminated sets [over] exactly
    when one of its visits merged or relocated a tile and, the tile
    spawned, no cell of the board is empty; whether tiles of equal value
    are neighbours plays no part. *)
Theorem move_sets_over_exactly_when_full rnd direction vector
    (this this' : Game.t) :
  Game.isGameTerminated this = false →
  Game.getVector direction = Some vector →
  Game.move rnd direction this = Normal this' →
  Game.over this' = true ↔
  ChangeDuring vector
    (Game.buildTraversals vector (Game.size (Game.render this)))
    (Game.prepareTiles this, false) ∧
  Grid.cellsAvailable (Game.grid this') = false.
Proof.
  intros Hterm Hv H.
  assert (Hover : Game.over this = false).
  { unfold Game.isGameTerminated in Hterm.
    now apply orb_false_iff in Hterm as [Ho _]. }
  unfold Game.move in H. rewrite Hterm, Hv in H.
  inv_bind H. destruct r as [this1 moved].
  pose proof (traverse_moved _ _ _ _ _ Hv Hr) as Hmoved. simpl in Hmoved.
  destruct (traverse_frame _ _ _ _ _ _ Hr) as (_ & _ & _ & Hov1 & _).
  change (Game.over (Game.prepareTiles this)) with (Game.over this) in Hov1.
  destruct moved.
  - inv_bind H. rename r into this2. inversion H; subst this'; clear H.
    apply addRandomTile_frame in Hr0.
    assert (Hov2 : Game.over this2 = false).
    { rewrite Hr0. simpl. congruence. }
    rewrite movesAvailable_is_cellsAvailable.
    destruct (draw_frame
                (if negb (Grid.cellsAvailable (Game.grid this2))
                 then Game.setOver true this2 else this2))
      as (-> & _ & -> & _).
    destruct (Grid.cellsAvailable (Game.grid this2)) eqn:Hfree; simpl.
    + rewrite Hov2, Hfree. split; [discriminate|]. intros [_ ?]. discriminate.
    + rewrite Hfree. split; [|reflexivity]. intros _.
      split; [now apply Hmoved | reflexivity].
  - inversion H; subst this'; clear H. rewrite Hov1, Hover.
    split; [discriminate|]. intros [Hchange _].
    apply Hmoved in Hchange. discriminate.
Qed.

Lemma move_sets_over_exactly_when_full_witness :
  Game.isGameTerminated (session shiftedBoard) = false ∧
  Game.getVector 3 = Some (mkPos (-1) 0) ∧
  ∃ this',
    Game.move (Game.mkSpawn true 0) 3 (session shiftedBoard) = Normal this' ∧
    Grid.cellsAvailable (Game.grid this') = false ∧
    Game.over this' = true.
Proof.
  split; [reflexivity|]. split; [reflexivity|].
  assert (Hm : ∃ this',
             Game.move (Game.mkSpawn true 0) 3 (session shiftedBoard)
             = Normal this' ∧ Game.over this' = true).
  { eexists. split; vm_compute; reflexivity. }
  destruct Hm as (this' & Hm & Hover).
  exists this'. split; [exact Hm|].
  destruct (proj1 (move_sets_over_exactly_when_full (Game.mkSpawn true 0) 3
                     (mkPos (-1) 0) (session shiftedBoard) this'
                     eq_refl eq_refl Hm) Hover) as [_ Hfull].
  split; [exact Hfull | exact Hover].
Defined.
